(** * A software ALU over fixed-width two's-complement words (alu.c)

    The C functions of alu.c are embedded as programs of a small state and
    error monad over a store of word buffers.  Every C function takes its
    buffers by address, so the embedding takes locations: the same location
    passed twice is the aliasing of the C call. *)

From Stdlib Require Import ZArith Bool List Lia.
Import ListNotations.
Local Open Scope Z_scope.

(** ** Words, bits and the store *)

(** Modelled from the spec: alu.h is not part of the sources.  The word
    length is a constant fixed ahead of time; alu.c itself writes the sign
    position as the literal 31 (testLtWord, testGeWord, mulWord) and the
    length as the literal 32 (cshWord), which fixes it. *)
Definition wordsize : Z := 32.

(** Modelled from the spec: the top bit index, the position of the sign. *)
Definition wordtopbit : Z := wordsize - 1.

(** A bit is the C integer 0 or 1. *)
Definition bit : Type := Z.

(** A word is held as the number whose binary digits are its bits, digit 0
    being the least significant; a buffer always holds a number below
    [2 ^ wordsize] (see [valid]). *)
Definition word : Type := Z.

(** Addresses of word buffers.  [Buf n] are the buffers owned by callers.
    The three constants of alu.h are buffers too.  alu.c has no recursion,
    so each automatic variable of type word gets one address of its own. *)
Inductive loc : Type :=
| Buf (n : nat)
| zeroWord | maxWord | minWord
| ash_localop | csh_localop | lsh_localop
| mul_localop1 | mul_localop2 | mul_one
| div_w1 | div_w2 | div_test
| divWord_remainder | remainderWord_quotient.

Definition loc_eq_dec (x y : loc) : {x = y} + {x <> y}.
Proof. decide equality. apply Nat.eq_dec. Defined.

Definition mem : Type := loc -> word.

Definition upd (m : mem) (l : loc) (v : word) : mem :=
  fun x => if loc_eq_dec x l then v else m x.

(** ** The monad: a store threaded through, and two ways to fail *)

Inductive outcome (A : Type) : Type :=
| Done (a : A)
| BadIndex (i : Z)   (* a bit index outside [0, wordtopbit] was used *)
| NoFuel.            (* the iteration budget of a while loop ran out *)
Arguments Done {A} a.
Arguments BadIndex {A} i.
Arguments NoFuel {A}.

Definition M (A : Type) : Type := mem -> outcome (A * mem).

Definition ret {A} (a : A) : M A := fun m => Done (a, m).

Definition bind {A B} (c : M A) (k : A -> M B) : M B :=
  fun m => match c m with
           | Done (a, m') => k a m'
           | BadIndex i => BadIndex i
           | NoFuel => NoFuel
           end.

Declare Scope alu_scope.
Delimit Scope alu_scope with alu.
Notation "x <- c1 ;; c2" := (bind c1 (fun x => c2))
  (at level 61, c1 at next level, right associativity) : alu_scope.
Notation "c1 ;; c2" := (bind c1 (fun _ => c2))
  (at level 61, right associativity) : alu_scope.
Local Open Scope alu_scope.

(** ** The bit accessors of alu.h *)

Definition in_word (i : Z) : bool := (0 <=? i) && (i <=? wordtopbit).

(** Modelled from the spec: getBit(word, index), valid for an index in
    [0, topIndex] and erroneous outside. *)
Definition getBitOfWord (w : loc) (i : Z) : M bit :=
  fun m => if in_word i then Done (Z.b2z (Z.testbit (m w) i), m) else BadIndex i.

Definition put_bit (w : word) (i : Z) (v : bit) : word :=
  if v =? 0 then Z.clearbit w i else Z.setbit w i.

(** Modelled from the spec: setBit(word, index, value) overwrites one bit in
    place. *)
Definition setBitOfWord (w : loc) (i : Z) (v : bit) : M unit :=
  fun m => if in_word i then Done (tt, upd m w (put_bit (m w) i v)) else BadIndex i.

(** Modelled from the spec: copyWord(dest, src), a full-width copy. *)
Definition setWord (dst src : loc) : M unit :=
  fun m => Done (tt, upd m dst (m src)).

(** Modelled from the spec: complementBit(b) returns the opposite bit. *)
Definition notBit (b : bit) : bit := if b =? 0 then 1 else 0.

(** Modelled from the spec: narrowToBit(sum) maps a sum 0..3 to its low bit. *)
Definition toBit (r : Z) : bit := Z.land r 1.

(** ** Loops *)

Fixpoint fold_down_n {St} (n : nat) (b : Z) (body : Z -> St -> M St) (s : St) : M St :=
  match n with
  | O => ret s
  | S k => s' <- body b s ;; fold_down_n k (b - 1) body s'
  end.

Fixpoint fold_up_n {St} (n : nat) (b : Z) (body : Z -> St -> M St) (s : St) : M St :=
  match n with
  | O => ret s
  | S k => s' <- body b s ;; fold_up_n k (b + 1) body s'
  end.

(** [for (b = from; b >= to; b--)] with a local variable [s] carried along. *)
Definition fold_down {St} (from to : Z) (body : Z -> St -> M St) (s : St) : M St :=
  fold_down_n (Z.to_nat (from - to + 1)) from body s.

(** [for (b = from; b <= to; b++)] with a local variable [s] carried along. *)
Definition fold_up {St} (from to : Z) (body : Z -> St -> M St) (s : St) : M St :=
  fold_up_n (Z.to_nat (to - from + 1)) from body s.

(** [for (b = from; b >= to; b--)]; the C test [b > n] is [b >= n + 1]. *)
Definition for_down (from to : Z) (body : Z -> M unit) : M unit :=
  fold_down from to (fun b _ => body b) tt.

(** [for (b = from; b <= to; b++)]; the C test [b < n] is [b <= n - 1]. *)
Definition for_up (from to : Z) (body : Z -> M unit) : M unit :=
  fold_up from to (fun b _ => body b) tt.

(** [while (cond) body], running the body at most [fuel] times. *)
Fixpoint while (fuel : nat) (cond : M bool) (body : M unit) {struct fuel} : M unit :=
  c <- cond ;;
  if c then
    match fuel with
    | O => fun _ => NoFuel
    | S k => body ;; while k cond body
    end
  else ret tt.

(** ** Comparator *)

Definition testLtWord (op : loc) : M bool :=
  bitofsign <- getBitOfWord op 31 ;;
  if bitofsign =? 1 then ret true else ret false.

Definition testGeWord (op : loc) : M bool :=
  bitofsign <- getBitOfWord op 31 ;;
  if bitofsign =? 1 then ret false else ret true.

(** The loop of testEqWord returns from inside its body. *)
Fixpoint testEqWord_loop (n : nat) (b : Z) (op : loc) : M bool :=
  match n with
  | O => ret true
  | S k =>
      t <- getBitOfWord op b ;;
      if negb (t =? 0) then ret false else testEqWord_loop k (b + 1) op
  end.

Definition testEqWord (op : loc) : M bool :=
  testEqWord_loop (Z.to_nat (wordtopbit - 0 + 1)) 0 op.

(** ** Shift and mask unit *)

(** C's [abs] on an int.  The two agree on every int but INT_MIN, where the C
    call has no defined value (and the shifts would then index out of the
    word): what is proved for an arbitrary count assumes the count is an int
    other than INT_MIN, see [int_count]. *)
Definition abs (count : Z) : Z := Z.abs count.

Definition ashWord (result op : loc) (count : Z) : M unit :=
  let c := abs count in
  let c := if c >=? wordsize then wordsize - 1 else c in
  setWord ash_localop op ;;
  sign <- getBitOfWord ash_localop wordtopbit ;;
  (if count <? 0 then
     for_down (wordtopbit - 1) c (fun b =>
       t <- getBitOfWord ash_localop b ;;
       setBitOfWord result (b - c) t) ;;
     for_down c 1 (fun b =>
       setBitOfWord result (wordtopbit - b) sign)
   else
     for_down (wordtopbit - 1) c (fun b =>
       t <- getBitOfWord ash_localop (b - c) ;;
       setBitOfWord result b t) ;;
     for_down (c - 1) 0 (fun b =>
       setBitOfWord result b 0)) ;;
  setBitOfWord result wordtopbit sign.

Definition cshWord (result op : loc) (count : Z) : M unit :=
  let c := abs count in
  let c := if c >? 32 then c - 32 else c in
  (if (c =? 0) || (Z.rem c 32 =? 0) then setWord result op else ret tt) ;;
  setWord csh_localop op ;;
  (if c <? Z.quot wordsize 2 then
     for_down wordtopbit (wordtopbit - c + 1) (fun b =>
       t <- getBitOfWord csh_localop b ;;
       setBitOfWord result (Z.rem b (32 - c)) t) ;;
     for_down (wordtopbit - c) c (fun p =>
       t <- getBitOfWord csh_localop p ;;
       setBitOfWord result (Z.rem p (32 - c) + c) t)
   else ret tt) ;;
  (if c >=? Z.quot wordsize 2 then
     for_down wordtopbit (wordtopbit - c + 1) (fun b =>
       t <- getBitOfWord csh_localop b ;;
       setBitOfWord result (b - (32 - c)) t) ;;
     for_down (wordtopbit - c) 0 (fun p =>
       t <- getBitOfWord csh_localop p ;;
       setBitOfWord result (Z.rem p c + c) t)
   else ret tt).

Definition lshWord (result op : loc) (count : Z) : M unit :=
  let c := abs count in
  let c := if c >=? wordsize then wordsize - 1 else c in
  setWord lsh_localop op ;;
  if count <? 0 then
    for_down wordtopbit c (fun b =>
      t <- getBitOfWord lsh_localop b ;;
      setBitOfWord result (b - c) t) ;;
    for_down (c - 1) 0 (fun b =>
      setBitOfWord result (wordtopbit - b) 0)
  else
    for_down wordtopbit c (fun b =>
      t <- getBitOfWord lsh_localop (b - c) ;;
      setBitOfWord result b t) ;;
    for_down (c - 1) 0 (fun b =>
      setBitOfWord result b 0).

Definition maskWord (result op : loc) (count : Z) : M unit :=
  let c := abs count in
  let c := if c >? wordsize then wordsize else c in
  if count <? 0 then
    let wtbc := wordtopbit - c in
    for_down wordtopbit (wtbc + 1) (fun b =>
      t <- getBitOfWord op b ;;
      setBitOfWord result b t) ;;
    for_down wtbc 0 (fun b =>
      setBitOfWord result b 0)
  else
    for_up 0 (c - 1) (fun b =>
      t <- getBitOfWord op b ;;
      setBitOfWord result b t) ;;
    for_up c wordtopbit (fun b =>
      setBitOfWord result b 0).

(** ** Logic unit *)

Definition andWord (result op1 op2 : loc) : M unit :=
  for_up 0 wordtopbit (fun b =>
    t1 <- getBitOfWord op1 b ;;
    t2 <- getBitOfWord op2 b ;;
    setBitOfWord result b (Z.land t1 t2)).

Definition orWord (result op1 op2 : loc) : M unit :=
  for_up 0 wordtopbit (fun b =>
    t1 <- getBitOfWord op1 b ;;
    t2 <- getBitOfWord op2 b ;;
    setBitOfWord result b (Z.lor t1 t2)).

Definition xorWord (result op1 op2 : loc) : M unit :=
  for_up 0 wordtopbit (fun b =>
    t1 <- getBitOfWord op1 b ;;
    t2 <- getBitOfWord op2 b ;;
    setBitOfWord result b (Z.lxor t1 t2)).

Definition notWord (result op : loc) : M unit :=
  for_up 0 wordtopbit (fun b =>
    t <- getBitOfWord op b ;;
    setBitOfWord result b (notBit t)).

(** ** Adder and subtractor *)

Definition addWord (result op1 op2 : loc) : M unit :=
  fold_up 0 wordtopbit (fun b carry =>
    x <- getBitOfWord op1 b ;;
    y <- getBitOfWord op2 b ;;
    let r := x + y + carry in
    setBitOfWord result b (toBit r) ;;
    ret (Z.shiftr r 1)) 0 ;;
  ret tt.

Definition subWord (result op1 op2 : loc) : M unit :=
  fold_up 0 wordtopbit (fun b carry =>
    x <- getBitOfWord op1 b ;;
    y <- getBitOfWord op2 b ;;
    let r := x + notBit y + carry in
    setBitOfWord result b (toBit r) ;;
    ret (Z.shiftr r 1)) 1 ;;
  ret tt.

Definition negativeWord (result op : loc) : M unit :=
  subWord result zeroWord op.

(** ** Multiplier *)

Definition mulWord (fuel : nat) (result op1 op2 : loc) : M unit :=
  setWord mul_localop1 op1 ;;
  setWord mul_localop2 op2 ;;
  setWord result zeroWord ;;
  setWord mul_one zeroWord ;;
  setBitOfWord mul_one 0 1 ;;
  msb1 <- getBitOfWord mul_localop1 31 ;;
  msb2 <- getBitOfWord mul_localop2 31 ;;
  let negativeProduct := Z.lxor msb1 msb2 =? 1 in
  (if msb1 =? 1 then
     notWord mul_localop1 mul_localop1 ;;
     addWord mul_localop1 mul_localop1 mul_one
   else ret tt) ;;
  (if msb2 =? 1 then
     notWord mul_localop2 mul_localop2 ;;
     addWord mul_localop2 mul_localop2 mul_one
   else ret tt) ;;
  while fuel (z <- testEqWord mul_localop2 ;; ret (negb z))
    (t <- getBitOfWord mul_localop2 0 ;;
     (if negb (t =? 0) then addWord result result mul_localop1 else ret tt) ;;
     lshWord mul_localop1 mul_localop1 1 ;;
     lshWord mul_localop2 mul_localop2 (-1)) ;;
  if negativeProduct then
    notWord result result ;;
    addWord result result mul_one
  else ret tt.

(** ** Divider *)

Definition div2Word (result remainder op1 op2 : loc) : M unit :=
  setWord result zeroWord ;;
  setWord remainder zeroWord ;;
  z <- testEqWord op2 ;;
  if z then
    ge <- testGeWord op1 ;;
    setWord result (if ge then maxWord else minWord)
  else
    lt1 <- testLtWord op1 ;;
    resultNegative <-
      (if lt1 then negativeWord div_w1 op1 ;; ret (negb false)
       else setWord div_w1 op1 ;; ret false) ;;
    lt2 <- testLtWord op2 ;;
    resultNegative <-
      (if lt2 then negativeWord div_w2 op2 ;; ret (negb resultNegative)
       else setWord div_w2 op2 ;; ret resultNegative) ;;
    for_down wordtopbit 0 (fun b =>
      lshWord remainder remainder 1 ;;
      t <- getBitOfWord div_w1 b ;;
      setBitOfWord remainder 0 t ;;
      subWord div_test remainder div_w2 ;;
      ge <- testGeWord div_test ;;
      if ge then
        setBitOfWord result b 1 ;;
        setWord remainder div_test
      else ret tt) ;;
    (if resultNegative then negativeWord result result else ret tt) ;;
    lt1' <- testLtWord op1 ;;
    if lt1' then negativeWord remainder remainder else ret tt.

Definition divWord (result op1 op2 : loc) : M unit :=
  div2Word result divWord_remainder op1 op2.

Definition remainderWord (result op1 op2 : loc) : M unit :=
  div2Word remainderWord_quotient result op1 op2.

(** ** Running a program on given buffers *)

(** The store in which the callers' buffers hold the listed words, the
    constants hold their values and every other buffer holds zero. *)
Definition init_mem (bufs : list word) : mem :=
  fun l => match l with
           | Buf n => nth n bufs 0
           | maxWord => 2 ^ wordtopbit - 1
           | minWord => 2 ^ wordtopbit
           | _ => 0
           end.

(** The word left in buffer [l] by program [c]. *)
Definition run_word {A} (c : M A) (m : mem) (l : loc) : outcome word :=
  match c m with
  | Done (_, m') => Done (m' l)
  | BadIndex i => BadIndex i
  | NoFuel => NoFuel
  end.

(** * Properties *)

(** ** Words as bit sequences *)

Definition valid_word (w : word) : Prop := 0 <= w < 2 ^ wordsize.

(** Every buffer of the store holds a word. *)
Definition valid (m : mem) : Prop := forall l, valid_word (m l).

(** Modelled from the spec: the three constant words of alu.h hold the zero
    word (all bits 0), the max-word (sign bit 0, all other bits 1) and the
    min-word (sign bit 1, all other bits 0). *)
Definition constants (m : mem) : Prop :=
  m zeroWord = 0 /\ m maxWord = 2 ^ wordtopbit - 1 /\ m minWord = 2 ^ wordtopbit.

(** The two's-complement value of a word. *)
Definition sval (w : word) : Z := if Z.testbit w wordtopbit then w - 2 ^ wordsize else w.

(** [m'] differs from [m] at most at the buffers [ls]. *)
Definition same_except (ls : list loc) (m m' : mem) : Prop :=
  forall x, ~ In x ls -> m' x = m x.

(** ** Vocabulary of the specifications *)

(** Program [c], started in store [m], returns (no bad index, no exhausted
    budget) a result and a store that satisfy [Q]. *)
Definition returns {A} (c : M A) (m : mem) (Q : A -> mem -> Prop) : Prop :=
  exists a m', c m = Done (a, m') /\ Q a m'.

(** [m'] is [m] with the bits below [k] of buffer [r] replaced by those of
    [T]. *)
Definition partial (r : loc) (T : word) (k : Z) (m m' : mem) : Prop :=
  valid m' /\ same_except [r] m m' /\
  forall i, 0 <= i <= wordtopbit ->
    Z.testbit (m' r) i = if i <? k then Z.testbit T i else Z.testbit (m r) i.

(** The carry into bit [k] when adding [x], [y] and the initial carry. *)
Definition carry_into (x y cin k : Z) : Z :=
  (x mod 2 ^ k + y mod 2 ^ k + cin) / 2 ^ k.

(** The count as ashWord and lshWord use it: its magnitude, at most
    [wordsize - 1]. *)
Definition clamp_shift (count : Z) : Z :=
  let c := abs count in if c >=? wordsize then wordsize - 1 else c.

(** Bit [i] of the word ashWord leaves in the result buffer. *)
Definition ash_bit (w : word) (count i : Z) : bool :=
  let c := clamp_shift count in
  if i =? wordtopbit then Z.testbit w wordtopbit
  else if count <? 0 then
         (if i <=? wordtopbit - 1 - c then Z.testbit w (i + c) else Z.testbit w wordtopbit)
       else
         (if i <? c then false else Z.testbit w (i - c)).

(** The buffers mulWord may write: the result and private ones. *)
Definition mul_frame (r : nat) : list loc :=
  [Buf r; mul_localop1; mul_localop2; mul_one; lsh_localop].

(** The buffers the division loop may write. *)
Definition div_loop_frame (q r : nat) : list loc :=
  [Buf q; Buf r; div_test; lsh_localop].

(** [x] negated, within the word, when [s] holds. *)
Definition negate_if (s : bool) (x : Z) : word :=
  if s then (- x) mod 2 ^ wordsize else x.

(** What the "operands must be positive" step makes of a word. *)
Definition magnitude (w : word) : word := negate_if (Z.testbit w wordtopbit) w.

(** The buffers div2Word may write: quotient, remainder and private ones. *)
Definition div_frame (q r : nat) : list loc :=
  [Buf q; Buf r; div_w1; div_w2; div_test; lsh_localop].

(** The buffers div2Word must not be given as quotient or remainder: the
    constants and the private buffers of the division. *)
Definition not_private (l : loc) : Prop :=
  l <> zeroWord /\ l <> maxWord /\ l <> minWord /\
  l <> div_w1 /\ l <> div_w2 /\ l <> div_test /\ l <> lsh_localop.

(** [div_loop_frame] and [div_frame] for any quotient and remainder buffer. *)
Definition div_loop_written (q r : loc) : list loc :=
  [q; r; div_test; lsh_localop].

Definition div_written (q r : loc) : list loc :=
  [q; r; div_w1; div_w2; div_test; lsh_localop].

(** The counts on which C's [abs] is defined: the values of an int other
    than INT_MIN.  On them no int computation of alu.c overflows. *)
Definition int_count (count : Z) : Prop := - 2 ^ 31 < count < 2 ^ 31.

(** The count as maskWord uses it: its magnitude, at most [wordsize]. *)
Definition mask_count (count : Z) : Z :=
  let c := abs count in if c >? wordsize then wordsize else c.

(** The count as cshWord uses it: the magnitude, less 32 when above 32. *)
Definition csh_count (count : Z) : Z :=
  let c := abs count in if c >? 32 then c - 32 else c.

(** Bit [i] of the word cshWord leaves in the result buffer, [w] being the
    operand, [r0] what the result buffer held and [c] the count used: below
    [c] the top bits of the operand, from [c] the operand moved up by [c];
    but for a count below half the word length the bits from [c] to
    [2 * c - 1] are not written. *)
Definition csh_bit (w r0 : word) (c i : Z) : bool :=
  if i <? c then Z.testbit w (i + (32 - c))
  else if (c <? Z.quot wordsize 2) && (i <? 2 * c) then Z.testbit r0 i
  else Z.testbit w (i - c).

(** The word rotated left by [c] positions. *)
Definition rotl (w : word) (c : Z) : word :=
  Z.lor ((w * 2 ^ c) mod 2 ^ wordsize) (w / 2 ^ (wordsize - c)).

(** Equality up to a multiple of [2 ^ wordsize]. *)
Definition cong (x y : Z) : Prop := x mod 2 ^ wordsize = y mod 2 ^ wordsize.

(** The factor a negation multiplies by. *)
Definition sign_factor (s : bool) : Z := if s then -1 else 1.

(** ** The two claims that fail, as they are worded *)

(** The claim as the specification words it, on the words [a] and [b]:
    quotient times divisor plus remainder is the dividend, the sign bit of the
    quotient is the exclusive or of the operands' sign bits, and the sign bit
    of the remainder is that of the dividend. *)
Definition div2Word_claim (a b : word) : Prop :=
  returns (div2Word (Buf 2) (Buf 3) (Buf 0) (Buf 1) ;;
           mulWord (Z.to_nat wordsize) (Buf 4) (Buf 2) (Buf 1) ;;
           addWord (Buf 4) (Buf 4) (Buf 3)) (init_mem [a; b])
    (fun _ m' =>
       m' (Buf 4) = a /\
       Z.testbit (m' (Buf 2)) wordtopbit
         = xorb (Z.testbit a wordtopbit) (Z.testbit b wordtopbit) /\
       Z.testbit (m' (Buf 3)) wordtopbit = Z.testbit a wordtopbit).

(** The claim as the specification words it, on the word [w]: a left shift
    multiplies the two's-complement value by a power of two (read here in its
    weakest form, up to wrapping) and a right shift divides it. *)
Definition ashWord_claim (w : word) (count : Z) : Prop :=
  returns (ashWord (Buf 1) (Buf 0) count) (init_mem [w]) (fun _ m' =>
    if 0 <? count
    then sval (m' (Buf 1)) mod 2 ^ wordsize = (sval w * 2 ^ count) mod 2 ^ wordsize
    else sval (m' (Buf 1)) = sval w / 2 ^ (- count)).

(** ** Stores *)

Lemma upd_same m l v : upd m l v l = v.
Proof. unfold upd. destruct (loc_eq_dec l l); congruence. Qed.

Lemma upd_other m l v x : x <> l -> upd m l v x = m x.
Proof. unfold upd. destruct (loc_eq_dec x l); congruence. Qed.

Lemma valid_upd m l v : valid m -> valid_word v -> valid (upd m l v).
Proof.
  intros Hm Hv x. unfold upd. destruct (loc_eq_dec x l); auto.
Qed.

Lemma in_word_true i : 0 <= i <= wordtopbit -> in_word i = true.
Proof. unfold in_word. intros. apply andb_true_intro. split; lia. Qed.

Lemma testbit_put_bit w i v j :
  0 <= i ->
  Z.testbit (put_bit w i v) j = if j =? i then negb (v =? 0) else Z.testbit w j.
Proof.
  intros Hi. unfold put_bit.
  destruct (Z.ltb_spec j 0) as [Hj|Hj].
  - rewrite !Z.testbit_neg_r by lia. destruct (Z.eqb_spec j i); [lia | reflexivity].
  - destruct (v =? 0); cbn [negb].
    + rewrite Z.clearbit_eqb. rewrite (Z.eqb_sym i j).
      destruct (j =? i); cbn; [apply andb_false_r | apply andb_true_r].
    + rewrite Z.setbit_eqb by lia. rewrite (Z.eqb_sym i j).
      destruct (j =? i); reflexivity.
Qed.

Lemma valid_word_high w i : valid_word w -> wordsize <= i -> Z.testbit w i = false.
Proof.
  intros [H0 H1] Hi. destruct (Z.eq_dec w 0) as [->|Hn]; [apply Z.bits_0|].
  apply Z.bits_above_log2; [lia|].
  apply Z.log2_lt_pow2; [lia|].
  eapply Z.lt_le_trans; [exact H1|]. apply Z.pow_le_mono_r; lia.
Qed.

Lemma valid_word_of_bits w :
  0 <= w -> (forall i, wordsize <= i -> Z.testbit w i = false) -> valid_word w.
Proof.
  intros H0 Hb. split; [exact H0|].
  assert (E : w mod 2 ^ wordsize = w).
  { apply Z.bits_inj'. intros n Hn.
    destruct (Z.ltb_spec n wordsize).
    - apply Z.mod_pow2_bits_low; lia.
    - rewrite Z.mod_pow2_bits_high by (unfold wordsize in *; lia).
      symmetry. apply Hb. lia. }
  rewrite <- E. apply Z.mod_pos_bound. unfold wordsize. lia.
Qed.

Lemma put_bit_valid w i v :
  valid_word w -> 0 <= i <= wordtopbit -> valid_word (put_bit w i v).
Proof.
  intros Hw Hi. apply valid_word_of_bits.
  - unfold put_bit. destruct (v =? 0).
    + rewrite Z.clearbit_spec'. apply Z.ldiff_nonneg. left. apply Hw.
    + rewrite Z.setbit_spec'. apply Z.lor_nonneg. split; [apply Hw|].
      apply Z.pow_nonneg. lia.
  - intros j Hj. rewrite testbit_put_bit by lia.
    unfold wordtopbit in Hi. destruct (Z.eqb_spec j i); [lia|].
    apply valid_word_high; assumption.
Qed.

Lemma word_ext x y :
  valid_word x -> valid_word y ->
  (forall i, 0 <= i <= wordtopbit -> Z.testbit x i = Z.testbit y i) -> x = y.
Proof.
  intros Hx Hy Hb. apply Z.bits_inj'. intros n Hn.
  destruct (Z.ltb_spec n wordsize).
  - apply Hb. unfold wordtopbit. lia.
  - rewrite !valid_word_high by assumption. reflexivity.
Qed.

Lemma mod_valid z : valid_word (z mod 2 ^ wordsize).
Proof. apply Z.mod_pos_bound. unfold wordsize. lia. Qed.

(** ** The accessors, when the index is in the word *)

Lemma getBitOfWord_ok w i m :
  0 <= i <= wordtopbit ->
  getBitOfWord w i m = Done (Z.b2z (Z.testbit (m w) i), m).
Proof. intros H. unfold getBitOfWord. rewrite in_word_true by exact H. reflexivity. Qed.

Lemma setBitOfWord_ok w i v m :
  0 <= i <= wordtopbit ->
  setBitOfWord w i v m = Done (tt, upd m w (put_bit (m w) i v)).
Proof. intros H. unfold setBitOfWord. rewrite in_word_true by exact H. reflexivity. Qed.

Lemma bind_done {A B} (c : M A) (k : A -> M B) m a m' :
  c m = Done (a, m') -> bind c k m = k a m'.
Proof. intros E. unfold bind. rewrite E. reflexivity. Qed.

(** ** Loop rules: an invariant indexed by the loop variable *)

Section LoopRules.
Context {St : Type}.
Variable I : Z -> St -> mem -> Prop.
Variable body : Z -> St -> M St.

Lemma fold_down_n_rule n : forall b s m,
  I b s m ->
  (forall b' s m, b - Z.of_nat n < b' <= b -> I b' s m ->
     exists s' m', body b' s m = Done (s', m') /\ I (b' - 1) s' m') ->
  exists s' m', fold_down_n n b body s m = Done (s', m') /\ I (b - Z.of_nat n) s' m'.
Proof.
  induction n as [|n IH]; intros b s m Hi Hstep.
  - exists s, m. split; [reflexivity|]. replace (b - Z.of_nat 0) with b by lia. exact Hi.
  - destruct (Hstep b s m) as (s1 & m1 & E1 & H1); [lia | exact Hi |].
    destruct (IH (b - 1) s1 m1 H1) as (s2 & m2 & E2 & H2).
    { intros b' s0 m0 Hb. apply Hstep. lia. }
    exists s2, m2. split.
    + cbn [fold_down_n]. rewrite (bind_done _ _ _ _ _ E1). exact E2.
    + replace (b - Z.of_nat (S n)) with (b - 1 - Z.of_nat n) by lia. exact H2.
Qed.

Lemma fold_down_rule from to s m :
  to <= from + 1 ->
  I from s m ->
  (forall b s m, to <= b <= from -> I b s m ->
     exists s' m', body b s m = Done (s', m') /\ I (b - 1) s' m') ->
  exists s' m', fold_down from to body s m = Done (s', m') /\ I (to - 1) s' m'.
Proof.
  intros Hle Hi Hstep. unfold fold_down.
  destruct (fold_down_n_rule (Z.to_nat (from - to + 1)) from s m Hi) as (s' & m' & E & H).
  - intros b' s0 m0 Hb. apply Hstep. lia.
  - exists s', m'. split; [exact E|].
    replace (to - 1) with (from - Z.of_nat (Z.to_nat (from - to + 1))) by lia. exact H.
Qed.

Lemma fold_up_n_rule n : forall b s m,
  I b s m ->
  (forall b' s m, b <= b' < b + Z.of_nat n -> I b' s m ->
     exists s' m', body b' s m = Done (s', m') /\ I (b' + 1) s' m') ->
  exists s' m', fold_up_n n b body s m = Done (s', m') /\ I (b + Z.of_nat n) s' m'.
Proof.
  induction n as [|n IH]; intros b s m Hi Hstep.
  - exists s, m. split; [reflexivity|]. replace (b + Z.of_nat 0) with b by lia. exact Hi.
  - destruct (Hstep b s m) as (s1 & m1 & E1 & H1); [lia | exact Hi |].
    destruct (IH (b + 1) s1 m1 H1) as (s2 & m2 & E2 & H2).
    { intros b' s0 m0 Hb. apply Hstep. lia. }
    exists s2, m2. split.
    + cbn [fold_up_n]. rewrite (bind_done _ _ _ _ _ E1). exact E2.
    + replace (b + Z.of_nat (S n)) with (b + 1 + Z.of_nat n) by lia. exact H2.
Qed.

Lemma fold_up_rule from to s m :
  from <= to + 1 ->
  I from s m ->
  (forall b s m, from <= b <= to -> I b s m ->
     exists s' m', body b s m = Done (s', m') /\ I (b + 1) s' m') ->
  exists s' m', fold_up from to body s m = Done (s', m') /\ I (to + 1) s' m'.
Proof.
  intros Hle Hi Hstep. unfold fold_up.
  destruct (fold_up_n_rule (Z.to_nat (to - from + 1)) from s m Hi) as (s' & m' & E & H).
  - intros b' s0 m0 Hb. apply Hstep. lia.
  - exists s', m'. split; [exact E|].
    replace (to + 1) with (from + Z.of_nat (Z.to_nat (to - from + 1))) by lia. exact H.
Qed.
End LoopRules.

(** ** Specifications: a program returns, and its result satisfies [Q] *)

Lemma returns_ret {A} (a : A) m (Q : A -> mem -> Prop) : Q a m -> returns (ret a) m Q.
Proof. intros H. exists a, m. split; [reflexivity | exact H]. Qed.

Lemma returns_bind {A B} (c : M A) (k : A -> M B) m (Q : B -> mem -> Prop) :
  returns c m (fun a m' => returns (k a) m' Q) -> returns (bind c k) m Q.
Proof.
  intros (a & m1 & E1 & b & m2 & E2 & H). exists b, m2.
  split; [rewrite (bind_done _ _ _ _ _ E1); exact E2 | exact H].
Qed.

Lemma returns_weaken {A} (c : M A) m (Q Q' : A -> mem -> Prop) :
  returns c m Q -> (forall a m', Q a m' -> Q' a m') -> returns c m Q'.
Proof. intros (a & m' & E & H) HQ. exists a, m'. split; [exact E | apply HQ, H]. Qed.

Lemma returns_get w i m (Q : bit -> mem -> Prop) :
  0 <= i <= wordtopbit -> Q (Z.b2z (Z.testbit (m w) i)) m -> returns (getBitOfWord w i) m Q.
Proof. intros Hi H. eexists _, _. split; [apply getBitOfWord_ok, Hi | exact H]. Qed.

Lemma returns_set w i v m (Q : unit -> mem -> Prop) :
  0 <= i <= wordtopbit -> Q tt (upd m w (put_bit (m w) i v)) -> returns (setBitOfWord w i v) m Q.
Proof. intros Hi H. eexists _, _. split; [apply setBitOfWord_ok, Hi | exact H]. Qed.

Lemma returns_setWord dst src m (Q : unit -> mem -> Prop) :
  Q tt (upd m dst (m src)) -> returns (setWord dst src) m Q.
Proof. intros H. eexists _, _. split; [reflexivity | exact H]. Qed.

Lemma returns_fold_down {St} (I : Z -> St -> mem -> Prop) body from to (s : St) m :
  to <= from + 1 ->
  I from s m ->
  (forall b s m, to <= b <= from -> I b s m -> returns (body b s) m (I (b - 1))) ->
  returns (fold_down from to body s) m (I (to - 1)).
Proof. intros. apply fold_down_rule; assumption. Qed.

Lemma returns_fold_up {St} (I : Z -> St -> mem -> Prop) body from to (s : St) m :
  from <= to + 1 ->
  I from s m ->
  (forall b s m, from <= b <= to -> I b s m -> returns (body b s) m (I (b + 1))) ->
  returns (fold_up from to body s) m (I (to + 1)).
Proof. intros. apply fold_up_rule; assumption. Qed.

Lemma same_except_refl ls m : same_except ls m m.
Proof. intros x _. reflexivity. Qed.

Lemma same_except_trans ls m1 m2 m3 :
  same_except ls m1 m2 -> same_except ls m2 m3 -> same_except ls m1 m3.
Proof. intros H1 H2 x Hx. rewrite H2, H1 by exact Hx. reflexivity. Qed.

Lemma same_except_incl ls ls' m m' :
  incl ls ls' -> same_except ls m m' -> same_except ls' m m'.
Proof. intros Hi H x Hx. apply H. intros Hin. apply Hx, Hi, Hin. Qed.

Lemma same_except_upd ls m m' l v :
  In l ls -> same_except ls m m' -> same_except ls m (upd m' l v).
Proof.
  intros Hl H x Hx. rewrite upd_other; [apply H, Hx|].
  intros ->. apply Hx, Hl.
Qed.

(** ** Comparator *)

Lemma testbit_top_spec w : valid_word w -> Z.testbit w wordtopbit = (2 ^ wordtopbit <=? w).
Proof.
  intros [H0 H1]. unfold wordtopbit, wordsize in *.
  change (32 - 1) with 31.
  rewrite Z.testbit_odd, Z.shiftr_div_pow2 by lia.
  change (2 ^ 32) with (2 * 2 ^ 31) in H1.
  destruct (Z.leb_spec (2 ^ 31) w) as [Hc|Hc].
  - replace (w / 2 ^ 31) with 1; [reflexivity|].
    apply Z.div_unique with (r := w - 2 ^ 31); lia.
  - rewrite Z.div_small by lia. reflexivity.
Qed.

Lemma b2z_eqb_1 (b : bool) : (Z.b2z b =? 1) = b.
Proof. destruct b; reflexivity. Qed.

Lemma b2z_eqb_0 (b : bool) : (Z.b2z b =? 0) = negb b.
Proof. destruct b; reflexivity. Qed.

Lemma testLtWord_spec op m :
  returns (testLtWord op) m (fun b m' => m' = m /\ b = Z.testbit (m op) wordtopbit).
Proof.
  unfold testLtWord. apply returns_bind, returns_get; [unfold wordtopbit, wordsize; lia|].
  rewrite b2z_eqb_1. change 31 with wordtopbit.
  destruct (Z.testbit (m op) wordtopbit); apply returns_ret; auto.
Qed.

Lemma testGeWord_spec op m :
  returns (testGeWord op) m (fun b m' => m' = m /\ b = negb (Z.testbit (m op) wordtopbit)).
Proof.
  unfold testGeWord. apply returns_bind, returns_get; [unfold wordtopbit, wordsize; lia|].
  rewrite b2z_eqb_1. change 31 with wordtopbit.
  destruct (Z.testbit (m op) wordtopbit); apply returns_ret; auto.
Qed.

Lemma testEqWord_loop_spec op m n : forall b,
  valid_word (m op) -> 0 <= b -> b + Z.of_nat n = wordsize ->
  (forall i, 0 <= i < b -> Z.testbit (m op) i = false) ->
  returns (testEqWord_loop n b op) m (fun z m' => m' = m /\ z = (m op =? 0)).
Proof.
  induction n as [|n IH]; intros b Hv Hb Hn Hlow.
  - apply returns_ret. split; [reflexivity|].
    assert (E : m op = 0).
    { apply word_ext; [exact Hv | unfold valid_word, wordsize; lia |].
      intros i Hi. rewrite Z.bits_0. apply Hlow. unfold wordtopbit in Hi. lia. }
    rewrite E. reflexivity.
  - cbn [testEqWord_loop]. apply returns_bind, returns_get; [unfold wordtopbit; lia|].
    rewrite b2z_eqb_0, negb_involutive.
    destruct (Z.testbit (m op) b) eqn:Eb.
    + apply returns_ret. split; [reflexivity|].
      destruct (Z.eqb_spec (m op) 0) as [E|E]; [|reflexivity].
      rewrite E, Z.bits_0 in Eb. discriminate.
    + apply IH; [exact Hv | lia | lia |].
      intros i Hi. destruct (Z.eq_dec i b) as [->|]; [exact Eb | apply Hlow; lia].
Qed.

Lemma testEqWord_spec op m :
  valid m ->
  returns (testEqWord op) m (fun z m' => m' = m /\ z = (m op =? 0)).
Proof.
  intros Hv. unfold testEqWord. apply testEqWord_loop_spec.
  - apply Hv.
  - lia.
  - unfold wordtopbit, wordsize. reflexivity.
  - intros i Hi. lia.
Qed.

(** ** Loops that write one bit per index, lowest first

    [partial r T k m m']: [m'] is [m] with the bits below [k] of buffer [r]
    replaced by those of [T].  Such a loop reads index [k] before it writes
    index [k], so an operand that is the result buffer itself is still read
    as it was. *)

Lemma partial_start r T m : valid m -> partial r T 0 m m.
Proof.
  intros Hv. split; [exact Hv|]. split; [apply same_except_refl|].
  intros i Hi. destruct (Z.ltb_spec i 0); [lia | reflexivity].
Qed.

Lemma partial_read r T k m m' a :
  partial r T k m m' -> 0 <= k <= wordtopbit ->
  Z.testbit (m' a) k = Z.testbit (m a) k.
Proof.
  intros (_ & Hs & Hb) Hk. destruct (loc_eq_dec a r) as [->|Hn].
  - rewrite Hb by exact Hk. rewrite Z.ltb_irrefl. reflexivity.
  - rewrite Hs; [reflexivity|]. intros [E|[]]. congruence.
Qed.

Lemma partial_step r T k m m' v :
  partial r T k m m' -> 0 <= k <= wordtopbit ->
  v = Z.b2z (Z.testbit T k) ->
  partial r T (k + 1) m (upd m' r (put_bit (m' r) k v)).
Proof.
  intros (Hv & Hs & Hb) Hk ->. split; [|split].
  - apply valid_upd; [exact Hv|]. apply put_bit_valid; [apply Hv | exact Hk].
  - apply same_except_upd; [left; reflexivity | exact Hs].
  - intros i Hi. rewrite upd_same, testbit_put_bit by lia.
    rewrite b2z_eqb_0, negb_involutive.
    destruct (Z.eqb_spec i k) as [->|Hne].
    + destruct (Z.ltb_spec k (k + 1)); [reflexivity | lia].
    + rewrite Hb by exact Hi.
      destruct (Z.ltb_spec i k), (Z.ltb_spec i (k + 1)); try reflexivity; lia.
Qed.

Lemma partial_end r T m m' :
  partial r T (wordtopbit + 1) m m' -> valid_word T ->
  valid m' /\ m' r = T /\ same_except [r] m m'.
Proof.
  intros (Hv & Hs & Hb) HT. split; [exact Hv|]. split; [|exact Hs].
  apply word_ext; [apply Hv | exact HT |].
  intros i Hi. rewrite Hb by exact Hi.
  destruct (Z.ltb_spec i (wordtopbit + 1)); [reflexivity | lia].
Qed.

(** The bits of the complement of a word. *)
Lemma testbit_complement w i :
  0 <= i <= wordtopbit ->
  Z.testbit (2 ^ wordsize - 1 - w) i = negb (Z.testbit w i).
Proof.
  intros Hi. unfold wordtopbit in Hi.
  replace (2 ^ wordsize - 1 - w) with (Z.lnot w + 1 * 2 ^ wordsize)
    by (unfold Z.lnot; lia).
  rewrite <- (Z.mod_pow2_bits_low _ wordsize) by lia.
  rewrite Z.mod_add by (unfold wordsize; lia).
  rewrite Z.mod_pow2_bits_low by lia.
  apply Z.lnot_spec. lia.
Qed.

Lemma complement_valid w : valid_word w -> valid_word (2 ^ wordsize - 1 - w).
Proof. unfold valid_word. lia. Qed.

Lemma notBit_b2z (b : bool) : notBit (Z.b2z b) = Z.b2z (negb b).
Proof. destruct b; reflexivity. Qed.

Lemma notWord_spec r op m :
  valid m ->
  returns (notWord r op) m (fun _ m' =>
    valid m' /\ m' r = 2 ^ wordsize - 1 - m op /\ same_except [r] m m').
Proof.
  intros Hv. unfold notWord, for_up.
  eapply returns_weaken.
  - apply (returns_fold_up (fun k _ m' => partial r (2 ^ wordsize - 1 - m op) k m m')).
    + unfold wordtopbit, wordsize. lia.
    + apply partial_start, Hv.
    + intros b u m1 Hb Hp.
      apply returns_bind, returns_get; [exact Hb|].
      apply returns_set; [exact Hb|].
      apply partial_step; [exact Hp | exact Hb |].
      rewrite notBit_b2z, (partial_read _ _ _ _ _ _ Hp Hb), testbit_complement by exact Hb.
      reflexivity.
  - intros u m' Hp. apply partial_end; [exact Hp|]. apply complement_valid, Hv.
Qed.

(** The loop shared by andWord, orWord and xorWord: [f] combines the two
    bits, [T] is the word that has the resulting bits. *)
Lemma bitwise_spec (f : bit -> bit -> bit) (g : bool -> bool -> bool) T r a b m :
  valid m -> valid_word T ->
  (forall x y, f (Z.b2z x) (Z.b2z y) = Z.b2z (g x y)) ->
  (forall i, 0 <= i <= wordtopbit ->
     Z.testbit T i = g (Z.testbit (m a) i) (Z.testbit (m b) i)) ->
  returns
    (for_up 0 wordtopbit (fun k =>
       t1 <- getBitOfWord a k ;;
       t2 <- getBitOfWord b k ;;
       setBitOfWord r k (f t1 t2))) m
    (fun _ m' => valid m' /\ m' r = T /\ same_except [r] m m').
Proof.
  intros Hv HT Hf Hbits. unfold for_up.
  eapply returns_weaken.
  - apply (returns_fold_up (fun k (_ : unit) m' => partial r T k m m')).
    + unfold wordtopbit, wordsize. lia.
    + apply partial_start, Hv.
    + intros k u m1 Hk Hp.
      apply returns_bind, returns_get; [exact Hk|].
      apply returns_bind, returns_get; [exact Hk|].
      apply returns_set; [exact Hk|].
      apply partial_step; [exact Hp | exact Hk |].
      rewrite !(partial_read _ _ _ _ _ _ Hp Hk), Hf, Hbits by exact Hk. reflexivity.
  - intros u m' Hp. apply partial_end; [exact Hp | exact HT].
Qed.

Lemma andWord_spec r a b m :
  valid m ->
  returns (andWord r a b) m (fun _ m' =>
    valid m' /\ m' r = Z.land (m a) (m b) /\ same_except [r] m m').
Proof.
  intros Hv. apply (bitwise_spec Z.land andb); try assumption.
  - apply valid_word_of_bits.
    + apply Z.land_nonneg. left. apply Hv.
    + intros i Hi. rewrite Z.land_spec, (valid_word_high (m a)); [reflexivity | apply Hv | exact Hi].
  - intros [|] [|]; reflexivity.
  - intros i _. apply Z.land_spec.
Qed.

Lemma orWord_spec r a b m :
  valid m ->
  returns (orWord r a b) m (fun _ m' =>
    valid m' /\ m' r = Z.lor (m a) (m b) /\ same_except [r] m m').
Proof.
  intros Hv. apply (bitwise_spec Z.lor orb); try assumption.
  - apply valid_word_of_bits.
    + apply Z.lor_nonneg. split; apply Hv.
    + intros i Hi. rewrite Z.lor_spec, !valid_word_high; [reflexivity | apply Hv | exact Hi | apply Hv | exact Hi].
  - intros [|] [|]; reflexivity.
  - intros i _. apply Z.lor_spec.
Qed.

Lemma xorWord_spec r a b m :
  valid m ->
  returns (xorWord r a b) m (fun _ m' =>
    valid m' /\ m' r = Z.lxor (m a) (m b) /\ same_except [r] m m').
Proof.
  intros Hv. apply (bitwise_spec Z.lxor xorb); try assumption.
  - apply valid_word_of_bits.
    + apply Z.lxor_nonneg. pose proof (Hv a) as [Ha _]. pose proof (Hv b) as [Hb _].
      split; intros _; assumption.
    + intros i Hi. rewrite Z.lxor_spec, !valid_word_high; [reflexivity | apply Hv | exact Hi | apply Hv | exact Hi].
  - intros [|] [|]; reflexivity.
  - intros i _. apply Z.lxor_spec.
Qed.

(** ** Adder and subtractor *)

Lemma mod_pow2_succ x k :
  0 <= k -> x mod 2 ^ (k + 1) = x mod 2 ^ k + 2 ^ k * Z.b2z (Z.testbit x k).
Proof.
  intros Hk. rewrite Z.pow_add_r, Z.pow_1_r by lia.
  rewrite Z.rem_mul_r by lia. rewrite Z.testbit_spec' by lia. reflexivity.
Qed.

(** One position of the ripple-carry adder: the sum of the two operand bits
    and the incoming carry gives the result bit (its low bit) and the outgoing
    carry (its high bit). *)
Lemma full_adder x y cin k :
  0 <= k ->
  let r := Z.b2z (Z.testbit x k) + Z.b2z (Z.testbit y k) + carry_into x y cin k in
  Z.b2z (Z.testbit (x + y + cin) k) = r mod 2 /\ carry_into x y cin (k + 1) = r / 2.
Proof.
  intros Hk r. subst r. unfold carry_into.
  assert (HP : 0 < 2 ^ k) by (apply Z.pow_pos_nonneg; lia).
  split.
  - rewrite !Z.testbit_spec' by lia.
    set (P := 2 ^ k) in *.
    replace (x + y + cin) with (x mod P + y mod P + cin + (x / P + y / P) * P).
    2:{ pose proof (Z.div_mod x P). pose proof (Z.div_mod y P). lia. }
    rewrite Z.div_add by lia.
    set (c := (x mod P + y mod P + cin) / P). set (a := x / P). set (b := y / P).
    clearbody c a b. Z.div_mod_to_equations. lia.
  - rewrite !mod_pow2_succ by lia.
    rewrite Z.pow_add_r, Z.pow_1_r by lia.
    rewrite <- Z.div_div by lia.
    set (P := 2 ^ k) in *.
    replace (x mod P + P * Z.b2z (Z.testbit x k) + (y mod P + P * Z.b2z (Z.testbit y k)) + cin)
      with (x mod P + y mod P + cin + (Z.b2z (Z.testbit x k) + Z.b2z (Z.testbit y k)) * P) by lia.
    rewrite Z.div_add by lia. f_equal. lia.
Qed.

Lemma toBit_mod r : toBit r = r mod 2.
Proof.
  unfold toBit. change (Z.land r 1) with (Z.land r (Z.ones 1)).
  rewrite Z.land_ones by lia. reflexivity.
Qed.

(** The loop shared by addWord and subWord: [g] is what is done to the bit of
    the second operand before it is added (nothing, or notBit), and [Y] is
    the word that has the resulting bits. *)
Lemma ripple_spec (g : bit -> bit) r a b cin Y m :
  valid m ->
  (forall i, 0 <= i <= wordtopbit -> g (Z.b2z (Z.testbit (m b) i)) = Z.b2z (Z.testbit Y i)) ->
  returns
    (fold_up 0 wordtopbit (fun k carry =>
       x <- getBitOfWord a k ;;
       y <- getBitOfWord b k ;;
       let r0 := x + g y + carry in
       setBitOfWord r k (toBit r0) ;;
       ret (Z.shiftr r0 1)) cin) m
    (fun _ m' => valid m' /\ m' r = (m a + Y + cin) mod 2 ^ wordsize /\ same_except [r] m m').
Proof.
  intros Hv Hg.
  set (T := (m a + Y + cin) mod 2 ^ wordsize).
  eapply returns_weaken.
  - apply (returns_fold_up
             (fun k carry m' => partial r T k m m' /\ carry = carry_into (m a) Y cin k)).
    + unfold wordtopbit, wordsize. lia.
    + split; [apply partial_start, Hv|].
      unfold carry_into. rewrite Z.pow_0_r, !Z.mod_1_r, Z.div_1_r. reflexivity.
    + intros k carry m1 Hk [Hp Hc].
      apply returns_bind, returns_get; [exact Hk|].
      apply returns_bind, returns_get; [exact Hk|].
      cbv zeta. apply returns_bind, returns_set; [exact Hk|].
      apply returns_ret.
      rewrite !(partial_read _ _ _ _ _ _ Hp Hk), Hg, Hc by exact Hk.
      destruct (full_adder (m a) Y cin k) as [Hbit Hcarry]; [lia|].
      split.
      * apply partial_step; [exact Hp | exact Hk |].
        rewrite toBit_mod, <- Hbit. unfold T.
        rewrite Z.mod_pow2_bits_low by (unfold wordtopbit in Hk; lia). reflexivity.
      * rewrite Hcarry, Z.shiftr_div_pow2 by lia. reflexivity.
  - intros carry m' [Hp _]. apply partial_end; [exact Hp | apply mod_valid].
Qed.

Lemma addWord_spec r a b m :
  valid m ->
  returns (addWord r a b) m (fun _ m' =>
    valid m' /\ m' r = (m a + m b) mod 2 ^ wordsize /\ same_except [r] m m').
Proof.
  intros Hv. unfold addWord. apply returns_bind.
  eapply returns_weaken.
  - apply (ripple_spec (fun y => y) r a b 0 (m b) m Hv). intros i _. reflexivity.
  - intros carry m' H. apply returns_ret. rewrite Z.add_0_r in H. exact H.
Qed.

Lemma subWord_spec r a b m :
  valid m ->
  returns (subWord r a b) m (fun _ m' =>
    valid m' /\ m' r = (m a - m b) mod 2 ^ wordsize /\ same_except [r] m m').
Proof.
  intros Hv. unfold subWord. apply returns_bind.
  eapply returns_weaken.
  - apply (ripple_spec notBit r a b 1 (2 ^ wordsize - 1 - m b) m Hv).
    intros i Hi. rewrite notBit_b2z, testbit_complement by exact Hi. reflexivity.
  - intros carry m' (H1 & H2 & H3). apply returns_ret.
    split; [exact H1|]. split; [|exact H3]. rewrite H2.
    replace (m a + (2 ^ wordsize - 1 - m b) + 1) with (m a - m b + 1 * 2 ^ wordsize) by lia.
    apply Z.mod_add. unfold wordsize. lia.
Qed.

Lemma negativeWord_spec r op m :
  valid m -> m zeroWord = 0 ->
  returns (negativeWord r op) m (fun _ m' =>
    valid m' /\ m' r = (- m op) mod 2 ^ wordsize /\ same_except [r] m m').
Proof.
  intros Hv Hz. unfold negativeWord. eapply returns_weaken; [apply subWord_spec, Hv|].
  intros u m' H. cbv beta in H. rewrite Hz in H. exact H.
Qed.

(** ** Loops that write one bit per index from values fixed beforehand

    The loops of the shift unit read a private copy of the operand and write
    the result buffer: whatever the result buffer aliases, the values
    written are known before the loop starts. *)

Lemma write_down_spec r (f : Z -> Z) (v : Z -> bit) body from to m :
  valid m -> to <= from + 1 ->
  (forall b, to <= b <= from -> 0 <= f b <= wordtopbit) ->
  (forall b1 b2, to <= b1 <= from -> to <= b2 <= from -> f b1 = f b2 -> b1 = b2) ->
  (forall b m', to <= b <= from -> same_except [r] m m' ->
     body b m' = setBitOfWord r (f b) (v b) m') ->
  returns (for_down from to body) m (fun _ m' =>
    valid m' /\ same_except [r] m m' /\
    (forall b, to <= b <= from -> Z.testbit (m' r) (f b) = negb (v b =? 0)) /\
    (forall i, (forall b, to <= b <= from -> f b <> i) ->
       Z.testbit (m' r) i = Z.testbit (m r) i)).
Proof.
  intros Hv Hle Hf Hinj Hbody. unfold for_down.
  eapply returns_weaken.
  - apply (returns_fold_down (fun k (_ : unit) m' =>
      valid m' /\ same_except [r] m m' /\
      (forall b, k < b <= from -> Z.testbit (m' r) (f b) = negb (v b =? 0)) /\
      (forall i, (forall b, k < b <= from -> f b <> i) ->
         Z.testbit (m' r) i = Z.testbit (m r) i))).
    + exact Hle.
    + split; [exact Hv|]. split; [apply same_except_refl|]. split.
      * intros b Hb. lia.
      * intros i _. reflexivity.
    + intros b u m1 Hb (Hv1 & Hs1 & Hw1 & Hk1).
      exists tt, (upd m1 r (put_bit (m1 r) (f b) (v b))). split.
      { rewrite Hbody by assumption. apply setBitOfWord_ok, Hf, Hb. }
      pose proof (Hf b Hb) as Hfb.
      split; [|split; [|split]].
      * apply valid_upd; [exact Hv1|]. apply put_bit_valid; [apply Hv1 | exact Hfb].
      * apply same_except_upd; [left; reflexivity | exact Hs1].
      * intros b' Hb'. rewrite upd_same, testbit_put_bit by lia.
        destruct (Z.eqb_spec (f b') (f b)) as [E|E].
        -- apply Hinj in E; [|lia|lia]. subst b'. reflexivity.
        -- apply Hw1. assert (b' <> b) by congruence. lia.
      * intros i Hi. rewrite upd_same, testbit_put_bit by lia.
        destruct (Z.eqb_spec i (f b)) as [E|E].
        -- exfalso. apply (Hi b); [lia | congruence].
        -- apply Hk1. intros b' Hb'. apply Hi. lia.
  - intros u m' (Hv1 & Hs1 & Hw1 & Hk1).
    split; [exact Hv1|]. split; [exact Hs1|]. split.
    + intros b Hb. apply Hw1. lia.
    + intros i Hi. apply Hk1. intros b Hb. apply Hi. lia.
Qed.

(** Copying one bit of a buffer the loop does not write. *)
Lemma copy_body_eq src r g f m m' :
  src <> r -> 0 <= g <= wordtopbit -> same_except [r] m m' ->
  (t <- getBitOfWord src g ;; setBitOfWord r f t) m'
  = setBitOfWord r f (Z.b2z (Z.testbit (m src) g)) m'.
Proof.
  intros Hn Hg Hs. rewrite (bind_done _ _ _ _ _ (getBitOfWord_ok src g m' Hg)).
  rewrite (Hs src); [reflexivity|]. intros [E|[]]. congruence.
Qed.

(** ** Shift unit *)

Lemma clamp_shift_range count : 0 <= clamp_shift count <= wordtopbit.
Proof.
  unfold clamp_shift, abs, wordtopbit, wordsize. cbv zeta.
  destruct (Z.geb_spec (Z.abs count) 32); lia.
Qed.

Lemma shiftr_valid w c : valid_word w -> 0 <= c -> valid_word (Z.shiftr w c).
Proof.
  intros [H0 H1] Hc. rewrite Z.shiftr_div_pow2 by exact Hc.
  assert (HP : 0 < 2 ^ c) by (apply Z.pow_pos_nonneg; lia).
  split; [apply Z.div_pos; lia|].
  apply Z.div_lt_upper_bound; [exact HP|]. nia.
Qed.

Lemma lshWord_spec r op count m :
  valid m -> r <> lsh_localop ->
  returns (lshWord r op count) m (fun _ m' =>
    valid m' /\
    m' r = (if count <? 0 then Z.shiftr (m op) (clamp_shift count)
            else Z.shiftl (m op) (clamp_shift count) mod 2 ^ wordsize) /\
    same_except [r; lsh_localop] m m').
Proof.
  intros Hv Hr. unfold lshWord. cbv zeta. fold (clamp_shift count).
  pose proof (clamp_shift_range count) as Hc. set (c := clamp_shift count) in *.
  apply returns_bind, returns_setWord.
  set (m1 := upd m lsh_localop (m op)).
  assert (Hv1 : valid m1) by (apply valid_upd; [exact Hv | apply Hv]).
  assert (Hl : m1 lsh_localop = m op) by apply upd_same.
  assert (Hs01 : same_except [r; lsh_localop] m m1).
  { intros x Hx. apply upd_other. intros ->. apply Hx. right. left. reflexivity. }
  assert (Hfin : forall m2 m3, same_except [r] m1 m2 -> same_except [r] m2 m3 ->
                               same_except [r; lsh_localop] m m3).
  { intros m2 m3 H2 H3. eapply same_except_trans; [exact Hs01|].
    eapply same_except_incl; [|eapply same_except_trans; [exact H2 | exact H3]].
    intros x [<-|[]]. left. reflexivity. }
  destruct (count <? 0).
  - apply returns_bind. eapply returns_weaken.
    { apply (write_down_spec r (fun b => b - c) (fun b => Z.b2z (Z.testbit (m op) b))
               _ wordtopbit c m1 Hv1); try lia.
      intros b m' Hb Hs. rewrite <- Hl. apply copy_body_eq; [congruence | lia | exact Hs]. }
    intros u m2 (Hv2 & Hs2 & Hw2 & Hk2).
    eapply returns_weaken.
    { apply (write_down_spec r (fun b => wordtopbit - b) (fun _ => 0)
               _ (c - 1) 0 m2 Hv2); try lia.
      intros b m' Hb Hs. reflexivity. }
    intros u' m3 (Hv3 & Hs3 & Hw3 & Hk3).
    split; [exact Hv3|]. split; [|exact (Hfin _ _ Hs2 Hs3)].
    apply word_ext; [apply Hv3 | |].
    { apply shiftr_valid; [apply Hv | lia]. }
    intros i Hi. rewrite Z.shiftr_spec by lia.
    destruct (Z.le_gt_cases i (wordtopbit - c)) as [Hlo|Hhi].
    + rewrite Hk3 by (intros b Hb; lia).
      replace i with ((i + c) - c) at 1 by lia.
      rewrite (Hw2 (i + c)) by lia. rewrite b2z_eqb_0, negb_involutive. reflexivity.
    + replace i with (wordtopbit - (wordtopbit - i)) at 1 by lia.
      rewrite (Hw3 (wordtopbit - i)) by lia.
      symmetry. apply valid_word_high; [apply Hv | unfold wordtopbit in *; lia].
  - apply returns_bind. eapply returns_weaken.
    { apply (write_down_spec r (fun b => b) (fun b => Z.b2z (Z.testbit (m op) (b - c)))
               _ wordtopbit c m1 Hv1); try lia.
      intros b m' Hb Hs. rewrite <- Hl. apply copy_body_eq; [congruence | lia | exact Hs]. }
    intros u m2 (Hv2 & Hs2 & Hw2 & Hk2).
    eapply returns_weaken.
    { apply (write_down_spec r (fun b => b) (fun _ => 0)
               _ (c - 1) 0 m2 Hv2); try lia.
      intros b m' Hb Hs. reflexivity. }
    intros u' m3 (Hv3 & Hs3 & Hw3 & Hk3).
    split; [exact Hv3|]. split; [|exact (Hfin _ _ Hs2 Hs3)].
    apply word_ext; [apply Hv3 | apply mod_valid |].
    intros i Hi. rewrite Z.mod_pow2_bits_low by (unfold wordtopbit in Hi; lia).
    rewrite Z.shiftl_spec by lia.
    destruct (Z.le_gt_cases c i) as [Hhi|Hlo].
    + rewrite Hk3 by (intros b Hb; lia).
      rewrite (Hw2 i) by lia. rewrite b2z_eqb_0, negb_involutive. reflexivity.
    + rewrite (Hw3 i) by lia. rewrite Z.testbit_neg_r by lia. reflexivity.
Qed.

Lemma ashWord_spec r op count m :
  valid m -> r <> ash_localop ->
  returns (ashWord r op count) m (fun _ m' =>
    valid m' /\
    (forall i, 0 <= i <= wordtopbit -> Z.testbit (m' r) i = ash_bit (m op) count i) /\
    same_except [r; ash_localop] m m').
Proof.
  intros Hv Hr. unfold ashWord. cbv zeta. fold (clamp_shift count).
  pose proof (clamp_shift_range count) as Hc.
  unfold ash_bit. cbv zeta. set (c := clamp_shift count) in *.
  apply returns_bind, returns_setWord.
  set (m1 := upd m ash_localop (m op)).
  assert (Hv1 : valid m1) by (apply valid_upd; [exact Hv | apply Hv]).
  assert (Hl : m1 ash_localop = m op) by apply upd_same.
  assert (Hs01 : same_except [r; ash_localop] m m1).
  { intros x Hx. apply upd_other. intros ->. apply Hx. right. left. reflexivity. }
  assert (Hfin : forall m2 m3 v, same_except [r] m1 m2 -> same_except [r] m2 m3 ->
                                 same_except [r; ash_localop] m (upd m3 r v)).
  { intros m2 m3 v H2 H3. apply same_except_upd; [left; reflexivity|].
    eapply same_except_trans; [exact Hs01|].
    eapply same_except_incl; [|eapply same_except_trans; [exact H2 | exact H3]].
    intros x [<-|[]]. left. reflexivity. }
  assert (Htop : 0 <= wordtopbit <= wordtopbit) by (unfold wordtopbit, wordsize; lia).
  apply returns_bind, returns_get; [exact Htop|]. rewrite Hl.
  set (sign := Z.b2z (Z.testbit (m op) wordtopbit)).
  assert (Hsign : negb (sign =? 0) = Z.testbit (m op) wordtopbit).
  { unfold sign. rewrite b2z_eqb_0. apply negb_involutive. }
  apply returns_bind.
  destruct (count <? 0).
  - apply returns_bind. eapply returns_weaken.
    { apply (write_down_spec r (fun b => b - c) (fun b => Z.b2z (Z.testbit (m op) b))
               _ (wordtopbit - 1) c m1 Hv1); try lia.
      intros b m' Hb Hs. rewrite <- Hl. apply copy_body_eq; [congruence | lia | exact Hs]. }
    intros u m2 (Hv2 & Hs2 & Hw2 & Hk2).
    eapply returns_weaken.
    { apply (write_down_spec r (fun b => wordtopbit - b) (fun _ => sign)
               _ c 1 m2 Hv2); try lia.
      intros b m' Hb Hs. reflexivity. }
    intros u' m3 (Hv3 & Hs3 & Hw3 & Hk3).
    apply returns_set; [exact Htop|].
    split; [|split; [|exact (Hfin _ _ _ Hs2 Hs3)]].
    { apply valid_upd; [exact Hv3|]. apply put_bit_valid; [apply Hv3 | exact Htop]. }
    intros i Hi. rewrite upd_same, testbit_put_bit by lia.
    destruct (Z.eqb_spec i wordtopbit) as [E|E]; [exact Hsign|].
    destruct (Z.leb_spec i (wordtopbit - 1 - c)) as [Hlo|Hhi].
    + rewrite Hk3 by (intros b Hb; lia).
      replace i with ((i + c) - c) at 1 by lia.
      rewrite (Hw2 (i + c)) by lia. rewrite b2z_eqb_0, negb_involutive. reflexivity.
    + replace i with (wordtopbit - (wordtopbit - i)) at 1 by lia.
      rewrite (Hw3 (wordtopbit - i)) by lia. exact Hsign.
  - apply returns_bind. eapply returns_weaken.
    { apply (write_down_spec r (fun b => b) (fun b => Z.b2z (Z.testbit (m op) (b - c)))
               _ (wordtopbit - 1) c m1 Hv1); try lia.
      intros b m' Hb Hs. rewrite <- Hl. apply copy_body_eq; [congruence | lia | exact Hs]. }
    intros u m2 (Hv2 & Hs2 & Hw2 & Hk2).
    eapply returns_weaken.
    { apply (write_down_spec r (fun b => b) (fun _ => 0)
               _ (c - 1) 0 m2 Hv2); try lia.
      intros b m' Hb Hs. reflexivity. }
    intros u' m3 (Hv3 & Hs3 & Hw3 & Hk3).
    apply returns_set; [exact Htop|].
    split; [|split; [|exact (Hfin _ _ _ Hs2 Hs3)]].
    { apply valid_upd; [exact Hv3|]. apply put_bit_valid; [apply Hv3 | exact Htop]. }
    intros i Hi. rewrite upd_same, testbit_put_bit by lia.
    destruct (Z.eqb_spec i wordtopbit) as [E|E]; [exact Hsign|].
    destruct (Z.ltb_spec i c) as [Hlo|Hhi].
    + rewrite (Hw3 i) by lia. reflexivity.
    + rewrite Hk3 by (intros b Hb; lia).
      rewrite (Hw2 i) by lia. rewrite b2z_eqb_0, negb_involutive. reflexivity.
Qed.

(** maskWord clamps its count to [wordsize]: every index it uses is in the
    word, whatever the count and whatever the buffers alias. *)
Lemma maskWord_in_range r op count m :
  int_count count ->
  returns (maskWord r op count) m (fun _ _ => True).
Proof.
  intros _. unfold maskWord. cbv zeta.
  set (c := if abs count >? wordsize then wordsize else abs count).
  assert (Hc : 0 <= c <= wordsize).
  { unfold c, abs, wordsize. destruct (Z.gtb_spec (Z.abs count) 32); lia. }
  clearbody c. unfold wordtopbit, wordsize in *.
  destruct (count <? 0).
  - apply returns_bind. eapply returns_weaken.
    { unfold for_down. apply (returns_fold_down (fun _ (_ : unit) _ => True)); [lia | exact I |].
      intros b u m1 Hb _.
      apply returns_bind, returns_get; [unfold wordtopbit, wordsize; lia|].
      apply returns_set; [unfold wordtopbit, wordsize; lia | exact I]. }
    intros u m1 _. eapply returns_weaken.
    { unfold for_down. apply (returns_fold_down (fun _ (_ : unit) _ => True)); [lia | exact I |].
      intros b u' m2 Hb _.
      apply returns_set; [unfold wordtopbit, wordsize; lia | exact I]. }
    auto.
  - apply returns_bind. eapply returns_weaken.
    { unfold for_up. apply (returns_fold_up (fun _ (_ : unit) _ => True)); [lia | exact I |].
      intros b u m1 Hb _.
      apply returns_bind, returns_get; [unfold wordtopbit, wordsize; lia|].
      apply returns_set; [unfold wordtopbit, wordsize; lia | exact I]. }
    intros u m1 _. eapply returns_weaken.
    { unfold for_up. apply (returns_fold_up (fun _ (_ : unit) _ => True)); [lia | exact I |].
      intros b u' m2 Hb _.
      apply returns_set; [unfold wordtopbit, wordsize; lia | exact I]. }
    auto.
Qed.

(** ** The while loop: an invariant indexed by a bound on the iterations left *)

Lemma returns_while (I : nat -> mem -> Prop) (Q : mem -> Prop)
    (cond : M bool) (body : M unit) :
  (forall n m, I n m ->
     returns cond m (fun (c : bool) m' => m' = m /\
       if c then exists n', n = S n' /\ returns body m (fun _ m'' => I n' m'')
       else Q m)) ->
  forall fuel n m, (n <= fuel)%nat -> I n m ->
    returns (while fuel cond body) m (fun _ m' => Q m').
Proof.
  intros Hstep. induction fuel as [|fuel IH]; intros n m Hn Hi.
  - cbn [while]. apply returns_bind. eapply returns_weaken; [apply (Hstep n m Hi)|].
    intros [|] m' [-> H]; cbv beta iota in *.
    + destruct H as (n' & E & _). lia.
    + apply returns_ret, H.
  - cbn [while]. apply returns_bind. eapply returns_weaken; [apply (Hstep n m Hi)|].
    intros [|] m' [-> H]; cbv beta iota in *.
    + destruct H as (n' & E & Hb). apply returns_bind.
      eapply returns_weaken; [exact Hb|].
      intros u m'' Hi'. apply (IH n'); [lia | exact Hi'].
    + apply returns_ret, H.
Qed.

Ltac notin := cbn [In] in *; intuition congruence.

(** ** Multiplier *)

(** notWord followed by adding one, as mulWord negates. *)
Lemma not_add_one_spec l one m :
  valid m -> m one = 1 -> l <> one ->
  returns (notWord l l ;; addWord l l one) m (fun _ m' =>
    valid m' /\ m' l = (- m l) mod 2 ^ wordsize /\ same_except [l] m m').
Proof.
  intros Hv H1 Hn. apply returns_bind.
  eapply returns_weaken; [apply notWord_spec, Hv|].
  intros u m1 (Hv1 & E1 & Hs1).
  eapply returns_weaken; [apply addWord_spec, Hv1|].
  intros u' m2 (Hv2 & E2 & Hs2).
  split; [exact Hv2|]. split; [|eapply same_except_trans; eassumption].
  rewrite E2, E1, (Hs1 one), H1 by notin.
  replace (2 ^ wordsize - 1 - m l + 1) with (- m l + 1 * 2 ^ wordsize) by lia.
  apply Z.mod_add. unfold wordsize. lia.
Qed.

Lemma opp_mod_idemp x n : n <> 0 -> (- (x mod n)) mod n = (- x) mod n.
Proof.
  intros Hn. rewrite (Z.mod_eq x n) by exact Hn.
  replace (- (x - n * (x / n))) with (- x + (x / n) * n) by lia.
  apply Z.mod_add, Hn.
Qed.

Lemma mul_body_spec r m :
  valid m ->
  returns
    (t <- getBitOfWord mul_localop2 0 ;;
     (if negb (t =? 0) then addWord (Buf r) (Buf r) mul_localop1 else ret tt) ;;
     lshWord mul_localop1 mul_localop1 1 ;;
     lshWord mul_localop2 mul_localop2 (-1)) m
    (fun _ m' =>
       valid m' /\
       m' (Buf r) = (m (Buf r) + Z.b2z (Z.testbit (m mul_localop2) 0) * m mul_localop1)
                      mod 2 ^ wordsize /\
       m' mul_localop1 = (2 * m mul_localop1) mod 2 ^ wordsize /\
       m' mul_localop2 = m mul_localop2 / 2 /\
       same_except [Buf r; mul_localop1; mul_localop2; lsh_localop] m m').
Proof.
  intros Hv.
  apply returns_bind, returns_get; [unfold wordtopbit, wordsize; lia|].
  rewrite b2z_eqb_0, negb_involutive.
  apply returns_bind.
  apply returns_weaken with (Q := fun _ m1 =>
    valid m1 /\
    m1 (Buf r) = (m (Buf r) + Z.b2z (Z.testbit (m mul_localop2) 0) * m mul_localop1)
                   mod 2 ^ wordsize /\
    same_except [Buf r] m m1).
  { destruct (Z.testbit (m mul_localop2) 0).
    - eapply returns_weaken; [apply addWord_spec, Hv|].
      intros u m1 (Hv1 & E1 & Hs1). rewrite E1. cbn [Z.b2z]. rewrite Z.mul_1_l. auto.
    - apply returns_ret. split; [exact Hv|]. split; [|apply same_except_refl].
      cbn [Z.b2z]. rewrite Z.mul_0_l, Z.add_0_r. symmetry. apply Z.mod_small, Hv. }
  intros u m1 (Hv1 & E1 & Hs1).
  apply returns_bind.
  eapply returns_weaken; [apply lshWord_spec; [exact Hv1 | discriminate]|].
  intros u2 m2 (Hv2 & E2 & Hs2).
  eapply returns_weaken; [apply lshWord_spec; [exact Hv2 | discriminate]|].
  intros u3 m3 (Hv3 & E3 & Hs3).
  change (-1 <? 0) with true in E3. change (1 <? 0) with false in E2.
  change (clamp_shift (-1)) with 1 in E3. change (clamp_shift 1) with 1 in E2.
  rewrite Z.shiftr_div_pow2 in E3 by lia. rewrite Z.shiftl_mul_pow2 in E2 by lia.
  change (2 ^ 1) with 2 in *.
  split; [exact Hv3|]. split; [|split; [|split]].
  - rewrite (Hs3 (Buf r)), (Hs2 (Buf r)) by notin. exact E1.
  - rewrite (Hs3 mul_localop1) by notin. rewrite E2, (Hs1 mul_localop1) by notin.
    f_equal. lia.
  - rewrite E3, (Hs2 mul_localop2), (Hs1 mul_localop2) by notin. reflexivity.
  - intros x Hx. rewrite (Hs3 x), (Hs2 x), (Hs1 x) by notin. reflexivity.
Qed.

Ltac upd_simpl := repeat first [rewrite upd_same | rewrite upd_other by congruence].

(** The loop of mulWord adds the product of the two private operands to the
    result; an iteration budget of [wordsize] is enough. *)
Lemma mul_loop_spec fuel r m :
  valid m -> (Z.to_nat wordsize <= fuel)%nat ->
  returns
    (while fuel (z <- testEqWord mul_localop2 ;; ret (negb z))
       (t <- getBitOfWord mul_localop2 0 ;;
        (if negb (t =? 0) then addWord (Buf r) (Buf r) mul_localop1 else ret tt) ;;
        lshWord mul_localop1 mul_localop1 1 ;;
        lshWord mul_localop2 mul_localop2 (-1))) m
    (fun _ m' =>
       valid m' /\
       m' (Buf r) = (m (Buf r) + m mul_localop1 * m mul_localop2) mod 2 ^ wordsize /\
       same_except [Buf r; mul_localop1; mul_localop2; lsh_localop] m m').
Proof.
  intros Hv Hfuel.
  set (P := (m (Buf r) + m mul_localop1 * m mul_localop2) mod 2 ^ wordsize).
  set (F := [Buf r; mul_localop1; mul_localop2; lsh_localop]).
  assert (HN : 2 ^ wordsize <> 0) by (unfold wordsize; lia).
  apply (returns_while
    (fun n m' => valid m' /\ m' mul_localop2 < 2 ^ Z.of_nat n /\
                 (m' (Buf r) + m' mul_localop1 * m' mul_localop2) mod 2 ^ wordsize = P /\
                 same_except F m m')
    (fun m' => valid m' /\ m' (Buf r) = P /\ same_except F m m'))
    with (n := Z.to_nat wordsize).
  - intros n m1 (Hv1 & Hlt & Hp & Hs1).
    apply returns_bind. eapply returns_weaken; [apply testEqWord_spec, Hv1|].
    intros z m' [-> ->]. apply returns_ret. split; [reflexivity|].
    destruct (Z.eqb_spec (m1 mul_localop2) 0) as [E|E]; cbn [negb].
    + split; [exact Hv1|]. split; [|exact Hs1].
      rewrite <- Hp, E, Z.mul_0_r, Z.add_0_r. symmetry. apply Z.mod_small, Hv1.
    + pose proof (Hv1 mul_localop2) as [H0 _].
      destruct n as [|n']; [cbn in Hlt; lia|].
      exists n'. split; [reflexivity|].
      eapply returns_weaken; [apply mul_body_spec, Hv1|].
      intros u m2 (Hv2 & Er & E1 & E2 & Hs2).
      split; [exact Hv2|]. split; [|split].
      * rewrite E2. apply Z.div_lt_upper_bound; [lia|].
        rewrite Nat2Z.inj_succ, Z.pow_succ_r in Hlt by lia. exact Hlt.
      * rewrite Er, E1, E2, <- Hp.
        rewrite Z.add_mod_idemp_l by exact HN.
        rewrite <- Z.add_mod_idemp_r, Z.mul_mod_idemp_l, Z.add_mod_idemp_r by exact HN.
        f_equal. rewrite Z.bit0_mod.
        pose proof (Z.div_mod (m1 mul_localop2) 2). nia.
      * eapply same_except_trans; [exact Hs1 | exact Hs2].
  - exact Hfuel.
  - split; [exact Hv|]. split; [|split].
    + rewrite Z2Nat.id by (unfold wordsize; lia). apply Hv.
    + reflexivity.
    + apply same_except_refl.
Qed.

Lemma mulWord_spec fuel r a b m :
  valid m -> m zeroWord = 0 -> (Z.to_nat wordsize <= fuel)%nat ->
  returns (mulWord fuel (Buf r) (Buf a) (Buf b)) m (fun _ m' =>
    valid m' /\
    m' (Buf r) = (m (Buf a) * m (Buf b)) mod 2 ^ wordsize /\
    same_except (mul_frame r) m m').
Proof.
  intros Hv Hz Hfuel. unfold mulWord.
  assert (HN : 2 ^ wordsize <> 0) by (unfold wordsize; lia).
  assert (Htop : 0 <= 31 <= wordtopbit) by (unfold wordtopbit, wordsize; lia).
  apply returns_bind, returns_setWord.
  apply returns_bind, returns_setWord.
  apply returns_bind, returns_setWord.
  apply returns_bind, returns_setWord.
  apply returns_bind, returns_set; [unfold wordtopbit, wordsize; lia|].
  upd_simpl. rewrite Hz. change (put_bit 0 0 1) with 1.
  match goal with |- returns _ ?m5 _ => set (m0 := m5) end.
  assert (Hv0 : valid m0).
  { unfold m0. repeat apply valid_upd; try apply Hv; unfold valid_word, wordsize; lia. }
  assert (E1 : m0 mul_localop1 = m (Buf a)) by (unfold m0; upd_simpl; reflexivity).
  assert (E2 : m0 mul_localop2 = m (Buf b)) by (unfold m0; upd_simpl; reflexivity).
  assert (Er : m0 (Buf r) = 0) by (unfold m0; upd_simpl; reflexivity).
  assert (Eo : m0 mul_one = 1) by (unfold m0; upd_simpl; reflexivity).
  assert (Hs0 : same_except (mul_frame r) m m0).
  { intros x Hx. unfold m0.
    rewrite !upd_other; [reflexivity | intros ->; apply Hx; unfold mul_frame; cbn [In]; auto 10 ..]. }
  clearbody m0.
  apply returns_bind, returns_get; [exact Htop|].
  apply returns_bind, returns_get; [exact Htop|].
  rewrite E1, E2, !b2z_eqb_1. cbv zeta.
  set (s1 := Z.testbit (m (Buf a)) 31). set (s2 := Z.testbit (m (Buf b)) 31).
  set (A := if s1 then (- m (Buf a)) mod 2 ^ wordsize else m (Buf a)).
  set (B := if s2 then (- m (Buf b)) mod 2 ^ wordsize else m (Buf b)).
  apply returns_bind.
  apply returns_weaken with (Q := fun _ m1 =>
    valid m1 /\ m1 mul_localop1 = A /\ same_except [mul_localop1] m0 m1).
  { destruct s1.
    - eapply returns_weaken; [apply not_add_one_spec; [exact Hv0 | exact Eo | discriminate]|].
      intros u m1 (Hv1 & E & Hs1). rewrite E, E1. auto.
    - apply returns_ret. split; [exact Hv0|]. split; [exact E1 | apply same_except_refl]. }
  intros u1 m1 (Hv1 & EA & Hs1).
  apply returns_bind.
  apply returns_weaken with (Q := fun _ m2 =>
    valid m2 /\ m2 mul_localop2 = B /\ same_except [mul_localop2] m1 m2).
  { destruct s2.
    - eapply returns_weaken; [apply not_add_one_spec; [exact Hv1 | | discriminate]|].
      + rewrite (Hs1 mul_one) by notin. exact Eo.
      + intros u m2 (Hv2 & E & Hs2). rewrite E, (Hs1 mul_localop2), E2 by notin. auto.
    - apply returns_ret. split; [exact Hv1|]. split; [|apply same_except_refl].
      rewrite (Hs1 mul_localop2) by notin. exact E2. }
  intros u2 m2 (Hv2 & EB & Hs2).
  apply returns_bind.
  eapply returns_weaken; [apply mul_loop_spec; [exact Hv2 | exact Hfuel]|].
  intros u3 m3 (Hv3 & E3 & Hs3).
  rewrite (Hs2 (Buf r)), (Hs1 (Buf r)), Er, EB, (Hs2 mul_localop1), EA in E3 by notin.
  rewrite Z.add_0_l in E3.
  assert (Hfr : same_except (mul_frame r) m m3).
  { intros x Hx. unfold mul_frame in *.
    rewrite (Hs3 x), (Hs2 x), (Hs1 x) by notin. apply Hs0, Hx. }
  assert (Eo3 : m3 mul_one = 1).
  { rewrite (Hs3 mul_one), (Hs2 mul_one), (Hs1 mul_one) by notin. exact Eo. }
  assert (Hcases :
    (if Z.lxor (Z.b2z s1) (Z.b2z s2) =? 1 then (- (A * B mod 2 ^ wordsize)) mod 2 ^ wordsize
     else A * B mod 2 ^ wordsize) = (m (Buf a) * m (Buf b)) mod 2 ^ wordsize).
  { unfold A, B. destruct s1, s2; cbn [Z.b2z];
      match goal with
      | |- context [Z.lxor ?x ?y =? 1] =>
          let v := eval vm_compute in (Z.lxor x y =? 1) in
          change (Z.lxor x y =? 1) with v
      end; cbv iota.
    - rewrite Z.mul_mod_idemp_l, Z.mul_mod_idemp_r by exact HN. f_equal. ring.
    - rewrite opp_mod_idemp, <- Z.mul_opp_r, Z.mul_mod_idemp_l by exact HN. f_equal. ring.
    - rewrite opp_mod_idemp, <- Z.mul_opp_l, Z.mul_mod_idemp_r by exact HN. f_equal. ring.
    - reflexivity. }
  destruct (Z.lxor (Z.b2z s1) (Z.b2z s2) =? 1).
  - eapply returns_weaken; [apply not_add_one_spec; [exact Hv3 | exact Eo3 | discriminate]|].
    intros u4 m4 (Hv4 & E4 & Hs4).
    split; [exact Hv4|]. split.
    + rewrite E4, E3. exact Hcases.
    + intros x Hx. unfold mul_frame in *. rewrite (Hs4 x) by notin. apply Hfr, Hx.
  - apply returns_ret. split; [exact Hv3|]. split; [|exact Hfr].
    rewrite E3. exact Hcases.
Qed.

(** ** Divider *)

Lemma put_bit_low x (t : bool) : put_bit (2 * x) 0 (Z.b2z t) = 2 * x + Z.b2z t.
Proof.
  apply Z.bits_inj'. intros n Hn. rewrite testbit_put_bit by lia.
  rewrite b2z_eqb_0, negb_involutive.
  destruct (Z.eqb_spec n 0) as [->|Hne].
  - rewrite Z.testbit_0_r. reflexivity.
  - replace n with (Z.succ (n - 1)) by lia.
    rewrite Z.testbit_succ_r, Z.double_bits_succ by lia. reflexivity.
Qed.

(** Bringing down bit [k] of the dividend. *)
Lemma prefix_step w k :
  0 <= k -> w / 2 ^ k = 2 * (w / 2 ^ (k + 1)) + Z.b2z (Z.testbit w k).
Proof.
  intros Hk. rewrite Z.testbit_spec' by exact Hk.
  rewrite Z.pow_add_r, Z.pow_1_r by lia.
  assert (0 < 2 ^ k) by (apply Z.pow_pos_nonneg; lia).
  rewrite <- Z.div_div by lia.
  pose proof (Z.div_mod (w / 2 ^ k) 2). lia.
Qed.

(** One trial subtraction of the restoring division: [p] is the part of the
    dividend brought down so far, [t] the next bit. *)
Lemma restoring_step p d t :
  0 < d -> 0 <= t <= 1 ->
  let rem' := 2 * (p mod d) + t in
  (2 * p + t) mod d = (if d <=? rem' then rem' - d else rem') /\
  (2 * p + t) / d = 2 * (p / d) + (if d <=? rem' then 1 else 0).
Proof.
  intros Hd Ht rem'. subst rem'.
  pose proof (Z.div_mod p d ltac:(lia)) as E.
  pose proof (Z.mod_pos_bound p d Hd) as Hr.
  destruct (Z.leb_spec d (2 * (p mod d) + t)) as [Hc|Hc].
  - assert (E' : 2 * p + t = d * (2 * (p / d) + 1) + (2 * (p mod d) + t - d)) by lia.
    split; symmetry.
    + eapply Z.mod_unique_pos; [|exact E']. lia.
    + eapply Z.div_unique_pos; [|exact E']. lia.
  - assert (E' : 2 * p + t = d * (2 * (p / d) + 0) + (2 * (p mod d) + t)) by lia.
    split; symmetry.
    + eapply Z.mod_unique_pos; [|exact E']. lia.
    + eapply Z.div_unique_pos; [|exact E']. lia.
Qed.

(** The sign of a difference decides the comparison, also when the divisor
    is [2 ^ wordtopbit], the magnitude of the most negative word. *)
Lemma trial_sign x d :
  0 < d <= 2 ^ wordtopbit -> 0 <= x < 2 * d ->
  negb (Z.testbit ((x - d) mod 2 ^ wordsize) wordtopbit) = (d <=? x) /\
  (d <= x -> (x - d) mod 2 ^ wordsize = x - d).
Proof.
  intros Hd Hx. rewrite testbit_top_spec by apply mod_valid.
  unfold wordtopbit, wordsize in *. change (32 - 1) with 31 in *.
  change (2 ^ 32) with (2 * 2 ^ 31).
  destruct (Z.leb_spec d x) as [Hc|Hc].
  - rewrite Z.mod_small by lia. split; [|reflexivity].
    destruct (Z.leb_spec (2 ^ 31) (x - d)); [lia | reflexivity].
  - split; [|lia].
    replace ((x - d) mod (2 * 2 ^ 31)) with (x - d + 2 * 2 ^ 31).
    + destruct (Z.leb_spec (2 ^ 31) (x - d + 2 * 2 ^ 31)); [reflexivity | lia].
    + apply Z.mod_unique_pos with (q := -1); lia.
Qed.

Lemma div_body_gen (q r : loc) k m W1 W2 :
  valid m -> q <> r -> not_private q -> not_private r -> 0 <= k <= wordtopbit ->
  m div_w1 = W1 -> m div_w2 = W2 ->
  0 < W2 <= 2 ^ wordtopbit -> m r < W2 ->
  returns
    (lshWord r r 1 ;;
     t <- getBitOfWord div_w1 k ;;
     setBitOfWord r 0 t ;;
     subWord div_test r div_w2 ;;
     ge <- testGeWord div_test ;;
     if ge then
       setBitOfWord q k 1 ;;
       setWord r div_test
     else ret tt) m
    (fun _ m' =>
       let rem' := 2 * m r + Z.b2z (Z.testbit W1 k) in
       valid m' /\ same_except (div_loop_written q r) m m' /\
       m' r = (if W2 <=? rem' then rem' - W2 else rem') /\
       m' q = (if W2 <=? rem' then put_bit (m q) k 1 else m q)).
Proof.
  intros Hv Hqr (Hq1 & Hq2 & Hq3 & Hq4 & Hq5 & Hq6 & Hq7) (Hr1 & Hr2 & Hr3 & Hr4 & Hr5 & Hr6 & Hr7)
    Hk E1 E2 HW2 Hrem. cbv zeta.
  pose proof (Hv r) as [Hr0 _].
  apply returns_bind.
  eapply returns_weaken; [apply lshWord_spec; [exact Hv | exact Hr7]|].
  intros u1 m1 (Hv1 & Er1 & Hs1).
  change (1 <? 0) with false in Er1. change (clamp_shift 1) with 1 in Er1.
  rewrite Z.shiftl_mul_pow2 in Er1 by lia. change (2 ^ 1) with 2 in Er1.
  rewrite Z.mod_small in Er1
    by (unfold wordtopbit, wordsize in *; change (2 ^ 32) with (2 * 2 ^ (32 - 1)); lia).
  apply returns_bind, returns_get; [exact Hk|].
  rewrite (Hs1 div_w1), E1 by notin.
  apply returns_bind, returns_set; [unfold wordtopbit, wordsize; lia|].
  rewrite Er1, Z.mul_comm, put_bit_low.
  set (rem' := 2 * m r + Z.b2z (Z.testbit W1 k)).
  assert (Hrem' : 0 <= rem' < 2 * W2).
  { unfold rem'. destruct (Z.testbit W1 k); cbn [Z.b2z]; lia. }
  set (m2 := upd m1 r rem').
  assert (Hv2 : valid m2).
  { apply valid_upd; [exact Hv1|]. split; [lia|].
    unfold wordtopbit, wordsize in *. change (2 ^ 32) with (2 * 2 ^ (32 - 1)). lia. }
  apply returns_bind.
  eapply returns_weaken; [apply subWord_spec, Hv2|].
  intros u3 m3 (Hv3 & Et3 & Hs3).
  assert (Et : m3 div_test = (rem' - W2) mod 2 ^ wordsize).
  { rewrite Et3. unfold m2. upd_simpl. rewrite (Hs1 div_w2), E2 by notin. reflexivity. }
  destruct (trial_sign rem' W2 HW2 Hrem') as [Hsign Hsmall].
  apply returns_bind.
  eapply returns_weaken; [apply testGeWord_spec|].
  intros ge m' [-> ->]. rewrite Et, Hsign.
  assert (Eq3 : m3 q = m q).
  { rewrite (Hs3 q) by notin. unfold m2. upd_simpl. apply Hs1. notin. }
  assert (Hfr3 : same_except (div_loop_written q r) m m3).
  { intros x Hx. unfold div_loop_written in *. rewrite (Hs3 x) by notin.
    unfold m2. rewrite upd_other by notin. apply Hs1. notin. }
  destruct (Z.leb_spec W2 rem') as [Hc|Hc].
  - apply returns_bind, returns_set; [exact Hk|].
    apply returns_setWord.
    split; [|split; [|split]].
    + apply valid_upd; [|upd_simpl; apply Hv3].
      apply valid_upd; [exact Hv3|]. apply put_bit_valid; [apply Hv3 | exact Hk].
    + apply same_except_upd; [right; left; reflexivity|].
      apply same_except_upd; [left; reflexivity | exact Hfr3].
    + upd_simpl. rewrite Et. apply Hsmall, Hc.
    + upd_simpl. rewrite Eq3. reflexivity.
  - apply returns_ret. split; [exact Hv3|]. split; [exact Hfr3|]. split.
    + rewrite (Hs3 r) by notin. unfold m2. upd_simpl. reflexivity.
    + exact Eq3.
Qed.

Lemma quotient_bit w d k :
  0 <= k -> 0 < d -> Z.b2z (Z.testbit (w / d) k) = (w / 2 ^ k / d) mod 2.
Proof.
  intros Hk Hd. rewrite Z.testbit_spec' by exact Hk.
  assert (0 < 2 ^ k) by (apply Z.pow_pos_nonneg; lia).
  rewrite !Z.div_div by lia. rewrite (Z.mul_comm d). reflexivity.
Qed.

(** The restoring division loop on two magnitudes. *)
Lemma div_loop_gen (q r : loc) m W1 W2 :
  valid m -> q <> r -> not_private q -> not_private r ->
  m div_w1 = W1 -> m div_w2 = W2 -> 0 < W2 <= 2 ^ wordtopbit ->
  m r = 0 -> m q = 0 ->
  returns
    (for_down wordtopbit 0 (fun b =>
       lshWord r r 1 ;;
       t <- getBitOfWord div_w1 b ;;
       setBitOfWord r 0 t ;;
       subWord div_test r div_w2 ;;
       ge <- testGeWord div_test ;;
       if ge then
         setBitOfWord q b 1 ;;
         setWord r div_test
       else ret tt)) m
    (fun _ m' =>
       valid m' /\ same_except (div_loop_written q r) m m' /\
       m' r = W1 mod W2 /\ m' q = W1 / W2).
Proof.
  intros Hv Hqr Hq Hr E1 E2 HW2 Er Eq.
  pose proof Hq as (Nq1 & Nq2 & Nq3 & Nq4 & Nq5 & Nq6 & Nq7).
  pose proof Hr as (Nr1 & Nr2 & Nr3 & Nr4 & Nr5 & Nr6 & Nr7).
  assert (HW1 : valid_word W1) by (rewrite <- E1; apply Hv).
  unfold for_down. eapply returns_weaken.
  - apply (returns_fold_down (fun k (_ : unit) m' =>
      valid m' /\ same_except (div_loop_written q r) m m' /\
      m' r = (W1 / 2 ^ (k + 1)) mod W2 /\
      forall i, 0 <= i <= wordtopbit ->
        Z.testbit (m' q) i = if k <? i then Z.testbit (W1 / W2) i else false)).
    + unfold wordtopbit, wordsize. lia.
    + split; [exact Hv|]. split; [apply same_except_refl|]. split.
      * rewrite Er. replace (wordtopbit + 1) with wordsize by (unfold wordtopbit; lia).
        rewrite Z.div_small by exact HW1. symmetry. apply Z.mod_0_l. lia.
      * intros i Hi. rewrite Eq, Z.bits_0.
        destruct (Z.ltb_spec wordtopbit i); [lia | reflexivity].
    + intros k u m1 Hk (Hv1 & Hs1 & Er1 & Hq1).
      assert (Hrem : m1 r < W2) by (rewrite Er1; apply Z.mod_pos_bound; lia).
      eapply returns_weaken.
      { apply (div_body_gen q r k m1 W1 W2); try assumption.
        - rewrite (Hs1 div_w1) by (unfold div_loop_written; notin). exact E1.
        - rewrite (Hs1 div_w2) by (unfold div_loop_written; notin). exact E2. }
      cbv zeta. intros u' m2 (Hv2 & Hs2 & Er2 & Eq2).
      set (t := Z.b2z (Z.testbit W1 k)) in *.
      assert (Ht : 0 <= t <= 1) by (unfold t; destruct (Z.testbit W1 k); cbn; lia).
      destruct (restoring_step (W1 / 2 ^ (k + 1)) W2 t) as [Hmod Hdiv]; [lia | exact Ht |].
      cbv zeta in Hmod, Hdiv. rewrite <- Er1 in Hmod, Hdiv.
      unfold t in Hmod, Hdiv at 1. rewrite <- prefix_step in Hmod, Hdiv by lia.
      fold t in Hmod, Hdiv.
      pose proof (quotient_bit W1 W2 k ltac:(lia) ltac:(lia)) as Hbit.
      rewrite Hdiv in Hbit.
      split; [exact Hv2|]. split; [eapply same_except_trans; eassumption|]. split.
      * replace (k - 1 + 1) with k by lia. rewrite Hmod. exact Er2.
      * intros i Hi. rewrite Eq2.
        destruct (Z.leb_spec W2 (2 * m1 r + t)) as [Hc|Hc].
        -- rewrite testbit_put_bit by lia.
           destruct (Z.eqb_spec i k) as [->|Hne].
           ++ destruct (Z.ltb_spec (k - 1) k); [|lia].
              destruct (Z.testbit (W1 / W2) k); [reflexivity|].
              cbn [Z.b2z] in Hbit. Z.div_mod_to_equations. lia.
           ++ rewrite Hq1 by exact Hi.
              destruct (Z.ltb_spec k i), (Z.ltb_spec (k - 1) i); try reflexivity; lia.
        -- rewrite Hq1 by exact Hi.
           destruct (Z.ltb_spec k i), (Z.ltb_spec (k - 1) i); try reflexivity; try lia.
           assert (i = k) by lia. subst i.
           destruct (Z.testbit (W1 / W2) k); [|reflexivity].
           cbn [Z.b2z] in Hbit. Z.div_mod_to_equations. lia.
  - intros u m' (Hv' & Hs' & Er' & Hq').
    split; [exact Hv'|]. split; [exact Hs'|]. split.
    + rewrite Er'. change (0 - 1 + 1) with 0. rewrite Z.pow_0_r, Z.div_1_r. reflexivity.
    + apply word_ext; [apply Hv' | |].
      * destruct HW1 as [H0 H1]. split; [apply Z.div_pos; lia|].
        apply Z.le_lt_trans with (m := W1); [|exact H1].
        apply Z.div_le_upper_bound; [lia|]. nia.
      * intros i Hi. rewrite Hq' by exact Hi.
        destruct (Z.ltb_spec (0 - 1) i); [reflexivity | lia].
Qed.

Lemma magnitude_range w :
  valid_word w -> 0 <= magnitude w <= 2 ^ wordtopbit /\ (w <> 0 -> 0 < magnitude w).
Proof.
  intros Hw. unfold magnitude, negate_if. rewrite testbit_top_spec by exact Hw.
  destruct Hw as [H0 H1]. unfold wordtopbit, wordsize in *. change (32 - 1) with 31.
  change (2 ^ 32) with (2 * 2 ^ 31) in *.
  destruct (Z.leb_spec (2 ^ 31) w) as [Hc|Hc]; [|lia].
  replace ((- w) mod (2 * 2 ^ 31)) with (2 * 2 ^ 31 - w); [lia|].
  apply Z.mod_unique_pos with (q := -1); lia.
Qed.

Lemma div2Word_gen (q r : loc) (a b : nat) m :
  valid m -> constants m ->
  q <> r -> not_private q -> not_private r ->
  q <> Buf a -> q <> Buf b -> r <> Buf a -> r <> Buf b ->
  returns (div2Word q r (Buf a) (Buf b)) m (fun _ m' =>
    let sA := Z.testbit (m (Buf a)) wordtopbit in
    let sB := Z.testbit (m (Buf b)) wordtopbit in
    valid m' /\ same_except (div_written q r) m m' /\
    if m (Buf b) =? 0 then
      m' q = (if sA then 2 ^ wordtopbit else 2 ^ wordtopbit - 1) /\ m' r = 0
    else
      m' q = negate_if (xorb sA sB) (magnitude (m (Buf a)) / magnitude (m (Buf b))) /\
      m' r = negate_if sA (magnitude (m (Buf a)) mod magnitude (m (Buf b)))).
Proof.
  intros Hv (Hz & Hmax & Hmin) Hqr Hq Hr Hqa Hqb Hra Hrb. unfold div2Word. cbv zeta.
  pose proof Hq as (Nq1 & Nq2 & Nq3 & Nq4 & Nq5 & Nq6 & Nq7).
  pose proof Hr as (Nr1 & Nr2 & Nr3 & Nr4 & Nr5 & Nr6 & Nr7).
  apply returns_bind, returns_setWord.
  apply returns_bind, returns_setWord.
  upd_simpl. rewrite Hz.
  set (m0 := upd (upd m q 0) r 0).
  assert (Hv0 : valid m0).
  { unfold m0. repeat apply valid_upd; try exact Hv; unfold valid_word, wordsize; lia. }
  assert (Eq0 : m0 q = 0) by (unfold m0; upd_simpl; reflexivity).
  assert (Er0 : m0 r = 0) by (unfold m0; upd_simpl; reflexivity).
  assert (Ea0 : m0 (Buf a) = m (Buf a)) by (unfold m0; upd_simpl; reflexivity).
  assert (Eb0 : m0 (Buf b) = m (Buf b)) by (unfold m0; upd_simpl; reflexivity).
  assert (Ez0 : m0 zeroWord = 0) by (unfold m0; upd_simpl; exact Hz).
  assert (Emax0 : m0 maxWord = 2 ^ wordtopbit - 1) by (unfold m0; upd_simpl; exact Hmax).
  assert (Emin0 : m0 minWord = 2 ^ wordtopbit) by (unfold m0; upd_simpl; exact Hmin).
  assert (Hs0 : same_except (div_written q r) m m0).
  { intros x Hx. unfold m0.
    rewrite !upd_other; [reflexivity | intros ->; apply Hx; unfold div_written; cbn [In]; auto 10 ..]. }
  clearbody m0.
  set (A := m (Buf a)) in *. set (B := m (Buf b)) in *.
  set (sA := Z.testbit A wordtopbit). set (sB := Z.testbit B wordtopbit).
  apply returns_bind. eapply returns_weaken; [apply testEqWord_spec, Hv0|].
  intros z m' [-> ->]. rewrite Eb0.
  destruct (Z.eqb_spec B 0) as [EB|EB].
  - apply returns_bind. eapply returns_weaken; [apply testGeWord_spec|].
    intros ge m' [-> ->]. rewrite Ea0. fold sA. apply returns_setWord.
    split; [|split; [|split]].
    + apply valid_upd; [exact Hv0 | destruct sA; apply Hv0].
    + apply same_except_upd; [left; reflexivity | exact Hs0].
    + upd_simpl. destruct sA; cbn [negb]; assumption.
    + upd_simpl. exact Er0.
  - pose proof (magnitude_range A (Hv (Buf a))) as [HA _].
    pose proof (magnitude_range B (Hv (Buf b))) as [HB HBpos]. specialize (HBpos EB).
    apply returns_bind. eapply returns_weaken; [apply testLtWord_spec|].
    intros lt1 m' [-> ->]. rewrite Ea0. fold sA.
    apply returns_bind.
    apply returns_weaken with (Q := fun rn m1 =>
      rn = sA /\ valid m1 /\ m1 div_w1 = magnitude A /\ same_except [div_w1] m0 m1).
    { unfold magnitude, negate_if. fold sA. destruct sA.
      - apply returns_bind. eapply returns_weaken; [apply negativeWord_spec; assumption|].
        intros u m1 (Hv1 & E1 & Hs1). apply returns_ret. rewrite E1, Ea0. auto.
      - apply returns_bind, returns_setWord. apply returns_ret.
        split; [reflexivity|]. split; [apply valid_upd; [exact Hv0 | apply Hv0]|].
        split; [upd_simpl; exact Ea0|].
        apply same_except_upd; [left; reflexivity | apply same_except_refl]. }
    intros rn1 m1 (-> & Hv1 & E1 & Hs1).
    apply returns_bind. eapply returns_weaken; [apply testLtWord_spec|].
    intros lt2 m' [-> ->]. rewrite (Hs1 (Buf b)), Eb0 by notin. fold sB.
    apply returns_bind.
    apply returns_weaken with (Q := fun rn m2 =>
      rn = xorb sA sB /\ valid m2 /\ m2 div_w2 = magnitude B /\ same_except [div_w2] m1 m2).
    { unfold magnitude, negate_if. fold sB. destruct sB.
      - apply returns_bind. eapply returns_weaken.
        + apply negativeWord_spec; [exact Hv1|]. rewrite (Hs1 zeroWord) by notin. exact Ez0.
        + intros u m2 (Hv2 & E2 & Hs2). apply returns_ret.
          rewrite E2, (Hs1 (Buf b)), Eb0 by notin. destruct sA; auto.
      - apply returns_bind, returns_setWord. apply returns_ret.
        split; [destruct sA; reflexivity|].
        split; [apply valid_upd; [exact Hv1 | apply Hv1]|].
        split; [upd_simpl; rewrite (Hs1 (Buf b)) by notin; exact Eb0|].
        apply same_except_upd; [left; reflexivity | apply same_except_refl]. }
    intros rn2 m2 (-> & Hv2 & E2 & Hs2).
    apply returns_bind. eapply returns_weaken.
    { apply (div_loop_gen q r m2 (magnitude A) (magnitude B)); try assumption.
      - rewrite (Hs2 div_w1) by notin. exact E1.
      - lia.
      - rewrite (Hs2 r), (Hs1 r) by notin. exact Er0.
      - rewrite (Hs2 q), (Hs1 q) by notin. exact Eq0. }
    intros u3 m3 (Hv3 & Hs3 & Er3 & Eq3).
    assert (Hfr3 : same_except (div_written q r) m m3).
    { intros x Hx. unfold div_written, div_loop_written in *.
      rewrite (Hs3 x), (Hs2 x), (Hs1 x) by notin. apply Hs0. notin. }
    assert (Ez3 : m3 zeroWord = 0).
    { unfold div_loop_written in *.
      rewrite (Hs3 zeroWord), (Hs2 zeroWord), (Hs1 zeroWord) by notin. exact Ez0. }
    apply returns_bind.
    apply returns_weaken with (Q := fun _ m4 =>
      valid m4 /\ m4 q = negate_if (xorb sA sB) (magnitude A / magnitude B) /\
      same_except [q] m3 m4).
    { unfold negate_if at 1. destruct (xorb sA sB).
      - eapply returns_weaken; [apply negativeWord_spec; assumption|].
        intros u m4 (Hv4 & E4 & Hs4). rewrite E4, Eq3. auto.
      - apply returns_ret. split; [exact Hv3|]. split; [exact Eq3 | apply same_except_refl]. }
    intros u4 m4 (Hv4 & Eq4 & Hs4).
    apply returns_bind. eapply returns_weaken; [apply testLtWord_spec|].
    intros lt1' m' [-> ->].
    assert (Ea4 : m4 (Buf a) = A).
    { rewrite (Hs4 (Buf a)) by notin. apply Hfr3. unfold div_written. notin. }
    rewrite Ea4. fold sA.
    assert (Hgoal : forall m5, valid m5 ->
              m5 r = negate_if sA (magnitude A mod magnitude B) ->
              same_except [r] m4 m5 ->
              valid m5 /\ same_except (div_written q r) m m5 /\
              m5 q = negate_if (xorb sA sB) (magnitude A / magnitude B) /\
              m5 r = negate_if sA (magnitude A mod magnitude B)).
    { intros m5 Hv5 Er5 Hs5. split; [exact Hv5|]. split; [|split].
      - intros x Hx. unfold div_written in *. rewrite (Hs5 x), (Hs4 x) by notin. apply Hfr3, Hx.
      - rewrite (Hs5 q) by notin. exact Eq4.
      - exact Er5. }
    destruct sA.
    + eapply returns_weaken.
      * apply negativeWord_spec; [exact Hv4|]. rewrite (Hs4 zeroWord) by notin. exact Ez3.
      * intros u m5 (Hv5 & E5 & Hs5). apply Hgoal; [exact Hv5 | | exact Hs5].
        rewrite E5, (Hs4 r), Er3 by notin. reflexivity.
    + apply returns_ret. apply Hgoal; [exact Hv4 | | apply same_except_refl].
      rewrite (Hs4 r) by notin. exact Er3.
Qed.

Lemma not_private_Buf n : not_private (Buf n).
Proof. repeat split; discriminate. Qed.

Lemma div2Word_spec q r a b m :
  valid m -> constants m ->
  q <> r -> q <> a -> q <> b -> r <> a -> r <> b ->
  returns (div2Word (Buf q) (Buf r) (Buf a) (Buf b)) m (fun _ m' =>
    let sA := Z.testbit (m (Buf a)) wordtopbit in
    let sB := Z.testbit (m (Buf b)) wordtopbit in
    valid m' /\ same_except (div_frame q r) m m' /\
    if m (Buf b) =? 0 then
      m' (Buf q) = (if sA then 2 ^ wordtopbit else 2 ^ wordtopbit - 1) /\ m' (Buf r) = 0
    else
      m' (Buf q) = negate_if (xorb sA sB) (magnitude (m (Buf a)) / magnitude (m (Buf b))) /\
      m' (Buf r) = negate_if sA (magnitude (m (Buf a)) mod magnitude (m (Buf b)))).
Proof.
  intros Hv Hc Hqr Hqa Hqb Hra Hrb.
  apply (div2Word_gen (Buf q) (Buf r) a b m); try assumption; try congruence;
    apply not_private_Buf.
Qed.

(** ** The result buffer may be an operand

    For the operations below, a call whose result buffer is one of its
    operands leaves in it the word that a call with a separate result buffer
    leaves there.  div2Word is not among them: it clears its two result
    buffers before it reads its operands. *)

Lemma returns_same (p p' : M unit) m x x' (v : word) :
  returns p m (fun _ m1 => m1 x = v) ->
  returns p' m (fun _ m2 => m2 x' = v) ->
  returns p m (fun _ m1 => returns p' m (fun _ m2 => m1 x = m2 x')).
Proof.
  intros H1 H2. eapply returns_weaken; [exact H1|].
  intros u1 m1 E1. eapply returns_weaken; [exact H2|].
  intros u2 m2 E2. cbv beta in *. congruence.
Qed.

Lemma aliasing_tolerated (fuel : nat) (r a b : nat) (count : Z) (m : mem) :
  valid m -> constants m -> (Z.to_nat wordsize <= fuel)%nat -> int_count count ->
  let same (p p' : M unit) (x : loc) :=
    returns p m (fun _ m1 => returns p' m (fun _ m2 => m1 (Buf r) = m2 x)) in
  same (notWord (Buf r) (Buf a)) (notWord (Buf a) (Buf a)) (Buf a) /\
  same (negativeWord (Buf r) (Buf a)) (negativeWord (Buf a) (Buf a)) (Buf a) /\
  same (andWord (Buf r) (Buf a) (Buf b)) (andWord (Buf a) (Buf a) (Buf b)) (Buf a) /\
  same (andWord (Buf r) (Buf a) (Buf b)) (andWord (Buf b) (Buf a) (Buf b)) (Buf b) /\
  same (orWord (Buf r) (Buf a) (Buf b)) (orWord (Buf a) (Buf a) (Buf b)) (Buf a) /\
  same (orWord (Buf r) (Buf a) (Buf b)) (orWord (Buf b) (Buf a) (Buf b)) (Buf b) /\
  same (xorWord (Buf r) (Buf a) (Buf b)) (xorWord (Buf a) (Buf a) (Buf b)) (Buf a) /\
  same (xorWord (Buf r) (Buf a) (Buf b)) (xorWord (Buf b) (Buf a) (Buf b)) (Buf b) /\
  same (addWord (Buf r) (Buf a) (Buf b)) (addWord (Buf a) (Buf a) (Buf b)) (Buf a) /\
  same (addWord (Buf r) (Buf a) (Buf b)) (addWord (Buf b) (Buf a) (Buf b)) (Buf b) /\
  same (subWord (Buf r) (Buf a) (Buf b)) (subWord (Buf a) (Buf a) (Buf b)) (Buf a) /\
  same (subWord (Buf r) (Buf a) (Buf b)) (subWord (Buf b) (Buf a) (Buf b)) (Buf b) /\
  same (mulWord fuel (Buf r) (Buf a) (Buf b)) (mulWord fuel (Buf a) (Buf a) (Buf b)) (Buf a) /\
  same (mulWord fuel (Buf r) (Buf a) (Buf b)) (mulWord fuel (Buf b) (Buf a) (Buf b)) (Buf b) /\
  same (lshWord (Buf r) (Buf a) count) (lshWord (Buf a) (Buf a) count) (Buf a) /\
  same (ashWord (Buf r) (Buf a) count) (ashWord (Buf a) (Buf a) count) (Buf a).
Proof.
  intros Hv (Hz & _) Hfuel _ same. subst same. cbv beta.
  assert (Hpick : forall (p : M unit) x (v : word),
            returns p m (fun _ m' => valid m' /\ m' x = v /\ same_except [x] m m') ->
            returns p m (fun _ m' => m' x = v)).
  { intros p x v H. eapply returns_weaken; [exact H|]. intros u m' (_ & E & _). exact E. }
  repeat split.
  - eapply returns_same; apply Hpick, notWord_spec, Hv.
  - eapply returns_same; apply Hpick, negativeWord_spec; assumption.
  - eapply returns_same; apply Hpick, andWord_spec, Hv.
  - eapply returns_same; apply Hpick, andWord_spec, Hv.
  - eapply returns_same; apply Hpick, orWord_spec, Hv.
  - eapply returns_same; apply Hpick, orWord_spec, Hv.
  - eapply returns_same; apply Hpick, xorWord_spec, Hv.
  - eapply returns_same; apply Hpick, xorWord_spec, Hv.
  - eapply returns_same; apply Hpick, addWord_spec, Hv.
  - eapply returns_same; apply Hpick, addWord_spec, Hv.
  - eapply returns_same; apply Hpick, subWord_spec, Hv.
  - eapply returns_same; apply Hpick, subWord_spec, Hv.
  - eapply returns_same;
      (eapply returns_weaken; [apply mulWord_spec; assumption|]);
      intros u m' (_ & E & _); exact E.
  - eapply returns_same;
      (eapply returns_weaken; [apply mulWord_spec; assumption|]);
      intros u m' (_ & E & _); exact E.
  - eapply returns_same;
      (eapply returns_weaken; [apply lshWord_spec; [exact Hv | discriminate]|]);
      intros u m' (_ & E & _); exact E.
  - eapply returns_weaken; [apply ashWord_spec; [exact Hv | discriminate]|].
    intros u1 m1 (Hv1 & Hb1 & _).
    eapply returns_weaken; [apply ashWord_spec; [exact Hv | discriminate]|].
    intros u2 m2 (Hv2 & Hb2 & _).
    apply word_ext; [apply Hv1 | apply Hv2 |].
    intros i Hi. rewrite Hb1, Hb2 by exact Hi. reflexivity.
Qed.

(** ** Arithmetic of the wrapped results *)

Lemma wordsize_pow_nonzero : 2 ^ wordsize <> 0.
Proof. unfold wordsize. lia. Qed.

Lemma cong_refl x : cong x x.
Proof. reflexivity. Qed.

Lemma cong_sym x y : cong x y -> cong y x.
Proof. unfold cong. congruence. Qed.

Lemma cong_trans x y z : cong x y -> cong y z -> cong x z.
Proof. unfold cong. congruence. Qed.

Lemma cong_mod x : cong (x mod 2 ^ wordsize) x.
Proof. unfold cong. apply Z.mod_mod, wordsize_pow_nonzero. Qed.

Lemma cong_add x x' y y' : cong x x' -> cong y y' -> cong (x + y) (x' + y').
Proof.
  unfold cong. intros H1 H2.
  rewrite (Z.add_mod x), (Z.add_mod x'), H1, H2 by apply wordsize_pow_nonzero. reflexivity.
Qed.

Lemma cong_mul x x' y y' : cong x x' -> cong y y' -> cong (x * y) (x' * y').
Proof.
  unfold cong. intros H1 H2.
  rewrite (Z.mul_mod x), (Z.mul_mod x'), H1, H2 by apply wordsize_pow_nonzero. reflexivity.
Qed.

Lemma cong_valid x y : valid_word x -> valid_word y -> cong x y -> x = y.
Proof.
  unfold cong. intros Hx Hy H. rewrite !Z.mod_small in H by assumption. exact H.
Qed.

Lemma cong_negate_if s x : cong (negate_if s x) (sign_factor s * x).
Proof.
  unfold negate_if, sign_factor. destruct s.
  - replace (-1 * x) with (- x) by lia. apply cong_mod.
  - rewrite Z.mul_1_l. apply cong_refl.
Qed.

(** Quotient times divisor plus remainder gives back the dividend, whatever
    the signs, up to wrapping. *)
Lemma reconstruct A B sA sB :
  negate_if sB B <> 0 ->
  cong (negate_if (xorb sA sB) (negate_if sA A / negate_if sB B) * B
        + negate_if sA (negate_if sA A mod negate_if sB B)) A.
Proof.
  intros HW2.
  pose proof (Z.div_mod (negate_if sA A) (negate_if sB B) HW2) as E.
  set (W1 := negate_if sA A) in *. set (W2 := negate_if sB B) in *.
  set (Qu := W1 / W2) in *. set (Ru := W1 mod W2) in *.
  eapply cong_trans.
  { apply cong_add; [apply cong_mul; [apply cong_negate_if | apply cong_refl]
                    | apply cong_negate_if]. }
  replace (sign_factor (xorb sA sB) * Qu * B + sign_factor sA * Ru)
    with (sign_factor sA * (sign_factor sB * B * Qu + Ru))
    by (destruct sA, sB; cbn [sign_factor xorb]; ring).
  eapply cong_trans.
  { apply cong_mul; [apply cong_refl|].
    apply cong_add; [|apply cong_refl].
    apply cong_mul; [|apply cong_refl].
    apply cong_sym, (cong_negate_if sB B). }
  fold W2. rewrite <- E.
  eapply cong_trans.
  { apply cong_mul; [apply cong_refl | apply (cong_negate_if sA A)]. }
  replace (sign_factor sA * (sign_factor sA * A)) with A
    by (destruct sA; cbn [sign_factor]; ring).
  apply cong_refl.
Qed.

Lemma magnitude_cases w :
  valid_word w ->
  (Z.testbit w wordtopbit = false /\ magnitude w = w /\ w < 2 ^ wordtopbit) \/
  (Z.testbit w wordtopbit = true /\ magnitude w = 2 ^ wordsize - w /\ 2 ^ wordtopbit <= w).
Proof.
  intros Hw. unfold magnitude, negate_if. rewrite testbit_top_spec by exact Hw.
  destruct Hw as [H0 H1].
  destruct (Z.leb_spec (2 ^ wordtopbit) w) as [Hc|Hc]; [right | left; auto].
  split; [reflexivity|]. split; [|exact Hc].
  symmetry. apply Z.mod_unique_pos with (q := -1); [|lia].
  unfold wordtopbit, wordsize in *. change (32 - 1) with 31 in *. lia.
Qed.

Lemma negate_nonzero x :
  0 < x < 2 ^ wordsize -> (- x) mod 2 ^ wordsize = 2 ^ wordsize - x.
Proof. intros Hx. symmetry. apply Z.mod_unique_pos with (q := -1); lia. Qed.

Lemma negate_if_valid s x : valid_word x -> valid_word (negate_if s x).
Proof. intros Hx. unfold negate_if. destruct s; [apply mod_valid | exact Hx]. Qed.

(** The sign of the quotient, when it is not zero and the division is not
    the one that overflows (the most negative word by minus one). *)
Lemma quotient_sign A B :
  valid_word A -> valid_word B -> B <> 0 ->
  let sA := Z.testbit A wordtopbit in
  let sB := Z.testbit B wordtopbit in
  let q := negate_if (xorb sA sB) (magnitude A / magnitude B) in
  q <> 0 -> ~ (A = 2 ^ wordtopbit /\ B = 2 ^ wordsize - 1) ->
  Z.testbit q wordtopbit = xorb sA sB.
Proof.
  intros HA HB HB0 sA sB q Hq Hov.
  pose proof (magnitude_range A HA) as [HmA _].
  pose proof (magnitude_range B HB) as [HmB HmB0]. specialize (HmB0 HB0).
  pose proof (Z.mul_div_le (magnitude A) (magnitude B) HmB0) as Hle.
  assert (HQ : 0 <= magnitude A / magnitude B) by (apply Z.div_pos; lia).
  assert (HQv : valid_word (magnitude A / magnitude B)).
  { split; [exact HQ|]. unfold wordtopbit, wordsize in *.
    change (32 - 1) with 31 in *. change (2 ^ 32) with (2 * 2 ^ 31). nia. }
  subst q. rewrite testbit_top_spec by (apply negate_if_valid, HQv).
  revert Hq. unfold negate_if.
  destruct (magnitude_cases A HA) as [(EsA & EmA & HAr)|(EsA & EmA & HAr)];
  destruct (magnitude_cases B HB) as [(EsB & EmB & HBr)|(EsB & EmB & HBr)];
  subst sA sB; rewrite EsA, EsB; cbn [xorb]; intros Hq;
  unfold wordtopbit, wordsize in *; change (32 - 1) with 31 in *;
  change (2 ^ 32) with (2 * 2 ^ 31) in *.
  - destruct (Z.leb_spec (2 ^ 31) (magnitude A / magnitude B)); [nia | reflexivity].
  - destruct (Z.eq_dec (magnitude A / magnitude B) 0) as [E0|E0];
      [rewrite E0 in Hq; contradiction|].
    change (2 * 2 ^ 31) with (2 ^ wordsize) in *.
    rewrite negate_nonzero by (unfold wordsize; change (2 ^ 32) with (2 * 2 ^ 31); nia).
    unfold wordsize. change (2 ^ 32) with (2 * 2 ^ 31).
    destruct (Z.leb_spec (2 ^ 31) (2 * 2 ^ 31 - magnitude A / magnitude B));
      [reflexivity | nia].
  - destruct (Z.eq_dec (magnitude A / magnitude B) 0) as [E0|E0];
      [rewrite E0 in Hq; contradiction|].
    change (2 * 2 ^ 31) with (2 ^ wordsize) in *.
    rewrite negate_nonzero by (unfold wordsize; change (2 ^ 32) with (2 * 2 ^ 31); nia).
    unfold wordsize. change (2 ^ 32) with (2 * 2 ^ 31).
    destruct (Z.leb_spec (2 ^ 31) (2 * 2 ^ 31 - magnitude A / magnitude B));
      [reflexivity | nia].
  - destruct (Z.leb_spec (2 ^ 31) (magnitude A / magnitude B)) as [Hc|Hc]; [|reflexivity].
    exfalso. apply Hov.
    assert (magnitude B = 1) by nia. assert (magnitude A = 2 ^ 31) by nia. lia.
Qed.

(** The sign of the remainder, when it is not zero. *)
Lemma remainder_sign A B :
  valid_word A -> valid_word B -> B <> 0 ->
  let sA := Z.testbit A wordtopbit in
  let r := negate_if sA (magnitude A mod magnitude B) in
  r <> 0 -> Z.testbit r wordtopbit = sA.
Proof.
  intros HA HB HB0 sA r Hr.
  pose proof (magnitude_range B HB) as [HmB HmB0]. specialize (HmB0 HB0).
  pose proof (Z.mod_pos_bound (magnitude A) (magnitude B) HmB0) as HR.
  assert (HRv : valid_word (magnitude A mod magnitude B)).
  { unfold valid_word, wordtopbit, wordsize in *.
    change (32 - 1) with 31 in *. change (2 ^ 32) with (2 * 2 ^ 31). lia. }
  subst r. rewrite testbit_top_spec by (apply negate_if_valid, HRv).
  revert Hr. unfold negate_if. destruct sA; intros Hr.
  - destruct (Z.eq_dec (magnitude A mod magnitude B) 0) as [E0|E0];
      [rewrite E0 in Hr; contradiction|].
    rewrite negate_nonzero by (destruct HRv; lia).
    unfold wordtopbit, wordsize in *. change (32 - 1) with 31 in *.
    change (2 ^ 32) with (2 * 2 ^ 31).
    destruct (Z.leb_spec (2 ^ 31) (2 * 2 ^ 31 - magnitude A mod magnitude B));
      [reflexivity | lia].
  - unfold wordtopbit, wordsize in *. change (32 - 1) with 31 in *.
    destruct (Z.leb_spec (2 ^ 31) (magnitude A mod magnitude B)); [lia | reflexivity].
Qed.

(** ** Two's-complement values *)

Lemma sval_cases w :
  valid_word w ->
  (Z.testbit w wordtopbit = false /\ sval w = w /\ 0 <= w < 2 ^ wordtopbit) \/
  (Z.testbit w wordtopbit = true /\ sval w = w - 2 ^ wordsize /\
   2 ^ wordtopbit <= w < 2 ^ wordsize).
Proof.
  intros Hw. unfold sval. rewrite testbit_top_spec by exact Hw.
  destruct Hw as [H0 H1].
  destruct (Z.leb_spec (2 ^ wordtopbit) w); [right | left]; repeat split; lia.
Qed.

Lemma sval_range w : valid_word w -> - 2 ^ wordtopbit <= sval w < 2 ^ wordtopbit.
Proof.
  intros Hw.
  destruct (sval_cases w Hw) as [(_ & E & H)|(_ & E & H)]; rewrite E;
    unfold wordtopbit, wordsize in *; change (32 - 1) with 31 in *;
    change (2 ^ 32) with (2 * 2 ^ 31) in *; lia.
Qed.

Lemma sval_negative w : valid_word w -> (sval w <? 0) = Z.testbit w wordtopbit.
Proof.
  intros Hw.
  destruct (sval_cases w Hw) as [(Eb & E & H)|(Eb & E & H)]; rewrite E, Eb;
    [destruct (Z.ltb_spec w 0) | destruct (Z.ltb_spec (w - 2 ^ wordsize) 0)];
    try reflexivity; lia.
Qed.

Lemma cong_sval w : cong (sval w) w.
Proof.
  unfold sval, cong. destruct (Z.testbit w wordtopbit); [|reflexivity].
  replace (w - 2 ^ wordsize) with (w + (-1) * 2 ^ wordsize) by lia.
  apply Z.mod_add, wordsize_pow_nonzero.
Qed.

(** A number in the signed range is the value of the word it wraps to. *)
Lemma sval_of_wrap v :
  - 2 ^ wordtopbit <= v < 2 ^ wordtopbit -> sval (v mod 2 ^ wordsize) = v.
Proof.
  intros Hv.
  pose proof (sval_range _ (mod_valid v)) as Hr.
  pose proof (cong_trans _ _ _ (cong_sval (v mod 2 ^ wordsize)) (cong_mod v)) as Hc.
  unfold cong in Hc.
  set (s := sval (v mod 2 ^ wordsize)) in *. clearbody s.
  unfold wordtopbit, wordsize in *. change (32 - 1) with 31 in *.
  change (2 ^ 32) with (2 * 2 ^ 31) in *.
  assert (E : (s - v) mod (2 * 2 ^ 31) = 0).
  { rewrite Zminus_mod, Hc, Z.sub_diag. reflexivity. }
  apply Z.mod_divide in E; [|lia]. destruct E as [k Ek].
  assert (k = 0) by nia. lia.
Qed.

Lemma testbit_of_negative x i :
  0 <= i -> - 2 ^ i <= x < 0 -> Z.testbit x i = true.
Proof.
  intros Hi Hx.
  assert (H : Z.b2z (Z.testbit x i) = 1).
  { rewrite Z.testbit_spec' by exact Hi.
    replace (x / 2 ^ i) with (-1); [reflexivity|].
    apply Z.div_unique with (r := x + 2 ^ i); lia. }
  destruct (Z.testbit x i); [reflexivity | discriminate].
Qed.

Lemma testbit_of_small x i :
  0 <= i -> 0 <= x < 2 ^ i -> Z.testbit x i = false.
Proof.
  intros Hi Hx.
  assert (H : Z.b2z (Z.testbit x i) = 0).
  { rewrite Z.testbit_spec' by exact Hi. rewrite Z.div_small by exact Hx. reflexivity. }
  destruct (Z.testbit x i); [discriminate | reflexivity].
Qed.

(** The sign bit of a number in the signed range. *)
Lemma testbit_sign v :
  - 2 ^ wordtopbit <= v < 2 ^ wordtopbit -> Z.testbit v wordtopbit = (v <? 0).
Proof.
  intros Hv. assert (0 <= wordtopbit) by (unfold wordtopbit, wordsize; lia).
  destruct (Z.ltb_spec v 0).
  - apply testbit_of_negative; lia.
  - apply testbit_of_small; lia.
Qed.

(** The bits of the two's-complement value: the sign bit repeats upwards. *)
Lemma sval_testbit w i :
  valid_word w -> 0 <= i -> Z.testbit (sval w) i = Z.testbit w (Z.min i wordtopbit).
Proof.
  intros Hw Hi.
  destruct (sval_cases w Hw) as [(Eb & E & H)|(Eb & E & H)]; rewrite E.
  - destruct (Z.le_gt_cases i wordtopbit).
    + rewrite Z.min_l by lia. reflexivity.
    + rewrite Z.min_r, Eb by lia. apply valid_word_high; [exact Hw | unfold wordtopbit in *; lia].
  - destruct (Z.le_gt_cases i wordtopbit).
    + rewrite Z.min_l by lia.
      rewrite <- (Z.mod_pow2_bits_low (w - 2 ^ wordsize) wordsize)
        by (unfold wordtopbit in *; lia).
      replace (w - 2 ^ wordsize) with (w + (-1) * 2 ^ wordsize) by lia.
      rewrite Z.mod_add by apply wordsize_pow_nonzero.
      apply Z.mod_pow2_bits_low. unfold wordtopbit in *. lia.
    + rewrite Z.min_r, Eb by lia. apply testbit_of_negative; [lia|].
      assert (2 ^ wordsize <= 2 ^ i)
        by (apply Z.pow_le_mono_r; unfold wordtopbit in *; lia).
      lia.
Qed.

Lemma init_mem_valid bufs : Forall valid_word bufs -> valid (init_mem bufs).
Proof.
  intros H l. unfold init_mem. destruct l; try (unfold valid_word, wordtopbit, wordsize; lia).
  revert n. induction H as [|w ws Hw _ IH]; intros [|n]; cbn [nth];
    try (unfold valid_word, wordsize; lia); [exact Hw | apply IH].
Qed.

Lemma init_mem_constants bufs : constants (init_mem bufs).
Proof. repeat split. Qed.

Lemma run_word_done {A} (c : M A) m l a m' :
  c m = Done (a, m') -> run_word c m l = Done (m' l).
Proof. intros E. unfold run_word. rewrite E. reflexivity. Qed.

(** * The claims *)

(** C1, as stated, fails: dividing 0 by -1 gives the quotient 0, whose sign
    bit is 0, while the operands' sign bits differ. *)
Lemma div2Word_sign_counterexample :
  valid_word 0 /\ valid_word (2 ^ wordsize - 1) /\ 2 ^ wordsize - 1 <> 0 /\
  ~ div2Word_claim 0 (2 ^ wordsize - 1).
Proof.
  split; [unfold valid_word, wordsize; lia|].
  split; [unfold valid_word, wordsize; lia|].
  split; [unfold wordsize; lia|].
  intros (u & m' & E & _ & Hq & _).
  assert (R : run_word (div2Word (Buf 2) (Buf 3) (Buf 0) (Buf 1) ;;
                        mulWord (Z.to_nat wordsize) (Buf 4) (Buf 2) (Buf 1) ;;
                        addWord (Buf 4) (Buf 4) (Buf 3))
                (init_mem [0; 2 ^ wordsize - 1]) (Buf 2) = Done 0)
    by (vm_compute; reflexivity).
  rewrite (run_word_done _ _ _ _ _ E) in R. injection R as R.
  rewrite R in Hq. vm_compute in Hq. discriminate.
Qed.

(** C1, amended: for every dividend and every non-zero divisor, multiplying
    the quotient of div2Word by the divisor (mulWord) and adding the remainder
    (addWord) gives back the dividend; the sign bit of the quotient is the
    exclusive or of the operands' sign bits whenever the quotient is not zero
    and the division is not that of the most negative word by minus one; the
    sign bit of the remainder is that of the dividend whenever the remainder
    is not zero. *)
Theorem div2Word_reconstructs (fuel : nat) (q r t a b : nat) (m : mem) :
  valid m -> constants m ->
  q <> r -> q <> a -> q <> b -> r <> a -> r <> b -> t <> q -> t <> r -> t <> b ->
  m (Buf b) <> 0 -> (Z.to_nat wordsize <= fuel)%nat ->
  returns (div2Word (Buf q) (Buf r) (Buf a) (Buf b) ;;
           mulWord fuel (Buf t) (Buf q) (Buf b) ;;
           addWord (Buf t) (Buf t) (Buf r)) m
    (fun _ m' =>
       let sA := Z.testbit (m (Buf a)) wordtopbit in
       let sB := Z.testbit (m (Buf b)) wordtopbit in
       m' (Buf t) = m (Buf a) /\
       (m' (Buf q) <> 0 ->
        ~ (m (Buf a) = 2 ^ wordtopbit /\ m (Buf b) = 2 ^ wordsize - 1) ->
        Z.testbit (m' (Buf q)) wordtopbit = xorb sA sB) /\
       (m' (Buf r) <> 0 -> Z.testbit (m' (Buf r)) wordtopbit = sA)).
Proof.
  intros Hv Hc Hqr Hqa Hqb Hra Hrb Htq Htr Htb HB Hfuel. cbv zeta.
  apply returns_bind.
  eapply returns_weaken; [apply div2Word_spec; assumption|].
  cbv zeta. intros u1 m1 (Hv1 & Hs1 & H1).
  destruct (Z.eqb_spec (m (Buf b)) 0) as [E0|_]; [contradiction|].
  destruct H1 as [Eq1 Er1].
  assert (Ez1 : m1 zeroWord = 0).
  { rewrite (Hs1 zeroWord) by (unfold div_frame; notin). apply Hc. }
  assert (Eb1 : m1 (Buf b) = m (Buf b)) by (apply Hs1; unfold div_frame; notin).
  apply returns_bind.
  eapply returns_weaken; [apply mulWord_spec; assumption|].
  intros u2 m2 (Hv2 & Et2 & Hs2).
  eapply returns_weaken; [apply addWord_spec, Hv2|].
  intros u3 m3 (Hv3 & Et3 & Hs3).
  assert (Eq3 : m3 (Buf q) = m1 (Buf q)).
  { rewrite (Hs3 (Buf q)) by notin. apply Hs2. unfold mul_frame. notin. }
  assert (Er3 : m3 (Buf r) = m1 (Buf r)).
  { rewrite (Hs3 (Buf r)) by notin. apply Hs2. unfold mul_frame. notin. }
  split; [|split].
  - apply cong_valid; [apply Hv3 | apply Hv |].
    rewrite Et3, Et2, (Hs2 (Buf r)), Eq1, Er1, Eb1 by (unfold mul_frame; notin).
    eapply cong_trans; [apply cong_mod|].
    eapply cong_trans; [apply cong_add; [apply cong_mod | apply cong_refl]|].
    apply reconstruct. fold (magnitude (m (Buf b))).
    pose proof (magnitude_range _ (Hv (Buf b))) as [_ Hpos]. specialize (Hpos HB). lia.
  - rewrite Eq3, Eq1. apply quotient_sign; [apply Hv | apply Hv | exact HB].
  - rewrite Er3, Er1. apply remainder_sign; [apply Hv | apply Hv | exact HB].
Qed.

Lemma div2Word_reconstructs_witness :
  returns (div2Word (Buf 2) (Buf 3) (Buf 0) (Buf 1) ;;
           mulWord 32 (Buf 4) (Buf 2) (Buf 1) ;;
           addWord (Buf 4) (Buf 4) (Buf 3)) (init_mem [4294967289; 2])
    (fun _ m' =>
       m' (Buf 4) = 4294967289 /\
       (m' (Buf 2) <> 0 ->
        ~ (init_mem [4294967289; 2] (Buf 0) = 2 ^ wordtopbit /\
           init_mem [4294967289; 2] (Buf 1) = 2 ^ wordsize - 1) ->
        Z.testbit (m' (Buf 2)) wordtopbit = true) /\
       (m' (Buf 3) <> 0 -> Z.testbit (m' (Buf 3)) wordtopbit = true)).
Proof.
  apply (div2Word_reconstructs 32 2 3 4 0 1 (init_mem [4294967289; 2])).
  - apply init_mem_valid.
    repeat (apply Forall_cons; [unfold valid_word, wordsize; lia|]). apply Forall_nil.
  - apply init_mem_constants.
  - lia.
  - lia.
  - lia.
  - lia.
  - lia.
  - lia.
  - lia.
  - lia.
  - cbn. lia.
  - vm_compute. lia.
Defined.

(** C2, at the failing input: div2Word clears the quotient buffer before it
    reads its operands, so with the quotient buffer being op1 (holding 6, op2
    holding 3) the quotient is 0 and not the 2 that a separate buffer gets;
    with it being op2 the divisor is read as zero and the quotient saturates;
    with the remainder buffer being op1 the quotient is 0 again. *)
Theorem div2Word_result_aliasing :
  run_word (div2Word (Buf 3) (Buf 2) (Buf 0) (Buf 1)) (init_mem [6; 3]) (Buf 3) = Done 2 /\
  run_word (div2Word (Buf 0) (Buf 2) (Buf 0) (Buf 1)) (init_mem [6; 3]) (Buf 0) = Done 0 /\
  run_word (div2Word (Buf 1) (Buf 2) (Buf 0) (Buf 1)) (init_mem [6; 3]) (Buf 1)
    = Done (2 ^ wordtopbit - 1) /\
  run_word (div2Word (Buf 3) (Buf 0) (Buf 0) (Buf 1)) (init_mem [6; 3]) (Buf 3) = Done 0.
Proof. repeat split; vm_compute; reflexivity. Qed.

(** C3: dividing by the zero word (the constant itself or any buffer that
    holds it) gives the quotient max-word when the dividend is not negative
    and min-word when it is, and the remainder zero; the call returns. *)
Theorem div2Word_by_zero (q r : nat) (a b : loc) (m : mem) :
  valid m -> constants m ->
  q <> r -> a <> Buf q -> a <> Buf r -> b <> Buf q -> b <> Buf r ->
  m b = 0 ->
  returns (div2Word (Buf q) (Buf r) a b) m (fun _ m' =>
    m' (Buf q) = (if 0 <=? sval (m a) then 2 ^ wordtopbit - 1 else 2 ^ wordtopbit) /\
    m' (Buf r) = 0).
Proof.
  intros Hv (Hz & Hmax & Hmin) Hqr Haq Har Hbq Hbr HB. unfold div2Word.
  apply returns_bind, returns_setWord.
  apply returns_bind, returns_setWord.
  upd_simpl. rewrite Hz.
  set (m0 := upd (upd m (Buf q) 0) (Buf r) 0).
  assert (Hv0 : valid m0).
  { unfold m0. repeat apply valid_upd; try exact Hv; unfold valid_word, wordsize; lia. }
  apply returns_bind. eapply returns_weaken; [apply testEqWord_spec, Hv0|].
  intros z m' [-> ->].
  replace (m0 b) with 0 by (unfold m0; upd_simpl; symmetry; exact HB).
  cbn [Z.eqb].
  apply returns_bind. eapply returns_weaken; [apply testGeWord_spec|].
  intros ge m' [-> ->]. apply returns_setWord.
  replace (m0 a) with (m a) by (unfold m0; upd_simpl; reflexivity).
  rewrite Z.leb_antisym, sval_negative by apply Hv.
  split.
  - upd_simpl. unfold m0.
    destruct (Z.testbit (m a) wordtopbit); cbn [negb]; upd_simpl; assumption.
  - rewrite upd_other by congruence. unfold m0. upd_simpl. reflexivity.
Qed.

Lemma div2Word_by_zero_witness :
  returns (div2Word (Buf 2) (Buf 3) (Buf 0) zeroWord) (init_mem [4294967289])
    (fun _ m' => m' (Buf 2) = 2 ^ wordtopbit /\ m' (Buf 3) = 0).
Proof.
  apply (div2Word_by_zero 2 3 (Buf 0) zeroWord (init_mem [4294967289])).
  - apply init_mem_valid.
    repeat (apply Forall_cons; [unfold valid_word, wordsize; lia|]). apply Forall_nil.
  - apply init_mem_constants.
  - lia.
  - discriminate.
  - discriminate.
  - discriminate.
  - discriminate.
  - reflexivity.
Defined.

(** C4, at the failing input: cshWord never looks at the sign of the count,
    so a shift by 17 followed by a shift by -17 rotates the word 1 by 34
    positions and leaves 4; and a shift of the word 1 by 1 into a cleared
    buffer leaves 0, the bit being lost. *)
Theorem cshWord_not_inverted :
  run_word (cshWord (Buf 1) (Buf 0) 17 ;; cshWord (Buf 2) (Buf 1) (-17))
    (init_mem [1]) (Buf 2) = Done 4 /\
  run_word (cshWord (Buf 1) (Buf 0) 1) (init_mem [1]) (Buf 1) = Done 0.
Proof. split; vm_compute; reflexivity. Qed.

(** C5, at the failing input: cshWord reduces a count above 32 by 32 once, so
    with the count 100 it works with 68 and writes bit 67 of the result. *)
Theorem cshWord_out_of_range :
  cshWord (Buf 1) (Buf 0) 100 (init_mem [1]) = BadIndex 67.
Proof. vm_compute. reflexivity. Qed.

(** C6: addWord returns, and leaves the sum of the operands modulo
    [2 ^ wordsize]: the two's-complement value of the result is the sum of the
    operands' values modulo [2 ^ wordsize]; no overflow is reported. *)
Theorem addWord_wraps (r a b : loc) (m : mem) :
  valid m ->
  returns (addWord r a b) m (fun _ m' =>
    m' r = (m a + m b) mod 2 ^ wordsize /\
    sval (m' r) mod 2 ^ wordsize = (sval (m a) + sval (m b)) mod 2 ^ wordsize /\
    - 2 ^ wordtopbit <= sval (m' r) < 2 ^ wordtopbit).
Proof.
  intros Hv. eapply returns_weaken; [apply addWord_spec, Hv|].
  intros u m' (Hv' & E & _). split; [exact E|]. split; [|apply sval_range, Hv'].
  change (cong (sval (m' r)) (sval (m a) + sval (m b))).
  eapply cong_trans; [apply cong_sval|]. rewrite E.
  eapply cong_trans; [apply cong_mod|].
  apply cong_add; apply cong_sym, cong_sval.
Qed.

Lemma addWord_wraps_witness :
  returns (addWord (Buf 0) (Buf 0) (Buf 1)) (init_mem [2147483647; 1]) (fun _ m' =>
    m' (Buf 0) = 2147483648 /\
    sval (m' (Buf 0)) mod 2 ^ wordsize = (2147483647 + 1) mod 2 ^ wordsize /\
    - 2 ^ wordtopbit <= sval (m' (Buf 0)) < 2 ^ wordtopbit).
Proof.
  apply (addWord_wraps (Buf 0) (Buf 0) (Buf 1) (init_mem [2147483647; 1])).
  apply init_mem_valid.
  repeat (apply Forall_cons; [unfold valid_word, wordsize; lia|]). apply Forall_nil.
Defined.

(** C8: subWord leaves the sum of the first operand, the bitwise complement
    of the second (the word [2 ^ wordsize - 1 - b], see [testbit_complement])
    and the carry 1, modulo [2 ^ wordsize], which is the difference of the
    operands modulo [2 ^ wordsize]; negativeWord leaves the two's-complement
    negation of its operand, the complement plus one; and addWord of the first
    operand and that negation leaves the word that subWord leaves. *)
Theorem subWord_is_add_negative (r1 r2 t a b : nat) (m : mem) :
  valid m -> constants m -> t <> a ->
  returns (subWord (Buf r1) (Buf a) (Buf b)) m (fun _ m1 =>
    m1 (Buf r1) = (m (Buf a) + (2 ^ wordsize - 1 - m (Buf b)) + 1) mod 2 ^ wordsize /\
    m1 (Buf r1) = (m (Buf a) - m (Buf b)) mod 2 ^ wordsize /\
    returns (negativeWord (Buf t) (Buf b)) m (fun _ mn =>
      mn (Buf t) = (2 ^ wordsize - 1 - m (Buf b) + 1) mod 2 ^ wordsize /\
      mn (Buf t) = (- m (Buf b)) mod 2 ^ wordsize /\
      returns (addWord (Buf r2) (Buf a) (Buf t)) mn (fun _ m2 =>
        m2 (Buf r2) = (m (Buf a) + mn (Buf t)) mod 2 ^ wordsize /\
        m2 (Buf r2) = m1 (Buf r1)))).
Proof.
  intros Hv (Hz & _) Hta.
  assert (HN : 2 ^ wordsize <> 0) by apply wordsize_pow_nonzero.
  eapply returns_weaken; [apply subWord_spec, Hv|].
  intros u1 m1 (_ & E1 & _). split; [|split; [exact E1|]].
  { rewrite E1.
    replace (m (Buf a) + (2 ^ wordsize - 1 - m (Buf b)) + 1)
      with (m (Buf a) - m (Buf b) + 1 * 2 ^ wordsize) by lia.
    symmetry. apply Z.mod_add, HN. }
  eapply returns_weaken; [apply negativeWord_spec; assumption|].
  intros u2 mn (Hvn & En & Hsn). split; [|split; [exact En|]].
  { rewrite En.
    replace (2 ^ wordsize - 1 - m (Buf b) + 1) with (- m (Buf b) + 1 * 2 ^ wordsize) by lia.
    symmetry. apply Z.mod_add, HN. }
  eapply returns_weaken; [apply addWord_spec, Hvn|].
  intros u3 m2 (_ & E3 & _).
  rewrite (Hsn (Buf a)) in E3 by notin. split; [exact E3|].
  rewrite E3, E1, En.
  rewrite Z.add_mod_idemp_r by exact HN.
  rewrite Z.add_opp_r. reflexivity.
Qed.

Lemma subWord_is_add_negative_witness :
  returns (subWord (Buf 2) (Buf 0) (Buf 1)) (init_mem [5; 7]) (fun _ m1 =>
    m1 (Buf 2) = (5 + (2 ^ wordsize - 1 - 7) + 1) mod 2 ^ wordsize /\
    m1 (Buf 2) = (5 - 7) mod 2 ^ wordsize /\
    returns (negativeWord (Buf 4) (Buf 1)) (init_mem [5; 7]) (fun _ mn =>
      mn (Buf 4) = (2 ^ wordsize - 1 - 7 + 1) mod 2 ^ wordsize /\
      mn (Buf 4) = (- 7) mod 2 ^ wordsize /\
      returns (addWord (Buf 3) (Buf 0) (Buf 4)) mn (fun _ m2 =>
        m2 (Buf 3) = (5 + mn (Buf 4)) mod 2 ^ wordsize /\
        m2 (Buf 3) = m1 (Buf 2)))).
Proof.
  apply (subWord_is_add_negative 2 3 4 0 1 (init_mem [5; 7])).
  - apply init_mem_valid.
    repeat (apply Forall_cons; [unfold valid_word, wordsize; lia|]). apply Forall_nil.
  - apply init_mem_constants.
  - lia.
Defined.

(** C9: the loop of mulWord ends within [wordsize] iterations: with that
    iteration budget, or any larger one, mulWord returns (and leaves the
    product modulo [2 ^ wordsize]). *)
Theorem mulWord_terminates (fuel : nat) (r a b : nat) (m : mem) :
  valid m -> constants m -> (Z.to_nat wordsize <= fuel)%nat ->
  exists m', mulWord fuel (Buf r) (Buf a) (Buf b) m = Done (tt, m') /\
             m' (Buf r) = (m (Buf a) * m (Buf b)) mod 2 ^ wordsize.
Proof.
  intros Hv (Hz & _) Hfuel.
  destruct (mulWord_spec fuel r a b m Hv Hz Hfuel) as ([] & m' & E & _ & Er & _).
  exists m'. split; [exact E | exact Er].
Qed.

Lemma mulWord_terminates_witness :
  exists m', mulWord 32 (Buf 2) (Buf 0) (Buf 1) (init_mem [3; 2147483648]) = Done (tt, m') /\
             m' (Buf 2) = (3 * 2147483648) mod 2 ^ wordsize.
Proof.
  apply (mulWord_terminates 32 2 0 1 (init_mem [3; 2147483648])).
  - apply init_mem_valid.
    repeat (apply Forall_cons; [unfold valid_word, wordsize; lia|]). apply Forall_nil.
  - apply init_mem_constants.
  - vm_compute. lia.
Defined.

(** C10: negating the min-word gives the min-word, still negative, both by
    negativeWord (as div2Word negates) and by notWord followed by adding one
    (as mulWord negates). *)
Theorem negativeWord_minWord (r op l one : loc) (m : mem) :
  valid m -> constants m ->
  m op = 2 ^ wordtopbit -> m l = 2 ^ wordtopbit -> m one = 1 -> l <> one ->
  returns (negativeWord r op) m (fun _ m' =>
    m' r = 2 ^ wordtopbit /\ Z.testbit (m' r) wordtopbit = true) /\
  returns (notWord l l ;; addWord l l one) m (fun _ m' =>
    m' l = 2 ^ wordtopbit /\ Z.testbit (m' l) wordtopbit = true).
Proof.
  intros Hv (Hz & _) Hop Hl Hone Hn.
  assert (Hmin : (- 2 ^ wordtopbit) mod 2 ^ wordsize = 2 ^ wordtopbit) by reflexivity.
  assert (Hbit : Z.testbit (2 ^ wordtopbit) wordtopbit = true) by reflexivity.
  split.
  - eapply returns_weaken; [apply negativeWord_spec; assumption|].
    intros u m' (_ & E & _). rewrite E, Hop, Hmin. auto.
  - eapply returns_weaken; [apply not_add_one_spec; assumption|].
    intros u m' (_ & E & _). rewrite E, Hl, Hmin. auto.
Qed.

Lemma negativeWord_minWord_witness :
  returns (negativeWord (Buf 1) minWord) (upd (init_mem [2147483648]) mul_one 1)
    (fun _ m' => m' (Buf 1) = 2 ^ wordtopbit /\ Z.testbit (m' (Buf 1)) wordtopbit = true) /\
  returns (notWord (Buf 0) (Buf 0) ;; addWord (Buf 0) (Buf 0) mul_one)
    (upd (init_mem [2147483648]) mul_one 1)
    (fun _ m' => m' (Buf 0) = 2 ^ wordtopbit /\ Z.testbit (m' (Buf 0)) wordtopbit = true).
Proof.
  apply (negativeWord_minWord (Buf 1) minWord (Buf 0) mul_one
           (upd (init_mem [2147483648]) mul_one 1)).
  - apply valid_upd; [|unfold valid_word, wordsize; lia].
    apply init_mem_valid.
    repeat (apply Forall_cons; [unfold valid_word, wordsize; lia|]). apply Forall_nil.
  - repeat split.
  - reflexivity.
  - reflexivity.
  - reflexivity.
  - discriminate.
Defined.

(** C7, as stated, fails: shifting [2 ^ 30] left by one leaves the zero word,
    because the sign bit is kept, and 0 is not [2 ^ 31] even up to wrapping. *)
Lemma ashWord_left_counterexample :
  valid_word (2 ^ 30) /\ ~ ashWord_claim (2 ^ 30) 1.
Proof.
  split; [unfold valid_word, wordsize; lia|].
  intros (u & m' & E & H).
  assert (R : run_word (ashWord (Buf 1) (Buf 0) 1) (init_mem [2 ^ 30]) (Buf 1) = Done 0)
    by (vm_compute; reflexivity).
  rewrite (run_word_done _ _ _ _ _ E) in R. injection R as R.
  rewrite R in H. vm_compute in H. discriminate.
Qed.

Lemma clamp_shift_small count :
  - wordtopbit <= count <= wordtopbit -> clamp_shift count = Z.abs count.
Proof.
  intros H. unfold clamp_shift, abs. cbv zeta.
  destruct (Z.geb_spec (Z.abs count) wordsize); [unfold wordtopbit in H; lia | reflexivity].
Qed.

(** C7, amended: for a count of magnitude at most [wordsize - 1], a right
    shift divides the two's-complement value by the power of two, rounding
    towards minus infinity; a left shift keeps the sign bit and moves the
    other bits, so it multiplies the value by the power of two whenever the
    product is within the range of a word. *)
Theorem ashWord_power_of_two (r op : nat) (count : Z) (m : mem) :
  valid m -> - wordtopbit <= count <= wordtopbit ->
  returns (ashWord (Buf r) (Buf op) count) m (fun _ m' =>
    (count < 0 -> sval (m' (Buf r)) = sval (m (Buf op)) / 2 ^ (- count)) /\
    (0 < count ->
     Z.testbit (m' (Buf r)) wordtopbit = Z.testbit (m (Buf op)) wordtopbit /\
     m' (Buf r) mod 2 ^ wordtopbit = (m (Buf op) * 2 ^ count) mod 2 ^ wordtopbit) /\
    (0 < count ->
     - 2 ^ wordtopbit <= sval (m (Buf op)) * 2 ^ count < 2 ^ wordtopbit ->
     sval (m' (Buf r)) = sval (m (Buf op)) * 2 ^ count)).
Proof.
  intros Hv Hc.
  eapply returns_weaken; [apply ashWord_spec; [exact Hv | discriminate]|].
  intros u m' (Hv' & Hbits & _).
  pose proof (Hv (Buf op)) as HW. set (W := m (Buf op)) in *.
  pose proof (sval_range W HW) as Hs.
  assert (Htop : 0 <= wordtopbit) by (unfold wordtopbit, wordsize; lia).
  unfold ash_bit in Hbits. cbv zeta in Hbits.
  rewrite (clamp_shift_small count Hc) in Hbits.
  split; [|split].
  - intros Hneg. rewrite Z.abs_neq in Hbits by lia. set (c := - count) in *.
    assert (Hc0 : 0 < c <= wordtopbit) by (unfold c; lia).
    assert (HP : 0 < 2 ^ c) by (apply Z.pow_pos_nonneg; lia).
    assert (E : m' (Buf r) = (sval W / 2 ^ c) mod 2 ^ wordsize).
    { apply word_ext; [apply Hv' | apply mod_valid |].
      intros i Hi. rewrite Hbits by exact Hi.
      rewrite Z.mod_pow2_bits_low by (unfold wordtopbit in Hi; lia).
      rewrite <- Z.shiftr_div_pow2, Z.shiftr_spec by lia.
      rewrite sval_testbit by (exact HW || lia).
      destruct (Z.ltb_spec count 0); [|lia].
      destruct (Z.eqb_spec i wordtopbit) as [->|Hne].
      - rewrite Z.min_r by lia. reflexivity.
      - destruct (Z.leb_spec i (wordtopbit - 1 - c)).
        + rewrite Z.min_l by lia. reflexivity.
        + rewrite Z.min_r by lia. reflexivity. }
    rewrite E. apply sval_of_wrap. split.
    + apply Z.div_le_lower_bound; [exact HP|]. nia.
    + apply Z.div_lt_upper_bound; [exact HP|]. nia.
  - intros Hpos. rewrite Z.abs_eq in Hbits by lia.
    destruct (Z.ltb_spec count 0); [lia|].
    split.
    + rewrite Hbits by lia. rewrite Z.eqb_refl. reflexivity.
    + apply Z.bits_inj'. intros i Hi.
      destruct (Z.ltb_spec i wordtopbit).
      * rewrite !Z.mod_pow2_bits_low by lia. rewrite Hbits by lia.
        destruct (Z.eqb_spec i wordtopbit); [lia|].
        rewrite Z.mul_pow2_bits by lia.
        destruct (Z.ltb_spec i count); [|reflexivity].
        symmetry. apply Z.testbit_neg_r. lia.
      * rewrite !Z.mod_pow2_bits_high by lia. reflexivity.
  - intros Hpos Hfit. rewrite Z.abs_eq in Hbits by lia.
    destruct (Z.ltb_spec count 0); [lia|].
    assert (HP : 0 < 2 ^ count) by (apply Z.pow_pos_nonneg; lia).
    assert (E : m' (Buf r) = (sval W * 2 ^ count) mod 2 ^ wordsize).
    { apply word_ext; [apply Hv' | apply mod_valid |].
      intros i Hi. rewrite Hbits by exact Hi.
      rewrite Z.mod_pow2_bits_low by (unfold wordtopbit in Hi; lia).
      destruct (Z.eqb_spec i wordtopbit) as [->|Hne].
      - rewrite (testbit_sign (sval W * 2 ^ count)) by exact Hfit.
        rewrite <- sval_negative by exact HW.
        destruct (Z.ltb_spec (sval W) 0), (Z.ltb_spec (sval W * 2 ^ count) 0);
          try reflexivity; nia.
      - rewrite Z.mul_pow2_bits by lia.
        destruct (Z.ltb_spec i count).
        + symmetry. apply Z.testbit_neg_r. lia.
        + rewrite sval_testbit by (exact HW || lia). rewrite Z.min_l by lia. reflexivity. }
    rewrite E. apply sval_of_wrap, Hfit.
Qed.

Lemma ashWord_power_of_two_witness :
  returns (ashWord (Buf 1) (Buf 0) (-3)) (init_mem [4294967289]) (fun _ m' =>
    (-3 < 0 -> sval (m' (Buf 1)) = sval 4294967289 / 2 ^ (- -3)) /\
    (0 < -3 ->
     Z.testbit (m' (Buf 1)) wordtopbit = Z.testbit 4294967289 wordtopbit /\
     m' (Buf 1) mod 2 ^ wordtopbit = (4294967289 * 2 ^ (-3)) mod 2 ^ wordtopbit) /\
    (0 < -3 ->
     - 2 ^ wordtopbit <= sval 4294967289 * 2 ^ (-3) < 2 ^ wordtopbit ->
     sval (m' (Buf 1)) = sval 4294967289 * 2 ^ (-3))).
Proof.
  apply (ashWord_power_of_two 1 0 (-3) (init_mem [4294967289])).
  - apply init_mem_valid.
    repeat (apply Forall_cons; [unfold valid_word, wordsize; lia|]). apply Forall_nil.
  - unfold wordtopbit, wordsize. lia.
Defined.

(** * Further properties of the operations *)

(** ** Loops that write one bit per index and may read the result buffer

    As [write_down_spec], but the value written at an index may be read from
    the store, the result buffer included, as long as it is read at an index
    the loop has not written yet. *)

Lemma write_down_alias r (f : Z -> Z) (v : Z -> bit) body from to m :
  valid m -> to <= from + 1 ->
  (forall b, to <= b <= from -> 0 <= f b <= wordtopbit) ->
  (forall b1 b2, to <= b1 <= from -> to <= b2 <= from -> f b1 = f b2 -> b1 = b2) ->
  (forall b m', to <= b <= from -> same_except [r] m m' ->
     (forall i, (forall b', b < b' <= from -> f b' <> i) ->
        Z.testbit (m' r) i = Z.testbit (m r) i) ->
     body b m' = setBitOfWord r (f b) (v b) m') ->
  returns (for_down from to body) m (fun _ m' =>
    valid m' /\ same_except [r] m m' /\
    (forall b, to <= b <= from -> Z.testbit (m' r) (f b) = negb (v b =? 0)) /\
    (forall i, (forall b, to <= b <= from -> f b <> i) ->
       Z.testbit (m' r) i = Z.testbit (m r) i)).
Proof.
  intros Hv Hle Hf Hinj Hbody. unfold for_down.
  eapply returns_weaken.
  - apply (returns_fold_down (fun k (_ : unit) m' =>
      valid m' /\ same_except [r] m m' /\
      (forall b, k < b <= from -> Z.testbit (m' r) (f b) = negb (v b =? 0)) /\
      (forall i, (forall b, k < b <= from -> f b <> i) ->
         Z.testbit (m' r) i = Z.testbit (m r) i))).
    + exact Hle.
    + split; [exact Hv|]. split; [apply same_except_refl|]. split.
      * intros b Hb. lia.
      * intros i _. reflexivity.
    + intros b u m1 Hb (Hv1 & Hs1 & Hw1 & Hk1).
      exists tt, (upd m1 r (put_bit (m1 r) (f b) (v b))). split.
      { rewrite Hbody by assumption. apply setBitOfWord_ok, Hf, Hb. }
      pose proof (Hf b Hb) as Hfb.
      split; [|split; [|split]].
      * apply valid_upd; [exact Hv1|]. apply put_bit_valid; [apply Hv1 | exact Hfb].
      * apply same_except_upd; [left; reflexivity | exact Hs1].
      * intros b' Hb'. rewrite upd_same, testbit_put_bit by lia.
        destruct (Z.eqb_spec (f b') (f b)) as [E|E].
        -- apply Hinj in E; [|lia|lia]. subst b'. reflexivity.
        -- apply Hw1. assert (b' <> b) by congruence. lia.
      * intros i Hi. rewrite upd_same, testbit_put_bit by lia.
        destruct (Z.eqb_spec i (f b)) as [E|E].
        -- exfalso. apply (Hi b); [lia | congruence].
        -- apply Hk1. intros b' Hb'. apply Hi. lia.
  - intros u m' (Hv1 & Hs1 & Hw1 & Hk1).
    split; [exact Hv1|]. split; [exact Hs1|]. split.
    + intros b Hb. apply Hw1. lia.
    + intros i Hi. apply Hk1. intros b Hb. apply Hi. lia.
Qed.

Lemma write_up_alias r (f : Z -> Z) (v : Z -> bit) body from to m :
  valid m -> from <= to + 1 ->
  (forall b, from <= b <= to -> 0 <= f b <= wordtopbit) ->
  (forall b1 b2, from <= b1 <= to -> from <= b2 <= to -> f b1 = f b2 -> b1 = b2) ->
  (forall b m', from <= b <= to -> same_except [r] m m' ->
     (forall i, (forall b', from <= b' < b -> f b' <> i) ->
        Z.testbit (m' r) i = Z.testbit (m r) i) ->
     body b m' = setBitOfWord r (f b) (v b) m') ->
  returns (for_up from to body) m (fun _ m' =>
    valid m' /\ same_except [r] m m' /\
    (forall b, from <= b <= to -> Z.testbit (m' r) (f b) = negb (v b =? 0)) /\
    (forall i, (forall b, from <= b <= to -> f b <> i) ->
       Z.testbit (m' r) i = Z.testbit (m r) i)).
Proof.
  intros Hv Hle Hf Hinj Hbody. unfold for_up.
  eapply returns_weaken.
  - apply (returns_fold_up (fun k (_ : unit) m' =>
      valid m' /\ same_except [r] m m' /\
      (forall b, from <= b < k -> Z.testbit (m' r) (f b) = negb (v b =? 0)) /\
      (forall i, (forall b, from <= b < k -> f b <> i) ->
         Z.testbit (m' r) i = Z.testbit (m r) i))).
    + exact Hle.
    + split; [exact Hv|]. split; [apply same_except_refl|]. split.
      * intros b Hb. lia.
      * intros i _. reflexivity.
    + intros b u m1 Hb (Hv1 & Hs1 & Hw1 & Hk1).
      exists tt, (upd m1 r (put_bit (m1 r) (f b) (v b))). split.
      { rewrite Hbody by assumption. apply setBitOfWord_ok, Hf, Hb. }
      pose proof (Hf b Hb) as Hfb.
      split; [|split; [|split]].
      * apply valid_upd; [exact Hv1|]. apply put_bit_valid; [apply Hv1 | exact Hfb].
      * apply same_except_upd; [left; reflexivity | exact Hs1].
      * intros b' Hb'. rewrite upd_same, testbit_put_bit by lia.
        destruct (Z.eqb_spec (f b') (f b)) as [E|E].
        -- apply Hinj in E; [|lia|lia]. subst b'. reflexivity.
        -- apply Hw1. assert (b' <> b) by congruence. lia.
      * intros i Hi. rewrite upd_same, testbit_put_bit by lia.
        destruct (Z.eqb_spec i (f b)) as [E|E].
        -- exfalso. apply (Hi b); [lia | congruence].
        -- apply Hk1. intros b' Hb'. apply Hi. lia.
  - intros u m' (Hv1 & Hs1 & Hw1 & Hk1).
    split; [exact Hv1|]. split; [exact Hs1|]. split.
    + intros b Hb. apply Hw1. lia.
    + intros i Hi. apply Hk1. intros b Hb. apply Hi. lia.
Qed.

(** Copying bit [b] of a buffer to bit [b] of the result buffer, the two
    possibly being the same buffer. *)
Lemma copy_same_index_eq src r b m m' :
  0 <= b <= wordtopbit -> same_except [r] m m' ->
  Z.testbit (m' r) b = Z.testbit (m r) b ->
  (t <- getBitOfWord src b ;; setBitOfWord r b t) m'
  = setBitOfWord r b (Z.b2z (Z.testbit (m src) b)) m'.
Proof.
  intros Hb Hs Hr. rewrite (bind_done _ _ _ _ _ (getBitOfWord_ok src b m' Hb)).
  destruct (loc_eq_dec src r) as [->|Hn].
  - rewrite Hr. reflexivity.
  - rewrite (Hs src); [reflexivity|]. intros [E|[]]. congruence.
Qed.

Lemma mask_count_range count : 0 <= mask_count count <= wordsize.
Proof.
  unfold mask_count, abs, wordsize. cbv zeta.
  destruct (Z.gtb_spec (Z.abs count) 32); lia.
Qed.

(** maskWord, bit by bit: a positive count keeps the low bits, a negative
    count the high bits; the operand may be the result buffer. *)
Lemma maskWord_spec r op count m :
  valid m ->
  returns (maskWord r op count) m (fun _ m' =>
    valid m' /\
    m' r = (if count <? 0
            then 2 ^ (wordsize - mask_count count) * (m op / 2 ^ (wordsize - mask_count count))
            else m op mod 2 ^ mask_count count) /\
    same_except [r] m m').
Proof.
  intros Hv. unfold maskWord. cbv zeta. fold (mask_count count).
  pose proof (mask_count_range count) as Hc. set (c := mask_count count) in *.
  clearbody c.
  assert (HW : valid_word (m op)) by apply Hv.
  destruct (count <? 0).
  - apply returns_bind. eapply returns_weaken.
    { apply (write_down_alias r (fun b => b) (fun b => Z.b2z (Z.testbit (m op) b))
               _ wordtopbit (wordtopbit - c + 1) m Hv);
        try (unfold wordtopbit in *; lia).
      intros b m' Hb Hs Hk. apply copy_same_index_eq; [unfold wordtopbit in *; lia | exact Hs |].
      apply Hk. intros b' Hb'. lia. }
    intros u m1 (Hv1 & Hs1 & Hw1 & Hk1).
    eapply returns_weaken.
    { apply (write_down_alias r (fun b => b) (fun _ => 0)
               _ (wordtopbit - c) 0 m1 Hv1); try (unfold wordtopbit in *; lia).
      intros b m' Hb Hs Hk. reflexivity. }
    intros u' m2 (Hv2 & Hs2 & Hw2 & Hk2).
    split; [exact Hv2|]. split; [|eapply same_except_trans; eassumption].
    set (k := wordsize - c) in *.
    assert (Hk : 0 <= k <= wordsize) by (unfold k; lia).
    assert (HP : 0 < 2 ^ k) by (apply Z.pow_pos_nonneg; lia).
    apply word_ext; [apply Hv2 | |].
    { destruct HW as [H0 H1]. split.
      - apply Z.mul_nonneg_nonneg; [lia | apply Z.div_pos; lia].
      - pose proof (Z.mul_div_le (m op) (2 ^ k) HP). lia. }
    intros i Hi. rewrite Z.mul_comm, Z.mul_pow2_bits by lia.
    destruct (Z.le_gt_cases k i) as [Hhi|Hlo].
    + rewrite Hk2 by (intros b Hb; unfold k, wordtopbit in *; lia).
      rewrite (Hw1 i) by (unfold k, wordtopbit in *; lia).
      rewrite b2z_eqb_0, negb_involutive.
      rewrite Z.div_pow2_bits by lia. f_equal. lia.
    + rewrite (Hw2 i) by (unfold k, wordtopbit in *; lia).
      symmetry. apply Z.testbit_neg_r. lia.
  - apply returns_bind. eapply returns_weaken.
    { apply (write_up_alias r (fun b => b) (fun b => Z.b2z (Z.testbit (m op) b))
               _ 0 (c - 1) m Hv); try (unfold wordtopbit in *; lia).
      intros b m' Hb Hs Hk. apply copy_same_index_eq; [unfold wordtopbit in *; lia | exact Hs |].
      apply Hk. intros b' Hb'. lia. }
    intros u m1 (Hv1 & Hs1 & Hw1 & Hk1).
    eapply returns_weaken.
    { apply (write_up_alias r (fun b => b) (fun _ => 0)
               _ c wordtopbit m1 Hv1); try (unfold wordtopbit in *; lia).
      intros b m' Hb Hs Hk. reflexivity. }
    intros u' m2 (Hv2 & Hs2 & Hw2 & Hk2).
    split; [exact Hv2|]. split; [|eapply same_except_trans; eassumption].
    apply word_ext; [apply Hv2 | |].
    { destruct HW as [H0 H1].
      pose proof (Z.mod_pos_bound (m op) (2 ^ c) ltac:(apply Z.pow_pos_nonneg; lia)).
      pose proof (Z.mod_le (m op) (2 ^ c) H0 ltac:(apply Z.pow_pos_nonneg; lia)).
      split; lia. }
    intros i Hi.
    destruct (Z.lt_ge_cases i c) as [Hlo|Hhi].
    + rewrite Z.mod_pow2_bits_low by lia.
      rewrite Hk2 by (intros b Hb; lia).
      rewrite (Hw1 i) by lia. rewrite b2z_eqb_0, negb_involutive. reflexivity.
    + rewrite Z.mod_pow2_bits_high by lia.
      apply (Hw2 i). lia.
Qed.

(** ** Circular shift *)

Lemma csh_count_range count : Z.abs count <= 64 -> 0 <= csh_count count <= 32.
Proof.
  intros H. unfold csh_count, abs. cbv zeta.
  destruct (Z.gtb_spec (Z.abs count) 32); lia.
Qed.

Lemma rem_once b n : 0 < n -> n <= b < 2 * n -> Z.rem b n = b - n.
Proof.
  intros Hn Hb. rewrite Z.rem_mod_nonneg by lia.
  symmetry. apply Z.mod_unique_pos with (q := 1); lia.
Qed.

(** cshWord, bit by bit, for every count of magnitude at most 64: the call
    returns, and the result buffer holds the bits [csh_bit] describes. *)
Lemma cshWord_spec r op count m :
  valid m -> r <> csh_localop -> Z.abs count <= 64 ->
  returns (cshWord r op count) m (fun _ m' =>
    valid m' /\
    (forall i, 0 <= i <= wordtopbit ->
       Z.testbit (m' r) i = csh_bit (m op) (m r) (csh_count count) i) /\
    same_except [r; csh_localop] m m').
Proof.
  intros Hv Hr Hcount. unfold cshWord. cbv zeta. fold (csh_count count).
  pose proof (csh_count_range count Hcount) as Hc.
  unfold csh_bit. set (c := csh_count count) in *. clearbody c.
  change (Z.quot wordsize 2) with 16.
  apply returns_bind.
  apply returns_weaken with (Q := fun _ m1 =>
    valid m1 /\ m1 op = m op /\ same_except [r] m m1 /\ (0 < c < 16 -> m1 r = m r)).
  { destruct (Z.eqb_spec c 0) as [E0|E0]; cbn [orb].
    - apply returns_setWord. split; [apply valid_upd; [exact Hv | apply Hv]|].
      split; [|split; [apply same_except_upd; [left; reflexivity | apply same_except_refl]|lia]].
      unfold upd. destruct (loc_eq_dec op r); reflexivity.
    - destruct (Z.eqb_spec (Z.rem c 32) 0) as [E1|E1].
      + apply returns_setWord. split; [apply valid_upd; [exact Hv | apply Hv]|].
        split; [|split; [apply same_except_upd; [left; reflexivity | apply same_except_refl]|]].
        * unfold upd. destruct (loc_eq_dec op r); reflexivity.
        * intros Hsmall. rewrite Z.rem_small in E1 by lia. lia.
      + apply returns_ret. split; [exact Hv|]. split; [reflexivity|].
        split; [apply same_except_refl | reflexivity]. }
  intros u1 m1 (Hv1 & Eop1 & Hs1 & Hr1).
  apply returns_bind, returns_setWord. rewrite Eop1.
  set (m2 := upd m1 csh_localop (m op)).
  assert (Hv2 : valid m2) by (apply valid_upd; [exact Hv1 | apply Hv]).
  assert (Hl : m2 csh_localop = m op) by apply upd_same.
  assert (Er2 : m2 r = m1 r) by (apply upd_other; exact Hr).
  assert (Hfin : forall m3 m4, same_except [r] m2 m3 -> same_except [r] m3 m4 ->
                               same_except [r; csh_localop] m m4).
  { intros m3 m4 H3 H4 x Hx. rewrite (H4 x), (H3 x) by notin.
    unfold m2. rewrite upd_other by notin. apply Hs1. notin. }
  assert (Hcopy : forall src g f m' (W : word),
            src <> r -> m2 src = W -> 0 <= g <= wordtopbit -> same_except [r] m2 m' ->
            (t <- getBitOfWord src g ;; setBitOfWord r f t) m'
            = setBitOfWord r f (Z.b2z (Z.testbit W g)) m').
  { intros src g f m' W Hn <- Hg Hs. apply copy_body_eq; assumption. }
  unfold wordtopbit, wordsize in *. change (32 - 1) with 31 in *.
  destruct (Z.ltb_spec c 16) as [Hlt|Hge].
  - destruct (Z.geb_spec c 16) as [Hge|_]; [lia|]. cbn [andb].
    apply returns_bind. apply returns_bind.
    eapply returns_weaken.
    { apply (write_down_spec r (fun b => b - (32 - c)) (fun b => Z.b2z (Z.testbit (m op) b))
               _ 31 (31 - c + 1) m2 Hv2);
        try (unfold wordtopbit, wordsize; lia).
      intros b m' Hb Hs. rewrite rem_once by lia.
      apply Hcopy; [congruence | exact Hl | unfold wordtopbit, wordsize; lia | exact Hs]. }
    intros u2 m3 (Hv3 & Hs3 & Hw3 & Hk3).
    eapply returns_weaken.
    { apply (write_down_spec r (fun p => p + c) (fun p => Z.b2z (Z.testbit (m op) p))
               _ (31 - c) c m3 Hv3);
        try (unfold wordtopbit, wordsize; lia).
      intros p m' Hp Hs. rewrite Z.rem_small by lia.
      rewrite <- Hl, <- (Hs3 csh_localop) by notin.
      apply copy_body_eq; [congruence | unfold wordtopbit, wordsize; lia | exact Hs]. }
    intros u3 m4 (Hv4 & Hs4 & Hw4 & Hk4).
    apply returns_ret.
    split; [exact Hv4|]. split; [|exact (Hfin _ _ Hs3 Hs4)].
    intros i Hi.
    destruct (Z.ltb_spec i c) as [H1|H1].
    + rewrite Hk4 by (intros p Hp; lia).
      replace i with ((i + (32 - c)) - (32 - c)) at 1 by lia.
      rewrite (Hw3 (i + (32 - c))) by lia.
      rewrite b2z_eqb_0, negb_involutive. reflexivity.
    + destruct (Z.ltb_spec i (2 * c)) as [H2|H2].
      * rewrite Hk4 by (intros p Hp; lia).
        rewrite Hk3 by (intros b Hb; lia).
        rewrite Er2, Hr1 by lia. reflexivity.
      * replace i with ((i - c) + c) at 1 by lia.
        rewrite (Hw4 (i - c)) by lia.
        rewrite b2z_eqb_0, negb_involutive. reflexivity.
  - destruct (Z.geb_spec c 16) as [_|Hlt]; [|lia]. cbn [andb].
    apply returns_bind. apply returns_ret.
    apply returns_bind.
    eapply returns_weaken.
    { apply (write_down_spec r (fun b => b - (32 - c)) (fun b => Z.b2z (Z.testbit (m op) b))
               _ 31 (31 - c + 1) m2 Hv2);
        try (unfold wordtopbit, wordsize; lia).
      intros b m' Hb Hs.
      apply Hcopy; [congruence | exact Hl | unfold wordtopbit, wordsize; lia | exact Hs]. }
    intros u2 m3 (Hv3 & Hs3 & Hw3 & Hk3).
    eapply returns_weaken.
    { apply (write_down_spec r (fun p => p + c) (fun p => Z.b2z (Z.testbit (m op) p))
               _ (31 - c) 0 m3 Hv3);
        try (unfold wordtopbit, wordsize; lia).
      intros p m' Hp Hs. rewrite Z.rem_small by lia.
      rewrite <- Hl, <- (Hs3 csh_localop) by notin.
      apply copy_body_eq; [congruence | unfold wordtopbit, wordsize; lia | exact Hs]. }
    intros u3 m4 (Hv4 & Hs4 & Hw4 & Hk4).
    split; [exact Hv4|]. split; [|exact (Hfin _ _ Hs3 Hs4)].
    intros i Hi.
    destruct (Z.ltb_spec i c) as [H1|H1].
    + rewrite Hk4 by (intros p Hp; lia).
      replace i with ((i + (32 - c)) - (32 - c)) at 1 by lia.
      rewrite (Hw3 (i + (32 - c))) by lia.
      rewrite b2z_eqb_0, negb_involutive. reflexivity.
    + replace i with ((i - c) + c) at 1 by lia.
      rewrite (Hw4 (i - c)) by lia.
      rewrite b2z_eqb_0, negb_involutive. reflexivity.
Qed.

(** ** Values of wrapped results *)

Lemma sval_of_cong v w :
  valid_word w -> cong w v -> - 2 ^ wordtopbit <= v < 2 ^ wordtopbit -> sval w = v.
Proof.
  intros Hw Hc Hv. rewrite <- (sval_of_wrap v Hv). f_equal.
  unfold cong in Hc. rewrite <- Hc. symmetry. apply Z.mod_small, Hw.
Qed.

Lemma cong_opp x y : cong x y -> cong (- x) (- y).
Proof.
  intros H. replace (- x) with (-1 * x) by lia. replace (- y) with (-1 * y) by lia.
  apply cong_mul; [apply cong_refl | exact H].
Qed.

Lemma cong_sub x x' y y' : cong x x' -> cong y y' -> cong (x - y) (x' - y').
Proof.
  intros H1 H2. unfold Z.sub. apply cong_add; [exact H1 | apply cong_opp, H2].
Qed.

Lemma sval_complement w :
  valid_word w -> sval (2 ^ wordsize - 1 - w) = - sval w - 1.
Proof.
  intros Hw. pose proof (sval_range w Hw).
  apply sval_of_cong; [apply complement_valid, Hw | | lia].
  replace (2 ^ wordsize - 1 - w) with (- w - 1 + 1 * 2 ^ wordsize) by lia.
  eapply cong_trans; [unfold cong; apply Z.mod_add, wordsize_pow_nonzero|].
  apply cong_sub; [apply cong_opp, cong_sym, cong_sval | apply cong_refl].
Qed.

Lemma sval_inj x y : valid_word x -> valid_word y -> sval x = sval y -> x = y.
Proof.
  intros Hx Hy E. apply cong_valid; [exact Hx | exact Hy |].
  eapply cong_trans; [apply cong_sym, cong_sval|]. rewrite E. apply cong_sval.
Qed.

(** X1: testEqWord answers true exactly when the word is the zero word, and
    leaves the store as it was. *)
Theorem testEqWord_iff_zero (op : loc) (m : mem) :
  valid m ->
  returns (testEqWord op) m (fun z m' => m' = m /\ (z = true <-> m op = 0)).
Proof.
  intros Hv. eapply returns_weaken; [apply testEqWord_spec, Hv|].
  intros z m' [-> ->]. split; [reflexivity|]. apply Z.eqb_eq.
Qed.

Lemma testEqWord_iff_zero_witness :
  returns (testEqWord (Buf 0)) (init_mem [2147483648])
    (fun z m' => m' = init_mem [2147483648] /\ (z = true <-> 2147483648 = 0)).
Proof.
  apply (testEqWord_iff_zero (Buf 0) (init_mem [2147483648])).
  apply init_mem_valid.
  repeat (apply Forall_cons; [unfold valid_word, wordsize; lia|]). apply Forall_nil.
Defined.

(** X2: testLtWord answers whether the two's-complement value is negative
    and testGeWord whether it is not; neither changes the store. *)
Theorem sign_tests (op : loc) (m : mem) :
  valid m ->
  returns (testLtWord op) m (fun lt m' => m' = m /\ lt = (sval (m op) <? 0)) /\
  returns (testGeWord op) m (fun ge m' => m' = m /\ ge = (0 <=? sval (m op))).
Proof.
  intros Hv. split.
  - eapply returns_weaken; [apply testLtWord_spec|].
    intros lt m' [-> ->]. split; [reflexivity|]. symmetry. apply sval_negative, Hv.
  - eapply returns_weaken; [apply testGeWord_spec|].
    intros ge m' [-> ->]. split; [reflexivity|].
    rewrite Z.leb_antisym, sval_negative by apply Hv. reflexivity.
Qed.

Lemma sign_tests_witness :
  returns (testLtWord (Buf 0)) (init_mem [4294967295])
    (fun lt m' => m' = init_mem [4294967295] /\ lt = true) /\
  returns (testGeWord (Buf 0)) (init_mem [4294967295])
    (fun ge m' => m' = init_mem [4294967295] /\ ge = false).
Proof.
  apply (sign_tests (Buf 0) (init_mem [4294967295])).
  apply init_mem_valid.
  repeat (apply Forall_cons; [unfold valid_word, wordsize; lia|]). apply Forall_nil.
Defined.

(** X3: andWord, orWord and xorWord leave the bitwise and, or and exclusive
    or of the operands in the result buffer, whichever buffers coincide, and
    change no other buffer. *)
Theorem logic_words (r a b : loc) (m : mem) :
  valid m ->
  returns (andWord r a b) m (fun _ m' =>
    m' r = Z.land (m a) (m b) /\ same_except [r] m m') /\
  returns (orWord r a b) m (fun _ m' =>
    m' r = Z.lor (m a) (m b) /\ same_except [r] m m') /\
  returns (xorWord r a b) m (fun _ m' =>
    m' r = Z.lxor (m a) (m b) /\ same_except [r] m m').
Proof.
  intros Hv. repeat split.
  - eapply returns_weaken; [apply andWord_spec, Hv|]. intros u m' (_ & E & Hs). auto.
  - eapply returns_weaken; [apply orWord_spec, Hv|]. intros u m' (_ & E & Hs). auto.
  - eapply returns_weaken; [apply xorWord_spec, Hv|]. intros u m' (_ & E & Hs). auto.
Qed.

Lemma logic_words_witness :
  returns (andWord (Buf 0) (Buf 0) (Buf 1)) (init_mem [12; 10]) (fun _ m' =>
    m' (Buf 0) = 8 /\ same_except [Buf 0] (init_mem [12; 10]) m') /\
  returns (orWord (Buf 0) (Buf 0) (Buf 1)) (init_mem [12; 10]) (fun _ m' =>
    m' (Buf 0) = 14 /\ same_except [Buf 0] (init_mem [12; 10]) m') /\
  returns (xorWord (Buf 0) (Buf 0) (Buf 1)) (init_mem [12; 10]) (fun _ m' =>
    m' (Buf 0) = 6 /\ same_except [Buf 0] (init_mem [12; 10]) m').
Proof.
  apply (logic_words (Buf 0) (Buf 0) (Buf 1) (init_mem [12; 10])).
  apply init_mem_valid.
  repeat (apply Forall_cons; [unfold valid_word, wordsize; lia|]). apply Forall_nil.
Defined.

(** X4: notWord leaves the complement of the operand, whose two's-complement
    value is minus the operand's value, minus one. *)
Theorem notWord_value (r op : loc) (m : mem) :
  valid m ->
  returns (notWord r op) m (fun _ m' =>
    m' r = 2 ^ wordsize - 1 - m op /\ sval (m' r) = - sval (m op) - 1).
Proof.
  intros Hv. eapply returns_weaken; [apply notWord_spec, Hv|].
  intros u m' (_ & E & _). split; [exact E|]. rewrite E. apply sval_complement, Hv.
Qed.

Lemma notWord_value_witness :
  returns (notWord (Buf 0) (Buf 0)) (init_mem [5]) (fun _ m' =>
    m' (Buf 0) = 2 ^ wordsize - 1 - 5 /\ sval (m' (Buf 0)) = - sval 5 - 1).
Proof.
  apply (notWord_value (Buf 0) (Buf 0) (init_mem [5])).
  apply init_mem_valid.
  repeat (apply Forall_cons; [unfold valid_word, wordsize; lia|]). apply Forall_nil.
Defined.

(** X5: notWord applied twice gives back the operand, also when it is done in
    place. *)
Theorem notWord_twice (r t op : loc) (m : mem) :
  valid m ->
  returns (notWord t op ;; notWord r t) m (fun _ m' => m' r = m op).
Proof.
  intros Hv. apply returns_bind.
  eapply returns_weaken; [apply notWord_spec, Hv|].
  intros u m1 (Hv1 & E1 & _).
  eapply returns_weaken; [apply notWord_spec, Hv1|].
  intros u' m2 (_ & E2 & _). rewrite E2, E1. lia.
Qed.

Lemma notWord_twice_witness :
  returns (notWord (Buf 0) (Buf 0) ;; notWord (Buf 0) (Buf 0)) (init_mem [5])
    (fun _ m' => m' (Buf 0) = 5).
Proof.
  apply (notWord_twice (Buf 0) (Buf 0) (Buf 0) (init_mem [5])).
  apply init_mem_valid.
  repeat (apply Forall_cons; [unfold valid_word, wordsize; lia|]). apply Forall_nil.
Defined.

(** X6: negativeWord leaves the word whose value is minus the operand's
    value, for every operand but the min-word; applied twice it gives back
    the operand, the min-word included. *)
Theorem negativeWord_value (r t op : loc) (m : mem) :
  valid m -> constants m -> t <> zeroWord ->
  returns (negativeWord r op) m (fun _ m' =>
    m op <> 2 ^ wordtopbit -> sval (m' r) = - sval (m op)) /\
  returns (negativeWord t op ;; negativeWord r t) m (fun _ m' => m' r = m op).
Proof.
  intros Hv (Hz & _) Ht. split.
  - eapply returns_weaken; [apply negativeWord_spec; assumption|].
    intros u m' (Hv' & E & _) Hmin.
    pose proof (sval_range _ (Hv op)) as Hr.
    apply sval_of_cong; [apply Hv' | |].
    + rewrite E. eapply cong_trans; [apply cong_mod|]. apply cong_opp, cong_sym, cong_sval.
    + destruct (sval_cases _ (Hv op)) as [(_ & Es & H)|(_ & Es & H)]; rewrite Es in *;
        unfold wordtopbit, wordsize in *; change (32 - 1) with 31 in *;
        change (2 ^ 32) with (2 * 2 ^ 31) in *; lia.
  - apply returns_bind.
    eapply returns_weaken; [apply negativeWord_spec; assumption|].
    intros u m1 (Hv1 & E1 & Hs1).
    eapply returns_weaken.
    { apply negativeWord_spec; [exact Hv1|]. rewrite (Hs1 zeroWord) by notin. exact Hz. }
    intros u' m2 (Hv2 & E2 & _).
    apply cong_valid; [apply Hv2 | apply Hv |].
    rewrite E2, E1. eapply cong_trans; [apply cong_mod|].
    eapply cong_trans; [apply cong_opp, cong_mod|].
    rewrite Z.opp_involutive. apply cong_refl.
Qed.

Lemma negativeWord_value_witness :
  returns (negativeWord (Buf 1) (Buf 0)) (init_mem [3]) (fun _ m' =>
    init_mem [3] (Buf 0) <> 2 ^ wordtopbit -> sval (m' (Buf 1)) = - sval 3) /\
  returns (negativeWord (Buf 0) (Buf 0) ;; negativeWord (Buf 1) (Buf 0)) (init_mem [3])
    (fun _ m' => m' (Buf 1) = 3).
Proof.
  apply (negativeWord_value (Buf 1) (Buf 0) (Buf 0) (init_mem [3])).
  - apply init_mem_valid.
    repeat (apply Forall_cons; [unfold valid_word, wordsize; lia|]). apply Forall_nil.
  - apply init_mem_constants.
  - discriminate.
Defined.

(** X7: adding a word and its negative gives the zero word. *)
Theorem add_negative_is_zero (r t op : loc) (m : mem) :
  valid m -> constants m -> t <> op ->
  returns (negativeWord t op ;; addWord r op t) m (fun _ m' => m' r = 0).
Proof.
  intros Hv (Hz & _) Ht. apply returns_bind.
  eapply returns_weaken; [apply negativeWord_spec; assumption|].
  intros u m1 (Hv1 & E1 & Hs1).
  eapply returns_weaken; [apply addWord_spec, Hv1|].
  intros u' m2 (_ & E2 & _).
  rewrite E2, E1, (Hs1 op) by notin.
  rewrite Z.add_mod_idemp_r by apply wordsize_pow_nonzero.
  rewrite Z.add_opp_diag_r. reflexivity.
Qed.

Lemma add_negative_is_zero_witness :
  returns (negativeWord (Buf 1) (Buf 0) ;; addWord (Buf 0) (Buf 0) (Buf 1))
    (init_mem [2147483648]) (fun _ m' => m' (Buf 0) = 0).
Proof.
  apply (add_negative_is_zero (Buf 0) (Buf 1) (Buf 0) (init_mem [2147483648])).
  - apply init_mem_valid.
    repeat (apply Forall_cons; [unfold valid_word, wordsize; lia|]). apply Forall_nil.
  - apply init_mem_constants.
  - discriminate.
Defined.

(** X8: comparing by subtraction.  After subWord, testEqWord on the
    difference tells whether the operands are the same word; when the
    difference of the two values is within the range of a word, the
    difference has that value and testLtWord on it tells whether the first
    operand is the smaller. *)
Theorem subWord_compares (t a b : loc) (m : mem) :
  valid m ->
  returns (subWord t a b ;;
           z <- testEqWord t ;;
           lt <- testLtWord t ;;
           ret (z, lt)) m
    (fun p m' =>
       fst p = (m a =? m b) /\
       (- 2 ^ wordtopbit <= sval (m a) - sval (m b) < 2 ^ wordtopbit ->
        sval (m' t) = sval (m a) - sval (m b) /\
        snd p = (sval (m a) <? sval (m b)))).
Proof.
  intros Hv. apply returns_bind.
  eapply returns_weaken; [apply subWord_spec, Hv|].
  intros u m1 (Hv1 & E1 & _).
  apply returns_bind. eapply returns_weaken; [apply testEqWord_spec, Hv1|].
  intros z m' [-> ->].
  apply returns_bind. eapply returns_weaken; [apply testLtWord_spec|].
  intros lt m' [-> ->]. apply returns_ret. cbn [fst snd].
  assert (Hc : cong (m1 t) (sval (m a) - sval (m b))).
  { rewrite E1. eapply cong_trans; [apply cong_mod|].
    apply cong_sub; apply cong_sym, cong_sval. }
  split.
  - destruct (Z.eqb_spec (m a) (m b)) as [E|E].
    + rewrite E1, E, Z.sub_diag. reflexivity.
    + destruct (Z.eqb_spec (m1 t) 0) as [E0|E0]; [|reflexivity].
      exfalso. apply E. apply cong_valid; [apply Hv | apply Hv |].
      rewrite E1 in E0. unfold cong.
      rewrite <- (Z.sub_add (m b) (m a)), Zplus_mod, E0, Z.add_0_l, Z.mod_mod
        by apply wordsize_pow_nonzero.
      reflexivity.
  - intros Hfit.
    assert (Es : sval (m1 t) = sval (m a) - sval (m b))
      by (apply sval_of_cong; [apply Hv1 | exact Hc | exact Hfit]).
    split; [exact Es|].
    rewrite <- sval_negative, Es by apply Hv1.
    destruct (Z.ltb_spec (sval (m a) - sval (m b)) 0), (Z.ltb_spec (sval (m a)) (sval (m b)));
      try reflexivity; lia.
Qed.

Lemma subWord_compares_witness :
  returns (subWord (Buf 2) (Buf 0) (Buf 1) ;;
           z <- testEqWord (Buf 2) ;;
           lt <- testLtWord (Buf 2) ;;
           ret (z, lt)) (init_mem [4294967293; 5])
    (fun p m' =>
       fst p = false /\
       (- 2 ^ wordtopbit <= sval 4294967293 - sval 5 < 2 ^ wordtopbit ->
        sval (m' (Buf 2)) = sval 4294967293 - sval 5 /\
        snd p = true)).
Proof.
  apply (subWord_compares (Buf 2) (Buf 0) (Buf 1) (init_mem [4294967293; 5])).
  apply init_mem_valid.
  repeat (apply Forall_cons; [unfold valid_word, wordsize; lia|]). apply Forall_nil.
Defined.

(** ** Shifts and masks *)

Lemma clamp_shift_min count : clamp_shift count = Z.min (Z.abs count) wordtopbit.
Proof.
  unfold clamp_shift, abs, wordtopbit, wordsize. cbv zeta.
  destruct (Z.geb_spec (Z.abs count) 32); lia.
Qed.

Lemma mask_count_min count : mask_count count = Z.min (Z.abs count) wordsize.
Proof.
  unfold mask_count, abs, wordsize. cbv zeta.
  destruct (Z.gtb_spec (Z.abs count) 32); lia.
Qed.

(** X9: for every count an int can hold other than INT_MIN, lshWord is the
    unsigned shift: to the left it multiplies modulo [2 ^ wordsize], to the
    right it divides; a count of magnitude above [wordsize - 1] is taken as
    [wordsize - 1], so that the word is never shifted out whole. *)
Theorem lshWord_value (r op : nat) (count : Z) (m : mem) :
  valid m -> int_count count ->
  returns (lshWord (Buf r) (Buf op) count) m (fun _ m' =>
    m' (Buf r) = (if count <? 0
                  then m (Buf op) / 2 ^ Z.min (- count) wordtopbit
                  else (m (Buf op) * 2 ^ Z.min count wordtopbit) mod 2 ^ wordsize)).
Proof.
  intros Hv _. eapply returns_weaken; [apply lshWord_spec; [exact Hv | discriminate]|].
  intros u m' (_ & E & _). rewrite E, clamp_shift_min.
  assert (0 <= Z.min (Z.abs count) wordtopbit) by (unfold wordtopbit, wordsize; lia).
  destruct (Z.ltb_spec count 0).
  - rewrite Z.shiftr_div_pow2 by assumption. rewrite Z.abs_neq by lia. reflexivity.
  - rewrite Z.shiftl_mul_pow2 by assumption. rewrite Z.abs_eq by lia. reflexivity.
Qed.

Lemma lshWord_value_witness :
  returns (lshWord (Buf 0) (Buf 0) 40) (init_mem [3]) (fun _ m' =>
    m' (Buf 0) = (3 * 2 ^ Z.min 40 wordtopbit) mod 2 ^ wordsize).
Proof.
  apply (lshWord_value 0 0 40 (init_mem [3])).
  - apply init_mem_valid.
    repeat (apply Forall_cons; [unfold valid_word, wordsize; lia|]). apply Forall_nil.
  - unfold int_count. lia.
Defined.

(** X10: for every count an int can hold other than INT_MIN, maskWord keeps
    the low bits of the operand for a positive count and the high bits for a
    negative one, and clears the others; the count 0 gives the zero word and
    a count of magnitude [wordsize] or more gives the operand; the operand
    may be the result buffer, and no other buffer changes. *)
Theorem maskWord_value (r op : loc) (count : Z) (m : mem) :
  valid m -> int_count count ->
  returns (maskWord r op count) m (fun _ m' =>
    (0 <= count -> m' r = m op mod 2 ^ Z.min count wordsize) /\
    (count < 0 ->
     m' r = 2 ^ (wordsize - Z.min (- count) wordsize)
            * (m op / 2 ^ (wordsize - Z.min (- count) wordsize))) /\
    (count = 0 -> m' r = 0) /\
    (wordsize <= Z.abs count -> m' r = m op) /\
    same_except [r] m m').
Proof.
  intros Hv _. eapply returns_weaken; [apply maskWord_spec, Hv|].
  intros u m' (_ & E & Hs). rewrite mask_count_min in E.
  pose proof (Hv op) as HW.
  split; [|split; [|split; [|split; [|exact Hs]]]].
  - intros Hc. destruct (Z.ltb_spec count 0); [lia|]. rewrite E, Z.abs_eq by lia. reflexivity.
  - intros Hc. destruct (Z.ltb_spec count 0); [|lia]. rewrite E, Z.abs_neq by lia. reflexivity.
  - intros ->. rewrite E. cbn. apply Z.mod_1_r.
  - intros Hc. rewrite E, Z.min_r by lia.
    destruct (count <? 0).
    + rewrite Z.sub_diag, Z.pow_0_r, Z.div_1_r. lia.
    + apply Z.mod_small, HW.
Qed.

Lemma maskWord_value_witness :
  returns (maskWord (Buf 0) (Buf 0) (-5)) (init_mem [4294967295]) (fun _ m' =>
    (0 <= -5 -> m' (Buf 0) = 4294967295 mod 2 ^ Z.min (-5) wordsize) /\
    (-5 < 0 ->
     m' (Buf 0) = 2 ^ (wordsize - Z.min (- -5) wordsize)
                  * (4294967295 / 2 ^ (wordsize - Z.min (- -5) wordsize))) /\
    (-5 = 0 -> m' (Buf 0) = 0) /\
    (wordsize <= Z.abs (-5) -> m' (Buf 0) = 4294967295) /\
    same_except [Buf 0] (init_mem [4294967295]) m').
Proof.
  apply (maskWord_value (Buf 0) (Buf 0) (-5) (init_mem [4294967295])).
  - apply init_mem_valid.
    repeat (apply Forall_cons; [unfold valid_word, wordsize; lia|]). apply Forall_nil.
  - unfold int_count. lia.
Defined.

(** X11: keeping the low [c] bits with maskWord is shifting left and then
    right, both logically, by [wordsize - c]. *)
Theorem maskWord_by_shifts (r t op : nat) (c : Z) (m : mem) :
  valid m -> 1 <= c <= wordtopbit ->
  returns (lshWord (Buf t) (Buf op) (wordsize - c) ;;
           lshWord (Buf t) (Buf t) (- (wordsize - c))) m (fun _ m1 =>
    returns (maskWord (Buf r) (Buf op) c) m (fun _ m2 =>
      m1 (Buf t) = m2 (Buf r))).
Proof.
  intros Hv Hc. unfold wordtopbit in Hc.
  apply returns_bind.
  eapply returns_weaken; [apply lshWord_spec; [exact Hv | discriminate]|].
  intros u1 m1 (Hv1 & E1 & _).
  eapply returns_weaken; [apply lshWord_spec; [exact Hv1 | discriminate]|].
  intros u2 m2 (_ & E2 & _).
  eapply returns_weaken; [apply maskWord_spec, Hv|].
  intros u3 m3 (_ & E3 & _).
  rewrite E3, E2, E1, !clamp_shift_min, mask_count_min.
  set (k := wordsize - c) in *.
  assert (Hk : 1 <= k <= wordtopbit) by (unfold k, wordtopbit; lia).
  destruct (Z.ltb_spec k 0); [lia|].
  destruct (Z.ltb_spec (- k) 0); [|lia].
  destruct (Z.ltb_spec c 0); [lia|].
  rewrite Z.abs_opp, Z.abs_eq, Z.min_l by lia.
  rewrite (Z.abs_eq c), (Z.min_l c) by lia.
  rewrite Z.shiftr_div_pow2, Z.shiftl_mul_pow2 by lia.
  assert (HP : 0 < 2 ^ k) by (apply Z.pow_pos_nonneg; lia).
  replace (2 ^ wordsize) with (2 ^ c * 2 ^ k)
    by (rewrite <- Z.pow_add_r by lia; f_equal; unfold k; lia).
  rewrite Z.mul_mod_distr_r by (try apply Z.pow_nonzero; lia).
  apply Z.div_mul. lia.
Qed.

Lemma maskWord_by_shifts_witness :
  returns (lshWord (Buf 1) (Buf 0) (wordsize - 4) ;;
           lshWord (Buf 1) (Buf 1) (- (wordsize - 4))) (init_mem [4294967295]) (fun _ m1 =>
    returns (maskWord (Buf 2) (Buf 0) 4) (init_mem [4294967295]) (fun _ m2 =>
      m1 (Buf 1) = m2 (Buf 2))).
Proof.
  apply (maskWord_by_shifts 2 1 0 4 (init_mem [4294967295])).
  - apply init_mem_valid.
    repeat (apply Forall_cons; [unfold valid_word, wordsize; lia|]). apply Forall_nil.
  - unfold wordtopbit, wordsize. lia.
Defined.

Lemma testbit_all_ones i : 0 <= i <= wordtopbit -> Z.testbit (2 ^ wordsize - 1) i = true.
Proof.
  intros Hi. replace (2 ^ wordsize - 1) with (2 ^ wordsize - 1 - 0) by lia.
  rewrite testbit_complement by exact Hi. rewrite Z.bits_0. reflexivity.
Qed.

(** X12: for every count an int can hold other than INT_MIN, ashWord keeps
    the sign bit; a right shift by [wordsize - 1] or more leaves the word of
    all sign bits (0 or -1) and a left shift by [wordsize - 1] or more leaves
    only the sign bit. *)
Theorem ashWord_keeps_sign (r op : nat) (count : Z) (m : mem) :
  valid m -> int_count count ->
  returns (ashWord (Buf r) (Buf op) count) m (fun _ m' =>
    let sign := Z.testbit (m (Buf op)) wordtopbit in
    Z.testbit (m' (Buf r)) wordtopbit = sign /\
    (count <= - wordtopbit -> m' (Buf r) = if sign then 2 ^ wordsize - 1 else 0) /\
    (wordtopbit <= count -> m' (Buf r) = if sign then 2 ^ wordtopbit else 0)).
Proof.
  intros Hv _. eapply returns_weaken; [apply ashWord_spec; [exact Hv | discriminate]|].
  cbv zeta. intros u m' (Hv' & Hb & _).
  assert (Htop : 0 <= wordtopbit <= wordtopbit) by (unfold wordtopbit, wordsize; lia).
  assert (Hpos : 0 < wordtopbit) by (unfold wordtopbit, wordsize; lia).
  unfold ash_bit in Hb. cbv zeta in Hb. rewrite clamp_shift_min in Hb.
  split; [|split].
  - rewrite Hb by exact Htop. rewrite Z.eqb_refl. reflexivity.
  - intros Hc. rewrite Z.min_r in Hb by lia.
    apply word_ext; [apply Hv' | destruct (Z.testbit (m (Buf op)) wordtopbit);
                                  unfold valid_word, wordsize; lia |].
    intros i Hi. rewrite Hb by exact Hi.
    destruct (Z.ltb_spec count 0); [|lia].
    assert (Hsel : (if i =? wordtopbit then Z.testbit (m (Buf op)) wordtopbit
                    else if i <=? wordtopbit - 1 - wordtopbit
                         then Z.testbit (m (Buf op)) (i + wordtopbit)
                         else Z.testbit (m (Buf op)) wordtopbit)
                   = Z.testbit (m (Buf op)) wordtopbit).
    { destruct (i =? wordtopbit); [reflexivity|].
      destruct (Z.leb_spec i (wordtopbit - 1 - wordtopbit)); [lia | reflexivity]. }
    rewrite Hsel.
    destruct (Z.testbit (m (Buf op)) wordtopbit).
    + symmetry. apply testbit_all_ones, Hi.
    + symmetry. apply Z.bits_0.
  - intros Hc. rewrite Z.min_r in Hb by lia.
    apply word_ext; [apply Hv' | destruct (Z.testbit (m (Buf op)) wordtopbit);
                                  unfold valid_word, wordtopbit, wordsize; lia |].
    intros i Hi. rewrite Hb by exact Hi.
    destruct (Z.ltb_spec count 0); [lia|].
    destruct (Z.testbit (m (Buf op)) wordtopbit) eqn:Es.
    + rewrite Z.pow2_bits_eqb by lia. rewrite (Z.eqb_sym wordtopbit i).
      destruct (Z.eqb_spec i wordtopbit); [reflexivity|].
      destruct (Z.ltb_spec i wordtopbit); [reflexivity | lia].
    + rewrite Z.bits_0.
      destruct (Z.eqb_spec i wordtopbit); [reflexivity|].
      destruct (Z.ltb_spec i wordtopbit); [reflexivity | lia].
Qed.

Lemma ashWord_keeps_sign_witness :
  returns (ashWord (Buf 0) (Buf 0) (-40)) (init_mem [2147483649]) (fun _ m' =>
    Z.testbit (m' (Buf 0)) wordtopbit = true /\
    (-40 <= - wordtopbit -> m' (Buf 0) = 2 ^ wordsize - 1) /\
    (wordtopbit <= -40 -> m' (Buf 0) = 2 ^ wordtopbit)).
Proof.
  apply (ashWord_keeps_sign 0 0 (-40) (init_mem [2147483649])).
  - apply init_mem_valid.
    repeat (apply Forall_cons; [unfold valid_word, wordsize; lia|]). apply Forall_nil.
  - unfold int_count. lia.
Defined.

(** ** Circular shift, by the count used *)

Lemma rotl_valid w c : valid_word w -> 0 <= c <= wordsize -> valid_word (rotl w c).
Proof.
  intros Hw Hc. unfold rotl. apply valid_word_of_bits.
  - apply Z.lor_nonneg. split; [apply mod_valid|].
    apply Z.div_pos; [apply Hw | apply Z.pow_pos_nonneg; lia].
  - intros i Hi. rewrite Z.lor_spec.
    rewrite (valid_word_high _ i (mod_valid _) Hi).
    rewrite <- Z.shiftr_div_pow2 by lia.
    assert (Hk : 0 <= wordsize - c) by lia.
    apply (valid_word_high _ i (shiftr_valid w (wordsize - c) Hw Hk) Hi).
Qed.

Lemma rotl_testbit w c i :
  valid_word w -> 0 <= c <= wordsize -> 0 <= i <= wordtopbit ->
  Z.testbit (rotl w c) i
  = if i <? c then Z.testbit w (i + (wordsize - c)) else Z.testbit w (i - c).
Proof.
  intros Hw Hc Hi. unfold rotl. rewrite Z.lor_spec.
  rewrite Z.mod_pow2_bits_low by (unfold wordtopbit in Hi; lia).
  rewrite Z.mul_pow2_bits by lia.
  rewrite Z.div_pow2_bits by lia.
  destruct (Z.ltb_spec i c).
  - rewrite Z.testbit_neg_r by lia. reflexivity.
  - rewrite (valid_word_high w (i + (wordsize - c))) by (exact Hw || lia).
    apply orb_false_r.
Qed.

(** X13: when the count used is at least half the word length (a count of
    magnitude 16 to 32, or 48 to 64), cshWord rotates the operand to the
    left by that count, whatever the sign of the count. *)
Theorem cshWord_rotates_left (r op : nat) (count : Z) (m : mem) :
  valid m -> Z.abs count <= 64 -> 16 <= csh_count count ->
  returns (cshWord (Buf r) (Buf op) count) m (fun _ m' =>
    m' (Buf r) = rotl (m (Buf op)) (csh_count count)).
Proof.
  intros Hv Hcount Hc.
  pose proof (csh_count_range count Hcount) as Hr.
  eapply returns_weaken; [apply cshWord_spec; [exact Hv | discriminate | exact Hcount]|].
  intros u m' (Hv' & Hb & _).
  apply word_ext; [apply Hv' | apply rotl_valid; [apply Hv | unfold wordsize; lia] |].
  intros i Hi. rewrite Hb by exact Hi.
  rewrite rotl_testbit by (try apply Hv; unfold wordsize; lia).
  unfold csh_bit. change (Z.quot wordsize 2) with 16. change wordsize with 32.
  destruct (Z.ltb_spec i (csh_count count)); [reflexivity|].
  destruct (Z.ltb_spec (csh_count count) 16); [lia | reflexivity].
Qed.

Lemma cshWord_rotates_left_witness :
  returns (cshWord (Buf 1) (Buf 0) (-20)) (init_mem [2863333375]) (fun _ m' =>
    m' (Buf 1) = rotl 2863333375 (csh_count (-20))).
Proof.
  apply (cshWord_rotates_left 1 0 (-20) (init_mem [2863333375])).
  - apply init_mem_valid.
    repeat (apply Forall_cons; [unfold valid_word, wordsize; lia|]). apply Forall_nil.
  - vm_compute. discriminate.
  - vm_compute. discriminate.
Defined.

(** X14: with the count 0, 32, -32, 64 or -64 cshWord copies the operand. *)
Theorem cshWord_whole_turns (r op : nat) (count : Z) (m : mem) :
  valid m -> In count [0; 32; -32; 64; -64] ->
  returns (cshWord (Buf r) (Buf op) count) m (fun _ m' => m' (Buf r) = m (Buf op)).
Proof.
  intros Hv Hin.
  assert (Hc : Z.abs count <= 64 /\ (csh_count count = 0 \/ csh_count count = 32)).
  { cbn [In] in Hin.
    destruct Hin as [<-|[<-|[<-|[<-|[<-|[]]]]]]; vm_compute; split; auto; discriminate. }
  destruct Hc as [Hcount Hc].
  eapply returns_weaken; [apply cshWord_spec; [exact Hv | discriminate | exact Hcount]|].
  intros u m' (Hv' & Hb & _).
  apply word_ext; [apply Hv' | apply Hv |].
  intros i Hi. rewrite Hb by exact Hi.
  unfold csh_bit. change (Z.quot wordsize 2) with 16.
  unfold wordtopbit, wordsize in Hi.
  destruct Hc as [-> | ->].
  - destruct (Z.ltb_spec i 0); [lia|].
    destruct (Z.ltb_spec i (2 * 0)); [lia|]. cbn [andb].
    rewrite Z.sub_0_r. destruct (0 <? 16); reflexivity.
  - destruct (Z.ltb_spec i 32); [|lia]. rewrite Z.sub_diag, Z.add_0_r. reflexivity.
Qed.

Lemma cshWord_whole_turns_witness :
  returns (cshWord (Buf 1) (Buf 0) (-64)) (init_mem [2863333375]) (fun _ m' =>
    m' (Buf 1) = 2863333375).
Proof.
  apply (cshWord_whole_turns 1 0 (-64) (init_mem [2863333375])).
  - apply init_mem_valid.
    repeat (apply Forall_cons; [unfold valid_word, wordsize; lia|]). apply Forall_nil.
  - cbn [In]. auto 10.
Defined.

(** X15: when the count used [c] is below half the word length and not zero
    (a count of magnitude 1 to 15, or 33 to 47), cshWord returns having put
    the top [c] bits of the operand at the bottom and bits [c] to
    [wordtopbit - c] of the operand [c] places up; bits [c] to [2 * c - 1] of
    the result buffer are left as they were, and bits 0 to [c - 1] of the
    operand are not used. *)
Theorem cshWord_small_count (r op : nat) (count : Z) (m : mem) :
  valid m -> Z.abs count <= 64 -> 0 < csh_count count < 16 ->
  returns (cshWord (Buf r) (Buf op) count) m (fun _ m' =>
    let c := csh_count count in
    forall i, 0 <= i <= wordtopbit ->
      (i < c -> Z.testbit (m' (Buf r)) i = Z.testbit (m (Buf op)) (i + (wordsize - c))) /\
      (c <= i < 2 * c -> Z.testbit (m' (Buf r)) i = Z.testbit (m (Buf r)) i) /\
      (2 * c <= i -> Z.testbit (m' (Buf r)) i = Z.testbit (m (Buf op)) (i - c))).
Proof.
  intros Hv Hcount Hc.
  eapply returns_weaken; [apply cshWord_spec; [exact Hv | discriminate | exact Hcount]|].
  cbv zeta. intros u m' (_ & Hb & _) i Hi. rewrite Hb by exact Hi.
  unfold csh_bit. change (Z.quot wordsize 2) with 16. change wordsize with 32.
  destruct (Z.ltb_spec i (csh_count count)), (Z.ltb_spec (csh_count count) 16),
    (Z.ltb_spec i (2 * csh_count count)); cbn [andb];
    repeat split; intros; try reflexivity; lia.
Qed.

Lemma cshWord_small_count_witness :
  returns (cshWord (Buf 1) (Buf 0) 4) (init_mem [2863333375; 0]) (fun _ m' =>
    let c := csh_count 4 in
    forall i, 0 <= i <= wordtopbit ->
      (i < c -> Z.testbit (m' (Buf 1)) i = Z.testbit 2863333375 (i + (wordsize - c))) /\
      (c <= i < 2 * c -> Z.testbit (m' (Buf 1)) i = Z.testbit 0 i) /\
      (2 * c <= i -> Z.testbit (m' (Buf 1)) i = Z.testbit 2863333375 (i - c))).
Proof.
  apply (cshWord_small_count 1 0 4 (init_mem [2863333375; 0])).
  - apply init_mem_valid.
    repeat (apply Forall_cons; [unfold valid_word, wordsize; lia|]). apply Forall_nil.
  - vm_compute. discriminate.
  - vm_compute. split; reflexivity.
Defined.

(** ** Signed multiplication and division *)

Lemma magnitude_abs w : valid_word w -> magnitude w = Z.abs (sval w).
Proof.
  intros Hw.
  destruct (magnitude_cases w Hw) as [(Eb & Em & H)|(Eb & Em & H)];
  destruct (sval_cases w Hw) as [(Eb' & Es & H')|(Eb' & Es & H')];
    try congruence; rewrite Em, Es; lia.
Qed.

Lemma sval_nonzero w : valid_word w -> w <> 0 -> sval w <> 0.
Proof.
  intros Hw Hn E. apply Hn. apply sval_inj; [exact Hw | unfold valid_word, wordsize; lia |].
  rewrite E. reflexivity.
Qed.

Lemma sval_negate_if s x :
  0 <= x <= 2 ^ wordtopbit -> (x = 2 ^ wordtopbit -> s = true) ->
  sval (negate_if s x) = sign_factor s * x.
Proof.
  intros Hx Hs.
  assert (Hxv : valid_word x).
  { unfold valid_word, wordtopbit, wordsize in *. change (32 - 1) with 31 in *.
    change (2 ^ 32) with (2 * 2 ^ 31). lia. }
  apply sval_of_cong; [apply negate_if_valid, Hxv | apply cong_negate_if |].
  assert (0 < 2 ^ wordtopbit) by (unfold wordtopbit, wordsize; lia).
  destruct s; cbn [sign_factor]; [lia|].
  assert (x <> 2 ^ wordtopbit) by (intros E; specialize (Hs E); discriminate). lia.
Qed.

Lemma sign_factor_sgn w :
  valid_word w -> sval w <> 0 -> sign_factor (Z.testbit w wordtopbit) = Z.sgn (sval w).
Proof.
  intros Hw Hn. rewrite <- sval_negative by exact Hw.
  destruct (Z.ltb_spec (sval w) 0); cbn [sign_factor]; lia.
Qed.

(** The remainder div2Word leaves is that of the division that truncates
    towards zero. *)
Lemma rem_value A B :
  valid_word A -> valid_word B -> B <> 0 ->
  sval (negate_if (Z.testbit A wordtopbit) (magnitude A mod magnitude B))
  = Z.rem (sval A) (sval B).
Proof.
  intros HA HB HB0.
  pose proof (magnitude_range B HB) as [HmB HmB0]. specialize (HmB0 HB0).
  pose proof (Z.mod_pos_bound (magnitude A) (magnitude B) HmB0) as HR.
  rewrite sval_negate_if by lia.
  rewrite Z.rem_mod by (apply sval_nonzero; assumption).
  rewrite <- !magnitude_abs by assumption.
  destruct (Z.eq_dec (sval A) 0) as [E|E].
  - assert (EA : magnitude A = 0) by (rewrite magnitude_abs, E by exact HA; reflexivity).
    rewrite EA, Z.mod_0_l by lia. lia.
  - rewrite sign_factor_sgn by assumption. reflexivity.
Qed.

(** The quotient div2Word leaves is that of the division that truncates
    towards zero, but for the most negative word divided by minus one. *)
Lemma quot_value A B :
  valid_word A -> valid_word B -> B <> 0 ->
  ~ (A = 2 ^ wordtopbit /\ B = 2 ^ wordsize - 1) ->
  sval (negate_if (xorb (Z.testbit A wordtopbit) (Z.testbit B wordtopbit))
          (magnitude A / magnitude B))
  = Z.quot (sval A) (sval B).
Proof.
  intros HA HB HB0 Hov.
  pose proof (magnitude_range A HA) as [HmA _].
  pose proof (magnitude_range B HB) as [HmB HmB0]. specialize (HmB0 HB0).
  pose proof (Z.mul_div_le (magnitude A) (magnitude B) HmB0) as Hle.
  assert (HQ : 0 <= magnitude A / magnitude B) by (apply Z.div_pos; lia).
  assert (HQle : magnitude A / magnitude B <= 2 ^ wordtopbit) by nia.
  rewrite sval_negate_if.
  - rewrite Z.quot_div by (apply sval_nonzero; assumption).
    rewrite <- !magnitude_abs by assumption.
    destruct (Z.eq_dec (sval A) 0) as [E|E].
    + assert (EA : magnitude A = 0) by (rewrite magnitude_abs, E by exact HA; reflexivity).
      rewrite EA, Z.div_0_l by lia. lia.
    + rewrite <- !sign_factor_sgn by first [assumption | apply sval_nonzero; assumption].
      destruct (Z.testbit A wordtopbit), (Z.testbit B wordtopbit); reflexivity.
  - lia.
  - intros Emax.
    assert (EB : magnitude B = 1) by nia.
    assert (EA : magnitude A = 2 ^ wordtopbit) by nia.
    destruct (magnitude_cases A HA) as [(EsA & EmA & HAr)|(EsA & EmA & HAr)];
    destruct (magnitude_cases B HB) as [(EsB & EmB & HBr)|(EsB & EmB & HBr)];
      rewrite EsA, EsB; cbn [xorb]; try reflexivity.
    + lia.
    + exfalso. apply Hov. unfold wordtopbit, wordsize in *. change (32 - 1) with 31 in *.
      change (2 ^ 32) with (2 * 2 ^ 31) in *. lia.
Qed.

(** X16: mulWord leaves the word whose two's-complement value is the product
    of the operands' values modulo [2 ^ wordsize], and exactly the product
    when that is within the range of a word; the result buffer may be an
    operand. *)
Theorem mulWord_signed (fuel : nat) (r a b : nat) (m : mem) :
  valid m -> constants m -> (Z.to_nat wordsize <= fuel)%nat ->
  returns (mulWord fuel (Buf r) (Buf a) (Buf b)) m (fun _ m' =>
    sval (m' (Buf r)) mod 2 ^ wordsize = (sval (m (Buf a)) * sval (m (Buf b))) mod 2 ^ wordsize /\
    (- 2 ^ wordtopbit <= sval (m (Buf a)) * sval (m (Buf b)) < 2 ^ wordtopbit ->
     sval (m' (Buf r)) = sval (m (Buf a)) * sval (m (Buf b)))).
Proof.
  intros Hv (Hz & _) Hfuel.
  eapply returns_weaken; [apply mulWord_spec; assumption|].
  intros u m' (Hv' & E & _).
  assert (Hc : cong (m' (Buf r)) (sval (m (Buf a)) * sval (m (Buf b)))).
  { rewrite E. eapply cong_trans; [apply cong_mod|].
    apply cong_mul; apply cong_sym, cong_sval. }
  split.
  - exact (cong_trans _ _ _ (cong_sval _) Hc).
  - intros Hfit. apply sval_of_cong; [apply Hv' | exact Hc | exact Hfit].
Qed.

Lemma mulWord_signed_witness :
  returns (mulWord 32 (Buf 0) (Buf 0) (Buf 1)) (init_mem [4294967293; 5]) (fun _ m' =>
    sval (m' (Buf 0)) mod 2 ^ wordsize = (sval 4294967293 * sval 5) mod 2 ^ wordsize /\
    (- 2 ^ wordtopbit <= sval 4294967293 * sval 5 < 2 ^ wordtopbit ->
     sval (m' (Buf 0)) = sval 4294967293 * sval 5)).
Proof.
  apply (mulWord_signed 32 0 0 1 (init_mem [4294967293; 5])).
  - apply init_mem_valid.
    repeat (apply Forall_cons; [unfold valid_word, wordsize; lia|]). apply Forall_nil.
  - apply init_mem_constants.
  - vm_compute. lia.
Defined.

(** X17: for a divisor that is not zero, div2Word leaves the quotient and the
    remainder of the signed division that truncates towards zero (the
    quotient and remainder of C): the remainder always, the quotient but for
    the most negative word divided by minus one, where the quotient is the
    most negative word again. *)
Theorem div2Word_truncates (q r a b : nat) (m : mem) :
  valid m -> constants m ->
  q <> r -> q <> a -> q <> b -> r <> a -> r <> b ->
  m (Buf b) <> 0 ->
  returns (div2Word (Buf q) (Buf r) (Buf a) (Buf b)) m (fun _ m' =>
    sval (m' (Buf r)) = Z.rem (sval (m (Buf a))) (sval (m (Buf b))) /\
    (~ (m (Buf a) = 2 ^ wordtopbit /\ m (Buf b) = 2 ^ wordsize - 1) ->
     sval (m' (Buf q)) = Z.quot (sval (m (Buf a))) (sval (m (Buf b)))) /\
    (m (Buf a) = 2 ^ wordtopbit /\ m (Buf b) = 2 ^ wordsize - 1 ->
     m' (Buf q) = 2 ^ wordtopbit)).
Proof.
  intros Hv Hc Hqr Hqa Hqb Hra Hrb HB.
  eapply returns_weaken; [apply div2Word_spec; assumption|].
  cbv zeta. intros u m' (_ & _ & H).
  destruct (Z.eqb_spec (m (Buf b)) 0) as [E0|_]; [contradiction|].
  destruct H as [Eq Er]. split; [|split].
  - rewrite Er. apply rem_value; [apply Hv | apply Hv | exact HB].
  - intros Hov. rewrite Eq. apply quot_value; [apply Hv | apply Hv | exact HB | exact Hov].
  - intros [EA EB]. rewrite Eq, EA, EB. reflexivity.
Qed.

Lemma div2Word_truncates_witness :
  returns (div2Word (Buf 2) (Buf 3) (Buf 0) (Buf 1)) (init_mem [4294967289; 2]) (fun _ m' =>
    sval (m' (Buf 3)) = Z.rem (sval 4294967289) (sval 2) /\
    (~ (init_mem [4294967289; 2] (Buf 0) = 2 ^ wordtopbit /\
        init_mem [4294967289; 2] (Buf 1) = 2 ^ wordsize - 1) ->
     sval (m' (Buf 2)) = Z.quot (sval 4294967289) (sval 2)) /\
    (init_mem [4294967289; 2] (Buf 0) = 2 ^ wordtopbit /\
     init_mem [4294967289; 2] (Buf 1) = 2 ^ wordsize - 1 ->
     m' (Buf 2) = 2 ^ wordtopbit)).
Proof.
  apply (div2Word_truncates 2 3 0 1 (init_mem [4294967289; 2])).
  - apply init_mem_valid.
    repeat (apply Forall_cons; [unfold valid_word, wordsize; lia|]). apply Forall_nil.
  - apply init_mem_constants.
  - lia.
  - lia.
  - lia.
  - lia.
  - lia.
  - cbn. lia.
Defined.

Lemma not_private_divWord_remainder : not_private divWord_remainder.
Proof. repeat split; discriminate. Qed.

Lemma not_private_remainderWord_quotient : not_private remainderWord_quotient.
Proof. repeat split; discriminate. Qed.

(** X18: divWord leaves the quotient of div2Word: for a divisor that is not
    zero the quotient truncated towards zero (but for the most negative word
    divided by minus one), for the zero divisor max-word or min-word by the
    sign of the dividend; no buffer of the caller other than the result
    changes. *)
Theorem divWord_value (r a b : nat) (m : mem) :
  valid m -> constants m -> r <> a -> r <> b ->
  returns (divWord (Buf r) (Buf a) (Buf b)) m (fun _ m' =>
    (m (Buf b) = 0 ->
     m' (Buf r) = if 0 <=? sval (m (Buf a)) then 2 ^ wordtopbit - 1 else 2 ^ wordtopbit) /\
    (m (Buf b) <> 0 ->
     ~ (m (Buf a) = 2 ^ wordtopbit /\ m (Buf b) = 2 ^ wordsize - 1) ->
     sval (m' (Buf r)) = Z.quot (sval (m (Buf a))) (sval (m (Buf b)))) /\
    (forall x, x <> r -> m' (Buf x) = m (Buf x))).
Proof.
  intros Hv Hc Hra Hrb. unfold divWord.
  eapply returns_weaken.
  { apply (div2Word_gen (Buf r) divWord_remainder a b m); try assumption;
      try congruence; try discriminate;
      [apply not_private_Buf | apply not_private_divWord_remainder]. }
  cbv zeta. intros u m' (_ & Hs & H). split; [|split].
  - intros E0. rewrite E0 in H. cbn [Z.eqb] in H. destruct H as [Eq _].
    rewrite Eq, Z.leb_antisym, sval_negative by apply Hv.
    destruct (Z.testbit (m (Buf a)) wordtopbit); reflexivity.
  - intros HB Hov. destruct (Z.eqb_spec (m (Buf b)) 0) as [E0|_]; [contradiction|].
    destruct H as [Eq _]. rewrite Eq.
    apply quot_value; [apply Hv | apply Hv | exact HB | exact Hov].
  - intros x Hx. apply Hs. unfold div_written. notin.
Qed.

Lemma divWord_value_witness :
  returns (divWord (Buf 2) (Buf 0) (Buf 1)) (init_mem [4294967289; 2]) (fun _ m' =>
    (init_mem [4294967289; 2] (Buf 1) = 0 ->
     m' (Buf 2) = if 0 <=? sval 4294967289 then 2 ^ wordtopbit - 1 else 2 ^ wordtopbit) /\
    (init_mem [4294967289; 2] (Buf 1) <> 0 ->
     ~ (init_mem [4294967289; 2] (Buf 0) = 2 ^ wordtopbit /\
        init_mem [4294967289; 2] (Buf 1) = 2 ^ wordsize - 1) ->
     sval (m' (Buf 2)) = Z.quot (sval 4294967289) (sval 2)) /\
    (forall x, x <> 2%nat -> m' (Buf x) = init_mem [4294967289; 2] (Buf x))).
Proof.
  apply (divWord_value 2 0 1 (init_mem [4294967289; 2])).
  - apply init_mem_valid.
    repeat (apply Forall_cons; [unfold valid_word, wordsize; lia|]). apply Forall_nil.
  - apply init_mem_constants.
  - lia.
  - lia.
Defined.

(** X19: remainderWord leaves the remainder of div2Word: for a divisor that
    is not zero the remainder of the division truncated towards zero, which
    has the sign of the dividend, and for the zero divisor the zero word; no
    buffer of the caller other than the result changes. *)
Theorem remainderWord_value (r a b : nat) (m : mem) :
  valid m -> constants m -> r <> a -> r <> b ->
  returns (remainderWord (Buf r) (Buf a) (Buf b)) m (fun _ m' =>
    (m (Buf b) = 0 -> m' (Buf r) = 0) /\
    (m (Buf b) <> 0 ->
     sval (m' (Buf r)) = Z.rem (sval (m (Buf a))) (sval (m (Buf b)))) /\
    (forall x, x <> r -> m' (Buf x) = m (Buf x))).
Proof.
  intros Hv Hc Hra Hrb. unfold remainderWord.
  eapply returns_weaken.
  { apply (div2Word_gen remainderWord_quotient (Buf r) a b m); try assumption;
      try congruence; try discriminate;
      [apply not_private_remainderWord_quotient | apply not_private_Buf]. }
  cbv zeta. intros u m' (_ & Hs & H). split; [|split].
  - intros E0. rewrite E0 in H. cbn [Z.eqb] in H. apply H.
  - intros HB. destruct (Z.eqb_spec (m (Buf b)) 0) as [E0|_]; [contradiction|].
    destruct H as [_ Er]. rewrite Er.
    apply rem_value; [apply Hv | apply Hv | exact HB].
  - intros x Hx. apply Hs. unfold div_written. notin.
Qed.

Lemma remainderWord_value_witness :
  returns (remainderWord (Buf 2) (Buf 0) (Buf 1)) (init_mem [4294967289; 2]) (fun _ m' =>
    (init_mem [4294967289; 2] (Buf 1) = 0 -> m' (Buf 2) = 0) /\
    (init_mem [4294967289; 2] (Buf 1) <> 0 ->
     sval (m' (Buf 2)) = Z.rem (sval 4294967289) (sval 2)) /\
    (forall x, x <> 2%nat -> m' (Buf x) = init_mem [4294967289; 2] (Buf x))).
Proof.
  apply (remainderWord_value 2 0 1 (init_mem [4294967289; 2])).
  - apply init_mem_valid.
    repeat (apply Forall_cons; [unfold valid_word, wordsize; lia|]). apply Forall_nil.
  - apply init_mem_constants.
  - lia.
  - lia.
Defined.

Lemma constants_kept ls m m' :
  constants m -> same_except ls m m' ->
  ~ In zeroWord ls -> ~ In maxWord ls -> ~ In minWord ls -> constants m'.
Proof.
  intros (Hz & Hmax & Hmin) Hs H1 H2 H3.
  repeat split; [rewrite (Hs zeroWord H1) | rewrite (Hs maxWord H2) | rewrite (Hs minWord H3)];
    assumption.
Qed.

(** X20: ashWord, lshWord and maskWord (for every count an int can hold
    other than INT_MIN), mulWord and div2Word change no buffer of the caller
    other than their results, and leave the three constants as they were; in
    particular div2Word, given separate buffers, leaves its operands
    unchanged. *)
Theorem callers_buffers_kept (fuel : nat) (q r a b : nat) (count : Z) (m : mem) :
  valid m -> constants m -> (Z.to_nat wordsize <= fuel)%nat -> int_count count ->
  q <> r -> q <> a -> q <> b -> r <> a -> r <> b ->
  let kept (ws : list nat) (m' : mem) :=
    (forall x, ~ In x ws -> m' (Buf x) = m (Buf x)) /\ constants m' in
  returns (ashWord (Buf r) (Buf a) count) m (fun _ m' => kept [r] m') /\
  returns (lshWord (Buf r) (Buf a) count) m (fun _ m' => kept [r] m') /\
  returns (maskWord (Buf r) (Buf a) count) m (fun _ m' => kept [r] m') /\
  returns (mulWord fuel (Buf r) (Buf a) (Buf b)) m (fun _ m' => kept [r] m') /\
  returns (div2Word (Buf q) (Buf r) (Buf a) (Buf b)) m (fun _ m' => kept [q; r] m').
Proof.
  intros Hv Hc Hfuel _ Hqr Hqa Hqb Hra Hrb kept. subst kept. cbv beta.
  assert (Hz : m zeroWord = 0) by apply Hc.
  repeat split.
  - eapply returns_weaken; [apply ashWord_spec; [exact Hv | discriminate]|].
    intros u m' (_ & _ & Hs). split.
    + intros x Hx. apply Hs. notin.
    + apply (constants_kept _ _ _ Hc Hs); notin.
  - eapply returns_weaken; [apply lshWord_spec; [exact Hv | discriminate]|].
    intros u m' (_ & _ & Hs). split.
    + intros x Hx. apply Hs. notin.
    + apply (constants_kept _ _ _ Hc Hs); notin.
  - eapply returns_weaken; [apply maskWord_spec, Hv|].
    intros u m' (_ & _ & Hs). split.
    + intros x Hx. apply Hs. notin.
    + apply (constants_kept _ _ _ Hc Hs); notin.
  - eapply returns_weaken; [apply mulWord_spec; assumption|].
    intros u m' (_ & _ & Hs). unfold mul_frame in Hs. split.
    + intros x Hx. apply Hs. notin.
    + apply (constants_kept _ _ _ Hc Hs); notin.
  - eapply returns_weaken; [apply div2Word_spec; assumption|].
    cbv zeta. intros u m' (_ & Hs & _). unfold div_frame in Hs. split.
    + intros x Hx. apply Hs. notin.
    + apply (constants_kept _ _ _ Hc Hs); notin.
Qed.

Lemma callers_buffers_kept_witness :
  let m := init_mem [4294967289; 2; 9; 9] in
  let kept (ws : list nat) (m' : mem) :=
    (forall x, ~ In x ws -> m' (Buf x) = m (Buf x)) /\ constants m' in
  returns (ashWord (Buf 3) (Buf 0) 5) m (fun _ m' => kept [3%nat] m') /\
  returns (lshWord (Buf 3) (Buf 0) 5) m (fun _ m' => kept [3%nat] m') /\
  returns (maskWord (Buf 3) (Buf 0) 5) m (fun _ m' => kept [3%nat] m') /\
  returns (mulWord 32 (Buf 3) (Buf 0) (Buf 1)) m (fun _ m' => kept [3%nat] m') /\
  returns (div2Word (Buf 2) (Buf 3) (Buf 0) (Buf 1)) m (fun _ m' => kept [2%nat; 3%nat] m').
Proof.
  apply (callers_buffers_kept 32 2 3 0 1 5 (init_mem [4294967289; 2; 9; 9])).
  - apply init_mem_valid.
    repeat (apply Forall_cons; [unfold valid_word, wordsize; lia|]). apply Forall_nil.
  - apply init_mem_constants.
  - vm_compute. lia.
  - unfold int_count. lia.
  - lia.
  - lia.
  - lia.
  - lia.
  - lia.
Defined.

(** ** Round trips *)

(** When multiplying by [2 ^ c] does not overflow, the bits from
    [wordtopbit - c] up all equal the sign bit. *)
Lemma high_bits_are_sign w c i :
  valid_word w -> 1 <= c <= wordtopbit ->
  - 2 ^ wordtopbit <= sval w * 2 ^ c < 2 ^ wordtopbit ->
  wordtopbit - c <= i <= wordtopbit ->
  Z.testbit w i = Z.testbit w wordtopbit.
Proof.
  intros Hw Hc Hfit Hi.
  assert (Htop : 0 <= wordtopbit) by (unfold wordtopbit, wordsize; lia).
  assert (HP : 0 < 2 ^ c) by (apply Z.pow_pos_nonneg; lia).
  assert (Hsplit : 2 ^ wordtopbit = 2 ^ (wordtopbit - c) * 2 ^ c)
    by (rewrite <- Z.pow_add_r by lia; f_equal; lia).
  assert (Hmono : 2 ^ (wordtopbit - c) <= 2 ^ i) by (apply Z.pow_le_mono_r; lia).
  assert (Hs : - 2 ^ (wordtopbit - c) <= sval w < 2 ^ (wordtopbit - c)) by nia.
  rewrite <- (sval_negative w Hw).
  replace i with (Z.min i wordtopbit) by lia.
  rewrite <- sval_testbit by (exact Hw || lia).
  destruct (Z.ltb_spec (sval w) 0).
  - apply testbit_of_negative; lia.
  - apply testbit_of_small; lia.
Qed.

(** X21: arithmetic shifts there and back.  Shifting left by [c] and then
    right by [c] gives back the operand whenever the left shift did not
    overflow; shifting right by [c] and then left by [c] gives the operand
    with its low [c] bits cleared. *)
Theorem ashWord_round_trips (r t op : nat) (c : Z) (m : mem) :
  valid m -> 1 <= c <= wordtopbit ->
  returns (ashWord (Buf t) (Buf op) c ;; ashWord (Buf r) (Buf t) (- c)) m (fun _ m' =>
    - 2 ^ wordtopbit <= sval (m (Buf op)) * 2 ^ c < 2 ^ wordtopbit ->
    m' (Buf r) = m (Buf op)) /\
  returns (ashWord (Buf t) (Buf op) (- c) ;; ashWord (Buf r) (Buf t) c) m (fun _ m' =>
    m' (Buf r) = 2 ^ c * (m (Buf op) / 2 ^ c)).
Proof.
  intros Hv Hc.
  assert (Ec : clamp_shift c = c) by (rewrite clamp_shift_small, Z.abs_eq by lia; reflexivity).
  assert (Ec' : clamp_shift (- c) = c)
    by (rewrite clamp_shift_small, Z.abs_neq by lia; lia).
  assert (Hneg : (- c <? 0) = true) by (apply Z.ltb_lt; lia).
  assert (Hpos : (c <? 0) = false) by (apply Z.ltb_ge; lia).
  pose proof (Hv (Buf op)) as HW.
  split.
  - apply returns_bind.
    eapply returns_weaken; [apply ashWord_spec; [exact Hv | discriminate]|].
    intros u1 m1 (Hv1 & Hb1 & _).
    eapply returns_weaken; [apply ashWord_spec; [exact Hv1 | discriminate]|].
    intros u2 m2 (Hv2 & Hb2 & _) Hfit.
    apply word_ext; [apply Hv2 | exact HW |].
    intros i Hi. rewrite Hb2 by exact Hi. unfold ash_bit. cbv zeta.
    rewrite Ec', Hneg.
    assert (Htop : Z.testbit (m1 (Buf t)) wordtopbit = Z.testbit (m (Buf op)) wordtopbit).
    { rewrite Hb1 by lia. unfold ash_bit. rewrite Z.eqb_refl. reflexivity. }
    destruct (Z.eqb_spec i wordtopbit) as [->|Hne]; [exact Htop|].
    destruct (Z.leb_spec i (wordtopbit - 1 - c)).
    + rewrite Hb1 by lia. unfold ash_bit. cbv zeta. rewrite Ec, Hpos.
      destruct (Z.eqb_spec (i + c) wordtopbit); [lia|].
      destruct (Z.ltb_spec (i + c) c); [lia|]. f_equal. lia.
    + rewrite Htop. symmetry. apply (high_bits_are_sign _ c); try assumption. lia.
  - apply returns_bind.
    eapply returns_weaken; [apply ashWord_spec; [exact Hv | discriminate]|].
    intros u1 m1 (Hv1 & Hb1 & _).
    eapply returns_weaken; [apply ashWord_spec; [exact Hv1 | discriminate]|].
    intros u2 m2 (Hv2 & Hb2 & _).
    assert (HP : 0 < 2 ^ c) by (apply Z.pow_pos_nonneg; lia).
    apply word_ext; [apply Hv2 | |].
    { destruct HW as [H0 H1]. split.
      - apply Z.mul_nonneg_nonneg; [lia | apply Z.div_pos; lia].
      - pose proof (Z.mul_div_le (m (Buf op)) (2 ^ c) HP). lia. }
    intros i Hi. rewrite Hb2 by exact Hi. unfold ash_bit. cbv zeta.
    rewrite Ec, Hpos.
    rewrite (Z.mul_comm (2 ^ c)), Z.mul_pow2_bits by lia.
    destruct (Z.eqb_spec i wordtopbit) as [->|Hne].
    + rewrite Hb1 by lia. unfold ash_bit. rewrite Z.eqb_refl.
      rewrite Z.div_pow2_bits by lia. f_equal. lia.
    + destruct (Z.ltb_spec i c).
      * symmetry. apply Z.testbit_neg_r. lia.
      * rewrite Hb1 by lia. unfold ash_bit. cbv zeta. rewrite Ec', Hneg.
        destruct (Z.eqb_spec (i - c) wordtopbit); [lia|].
        destruct (Z.leb_spec (i - c) (wordtopbit - 1 - c)); [|lia].
        rewrite Z.div_pow2_bits by lia. reflexivity.
Qed.

Lemma ashWord_round_trips_witness :
  returns (ashWord (Buf 1) (Buf 0) 3 ;; ashWord (Buf 2) (Buf 1) (- 3)) (init_mem [4294967289])
    (fun _ m' =>
       - 2 ^ wordtopbit <= sval 4294967289 * 2 ^ 3 < 2 ^ wordtopbit ->
       m' (Buf 2) = 4294967289) /\
  returns (ashWord (Buf 1) (Buf 0) (- 3) ;; ashWord (Buf 2) (Buf 1) 3) (init_mem [4294967289])
    (fun _ m' => m' (Buf 2) = 2 ^ 3 * (4294967289 / 2 ^ 3)).
Proof.
  apply (ashWord_round_trips 2 1 0 3 (init_mem [4294967289])).
  - apply init_mem_valid.
    repeat (apply Forall_cons; [unfold valid_word, wordsize; lia|]). apply Forall_nil.
  - unfold wordtopbit, wordsize. lia.
Defined.

(** X22: multiplying by the word that holds [2 ^ c] is the logical shift to
    the left by [c]. *)
Theorem mulWord_power_of_two (fuel : nat) (r r' a b : nat) (c : Z) (m : mem) :
  valid m -> constants m -> (Z.to_nat wordsize <= fuel)%nat ->
  0 <= c <= wordtopbit -> m (Buf b) = 2 ^ c ->
  returns (mulWord fuel (Buf r) (Buf a) (Buf b)) m (fun _ m1 =>
    returns (lshWord (Buf r') (Buf a) c) m (fun _ m2 =>
      m1 (Buf r) = m2 (Buf r'))).
Proof.
  intros Hv (Hz & _) Hfuel Hc Hb.
  eapply returns_weaken; [apply mulWord_spec; assumption|].
  intros u1 m1 (_ & E1 & _).
  eapply returns_weaken; [apply lshWord_spec; [exact Hv | discriminate]|].
  intros u2 m2 (_ & E2 & _).
  rewrite E1, E2, Hb, clamp_shift_small, Z.abs_eq by lia.
  destruct (Z.ltb_spec c 0); [lia|].
  rewrite Z.shiftl_mul_pow2 by lia. reflexivity.
Qed.

Lemma mulWord_power_of_two_witness :
  returns (mulWord 32 (Buf 2) (Buf 0) (Buf 1)) (init_mem [4294967289; 2147483648]) (fun _ m1 =>
    returns (lshWord (Buf 3) (Buf 0) 31) (init_mem [4294967289; 2147483648]) (fun _ m2 =>
      m1 (Buf 2) = m2 (Buf 3))).
Proof.
  apply (mulWord_power_of_two 32 2 3 0 1 31 (init_mem [4294967289; 2147483648])).
  - apply init_mem_valid.
    repeat (apply Forall_cons; [unfold valid_word, wordsize; lia|]). apply Forall_nil.
  - apply init_mem_constants.
  - vm_compute. lia.
  - unfold wordtopbit, wordsize. lia.
  - reflexivity.
Defined.

(** X23: a circular shift by half the word length, in either direction, done
    twice gives back the operand. *)
Theorem cshWord_half_turn_twice (r t op : nat) (count count' : Z) (m : mem) :
  valid m -> In count [16; -16] -> In count' [16; -16] ->
  returns (cshWord (Buf t) (Buf op) count ;; cshWord (Buf r) (Buf t) count') m (fun _ m' =>
    m' (Buf r) = m (Buf op)).
Proof.
  intros Hv Hin Hin'.
  assert (Hc : Z.abs count <= 64 /\ csh_count count = 16).
  { cbn [In] in Hin. destruct Hin as [<-|[<-|[]]]; vm_compute; split; auto; discriminate. }
  assert (Hc' : Z.abs count' <= 64 /\ csh_count count' = 16).
  { cbn [In] in Hin'. destruct Hin' as [<-|[<-|[]]]; vm_compute; split; auto; discriminate. }
  destruct Hc as [Hcount Ec]. destruct Hc' as [Hcount' Ec'].
  apply returns_bind.
  eapply returns_weaken; [apply cshWord_spec; [exact Hv | discriminate | exact Hcount]|].
  intros u1 m1 (Hv1 & Hb1 & _).
  eapply returns_weaken; [apply cshWord_spec; [exact Hv1 | discriminate | exact Hcount']|].
  intros u2 m2 (Hv2 & Hb2 & _).
  apply word_ext; [apply Hv2 | apply Hv |].
  intros i Hi. rewrite Hb2 by exact Hi. rewrite Ec'.
  unfold csh_bit. change (Z.quot wordsize 2) with 16. change (16 <? 16) with false.
  cbn [andb]. unfold wordtopbit, wordsize in Hi.
  destruct (Z.ltb_spec i 16).
  - rewrite Hb1 by (unfold wordtopbit, wordsize; lia). rewrite Ec.
    unfold csh_bit. change (Z.quot wordsize 2) with 16. change (16 <? 16) with false.
    cbn [andb]. destruct (Z.ltb_spec (i + (32 - 16)) 16); [lia|]. f_equal. lia.
  - rewrite Hb1 by (unfold wordtopbit, wordsize; lia). rewrite Ec.
    unfold csh_bit. change (Z.quot wordsize 2) with 16. change (16 <? 16) with false.
    cbn [andb]. destruct (Z.ltb_spec (i - 16) 16); [|lia]. f_equal. lia.
Qed.

Lemma cshWord_half_turn_twice_witness :
  returns (cshWord (Buf 1) (Buf 0) 16 ;; cshWord (Buf 2) (Buf 1) (-16))
    (init_mem [2863333375]) (fun _ m' => m' (Buf 2) = 2863333375).
Proof.
  apply (cshWord_half_turn_twice 2 1 0 16 (-16) (init_mem [2863333375])).
  - apply init_mem_valid.
    repeat (apply Forall_cons; [unfold valid_word, wordsize; lia|]). apply Forall_nil.
  - cbn [In]. auto.
  - cbn [In]. auto.
Defined.
